(** * StyloMIDI: pitch stabilisation, note events and key mapping

    A shallow embedding of the note pipeline of StyloMIDI
    ([src/audio_processor.py], [src/midi_mode.py], [src/keyboard_mode.py],
    [src/keyboard_emulator.py]) and the properties of its specification.

    Conventions of the embedding.
    - Python [int] is [Z]; [None]-able values are [option].
    - The two floats that [process_audio_buffer] derives from an audio block
      (the frequency returned by the external pitch detector and the mean
      squared amplitude) are the inputs of the model.  Every finite float is
      a rational number, so they are values of [Q]; comparisons are exact.
      NaN and the infinities are not represented.
    - [np.log2] is taken at its real value: [int(69 + 12 * np.log2(f / 440.0))]
      is computed exactly on rationals by integer arithmetic, and related to
      the real logarithm in the section on the quantizer.  The rounding of
      the floating-point operations is left out, so the model and the code
      can differ by one where [69 + 12 * log2 (f / 440)] is within the
      rounding error of an integer; what is stated of the quantizer at a
      given frequency is stated away from those points, and the other
      statements use its result as it comes.
    - The silence floors are the decimal constants of the source, [0.001]
      and [20].
    - A raised Python exception is the [Raises] outcome.  [mido] checks the
      range of a note when a message is built; the calls into the
      [keyboard] module are taken not to raise, and each value of the key
      mapping counts as one key.
    - A [string] is a Python [str] of code points below 256.  [str.strip],
      [int] and [csv.reader] are modelled on them as CPython 3.11 defines
      them: the white space [int] skips is narrower than the white space
      [str.strip] removes, and [int] refuses more than 4300 digits.  A field
      of a csv file is taken to stay below the reader's field size limit.
    - The Qt signals and the calls into [mido] and [keyboard] made during one
      pass of a processing loop are collected, in order, in a list of
      actions. *)

From Stdlib Require Import ZArith QArith Qround List Bool Lia Ascii String.
From Stdlib Require Import Reals Qreals Lra.
From stdpp Require Import base option list gmap strings.

Local Open Scope Z_scope.

(** ** Python outcomes *)

Inductive exn : Type := ValueError | IndexError.

Inductive outcome (A : Type) : Type :=
| Returns (a : A)
| Raises (e : exn).
Arguments Returns {A} a.
Arguments Raises {A} e.

(** ** [collections.deque(maxlen=...)] and [collections.Counter] *)

Module collections.

(** [deque.append] on a bounded deque, oldest element first: when the deque
    is full the element at the left end is discarded. *)
Definition deque_append (maxlen : nat) (d : list Z) (x : Z) : list Z :=
  if (maxlen <=? length d)%nat then tail d ++ [x] else d ++ [x].

(** The count stored for a key, as [c.get(x)]. *)
Fixpoint get (x : Z) (c : list (Z * Z)) : option Z :=
  match c with
  | [] => None
  | (k, v) :: c' => if k =? x then Some v else get x c'
  end.

(** [Counter] is a dict in insertion order; [c[x] = c.get(x, 0) + 1]. *)
Fixpoint counter_incr (x : Z) (c : list (Z * Z)) : list (Z * Z) :=
  match c with
  | [] => [(x, 1)]
  | (k, v) :: c' =>
      if k =? x then (k, v + 1) :: c' else (k, v) :: counter_incr x c'
  end.

Definition Counter (l : list Z) : list (Z * Z) :=
  fold_left (fun c x => counter_incr x c) l [].

(** [max(items, key=itemgetter(1))]: the first item of greatest count. *)
Fixpoint max_by_count (best : Z * Z) (c : list (Z * Z)) : Z * Z :=
  match c with
  | [] => best
  | kv :: c' => max_by_count (if snd best <? snd kv then kv else best) c'
  end.

(** [most_common(1)] is [heapq.nlargest(1, items, key=count)], which for
    one element is [max] over the items, or the empty list. *)
Definition most_common_1 (c : list (Z * Z)) : list (Z * Z) :=
  match c with
  | [] => []
  | kv :: c' => [max_by_count kv c']
  end.

End collections.

(** ** [audio_processor.py] *)

Module AudioProcessor.

Record t : Type := mk {
  note_history : list Z;          (* deque(maxlen=10), oldest first *)
  required_stability : Z;
  current_note : option Z;
  current_stable_note : option Z
}.

Record Result : Type := mkResult {
  is_valid : bool;
  midi_note : option Z;
  is_new_note : bool;
  freq : Q;
  amplitude : Q
}.

Definition maxlen : nat := 10.

(** [__init__], with [stability_threshold=5] by default. *)
Definition init (stability_threshold : Z) : t :=
  {| note_history := [];
     required_stability := stability_threshold;
     current_note := None;
     current_stable_note := None |}.

Definition default_stability_threshold : Z := 5.

(** *** [freq_to_midi] *)

(** [2^k * b <= a], for any integer [k]. *)
Definition pow2_mul_le (k a b : Z) : bool :=
  if 0 <=? k then 2 ^ k * b <=? a else b <=? 2 ^ (- k) * a.

(** [2^k * b = a], for any integer [k]. *)
Definition pow2_mul_eq (k a b : Z) : bool :=
  if 0 <=? k then 2 ^ k * b =? a else b =? 2 ^ (- k) * a.

(** [floor (log2 (a / b))] for positive integers [a], [b]. *)
Definition floor_log2_ratio (a b : Z) : Z :=
  let k := Z.log2 a - Z.log2 b in
  if pow2_mul_le k a b then k else k - 1.

(** [int(69 + 12 * np.log2(freq / 440.0))] for [freq > 0].  With
    [freq = n / d] the value [12 * log2 (freq / 440)] is
    [log2 (n^12 / (440 d)^12)]; [int] truncates toward zero. *)
Definition int_semitone (freq : Q) : Z :=
  let a := Qnum freq ^ 12 in
  let b := (440 * Zpos (Qden freq)) ^ 12 in
  let k := floor_log2_ratio a b in
  if 0 <=? 69 + k then 69 + k
  else if pow2_mul_eq k a b then 69 + k
  else 69 + k + 1.

(** [freq_to_midi]: [None] at zero; for a negative frequency [np.log2]
    yields NaN and [int] raises [ValueError]. *)
Definition freq_to_midi (freq : Q) : outcome (option Z) :=
  if Qeq_bool freq 0 then Returns None
  else if Qle_bool freq 0 then Raises ValueError
  else Returns (Some (int_semitone freq)).

(** [round] of a Python [int] is that [int]. *)
Definition round_int (n : Z) : Z := n.

Definition Qgt_bool (x y : Q) : bool := negb (Qle_bool x y).

Definition silence_amplitude_floor : Q := 1 # 1000.
Definition silence_frequency_floor : Q := 20 # 1.

(** The test [amplitude > 0.001 and freq > 20]. *)
Definition valid_signal (freq amplitude : Q) : bool :=
  Qgt_bool amplitude silence_amplitude_floor
  && Qgt_bool freq silence_frequency_floor.

(** *** [process_audio_buffer]

    The arguments [freq] and [amplitude] are the values computed from
    [audio_data] at the top of the method. *)
Definition process_audio_buffer (self : t) (freq amplitude : Q)
  : outcome (Result * t) :=
  let result :=
    {| is_valid := false; midi_note := None; is_new_note := false;
       freq := freq; amplitude := amplitude |} in
  if valid_signal freq amplitude then
    match freq_to_midi freq with
    | Raises e => Raises e
    | Returns None => Returns (result, self)
    | Returns (Some note) =>
        let note := round_int note in
        let history := collections.deque_append maxlen (note_history self) note in
        let self1 :=
          {| note_history := history;
             required_stability := required_stability self;
             current_note := current_note self;
             current_stable_note := current_stable_note self |} in
        if required_stability self <=? Z.of_nat (length history) then
          match collections.most_common_1 (collections.Counter history) with
          | [] => Raises IndexError
          | (most_common_note, count) :: _ =>
              if required_stability self <=? count then
                if negb (bool_decide (Some most_common_note = current_stable_note self)) then
                  Returns
                    ({| is_valid := true; midi_note := Some most_common_note;
                        is_new_note := true;
                        freq := freq; amplitude := amplitude |},
                     {| note_history := history;
                        required_stability := required_stability self;
                        current_note := current_note self;
                        current_stable_note := Some most_common_note |})
                else
                  Returns
                    ({| is_valid := true; midi_note := Some most_common_note;
                        is_new_note := false;
                        freq := freq; amplitude := amplitude |},
                     self1)
              else Returns (result, self1)
          end
        else Returns (result, self1)
    end
  else
    Returns
      (result,
       {| note_history := [];
          required_stability := required_stability self;
          current_note := current_note self;
          current_stable_note := None |}).

Definition set_stability (self : t) (value : Z) : t :=
  {| note_history := note_history self;
     required_stability := value;
     current_note := current_note self;
     current_stable_note := current_stable_note self |}.

Definition reset (self : t) : t :=
  {| note_history := [];
     required_stability := required_stability self;
     current_note := None;
     current_stable_note := None |}.

End AudioProcessor.

(** ** Actions of a processing loop *)

(** [mido.Message('note_off', ...)] and [mido.Message('note_on', ...)]. *)
Inductive Message : Type :=
| note_off (note channel : Z)
| note_on (note velocity channel : Z).

Inductive status_text : Type :=
| status_note (midi_note : Z)                          (* "Note: n" *)
| status_note_key (midi_note : Z) (key : option string) (* "Note: n -> Key: k" *)
| status_not_mapped (midi_note : Z)                    (* "Note: n (not mapped)" *)
| status_error (e : exn).                              (* "Error: ..." *)

Inductive action : Type :=
| midi_output_send (m : Message)
| keyboard_press (key : string)
| keyboard_release (key : string)
| status_signal (s : status_text)
| note_detected_signal (midi_note : Z)
| note_off_signal.

(** The events of the specification are the two note signals of a loop. *)
Inductive event : Type :=
| note_changed (semitoneIndex : Z)
| note_cleared.

Fixpoint events (acts : list action) : list event :=
  match acts with
  | [] => []
  | note_detected_signal n :: acts' => note_changed n :: events acts'
  | note_off_signal :: acts' => note_cleared :: events acts'
  | _ :: acts' => events acts'
  end.

(** The MIDI messages among the actions. *)
Fixpoint sent (acts : list action) : list Message :=
  match acts with
  | [] => []
  | midi_output_send m :: acts' => m :: sent acts'
  | _ :: acts' => sent acts'
  end.

(** What [stop_processing] does besides its state change: calls into the
    sink and signals (an [action]), [clear_note_display], and the status
    text it emits.  The enabling and disabling of widgets is left out. *)
Inductive window_effect : Type :=
| effect_action (a : action)
| effect_clear_note_display
| effect_status (text : string).

Fixpoint effect_actions (effects : list window_effect) : list action :=
  match effects with
  | [] => []
  | effect_action a :: effects' => a :: effect_actions effects'
  | _ :: effects' => effect_actions effects'
  end.

(** ** [midi_mode.py] *)

Module MidiModeWindow.

Record t : Type := mk {
  audio_processor : AudioProcessor.t;
  current_note : option Z;
  running : bool
}.

(** [mido] rejects data bytes outside 0..127 and channels outside 0..15
    with [ValueError] when the [Message] is built. *)
Definition data_byte (n : Z) : bool := (0 <=? n) && (n <=? 127).
Definition channel_ok (c : Z) : bool := (0 <=? c) && (c <=? 15).

Definition Message_note_off (note channel : Z) : outcome Message :=
  if data_byte note && channel_ok channel
  then Returns (note_off note channel) else Raises ValueError.

Definition Message_note_on (note velocity channel : Z) : outcome Message :=
  if data_byte note && data_byte velocity && channel_ok channel
  then Returns (note_on note velocity channel) else Raises ValueError.

(** The handler [except Exception as e] of [process_audio]. *)
Definition on_exception (self : t) (done : list action) (e : exn)
  : t * list action :=
  ({| audio_processor := audio_processor self;
      current_note := current_note self;
      running := false |},
   done ++ [status_signal (status_error e)]).

(** The window when [__init__] returns. *)
Definition init : t :=
  {| audio_processor := AudioProcessor.init AudioProcessor.default_stability_threshold;
     current_note := None;
     running := false |}.

(** The state part of [start_processing]. *)
Definition start_processing (self : t) : t :=
  {| audio_processor := AudioProcessor.reset (audio_processor self);
     current_note := None;
     running := true |}.

Definition update_stability (self : t) (value : Z) : t :=
  {| audio_processor := AudioProcessor.set_stability (audio_processor self) value;
     current_note := current_note self;
     running := running self |}.

(** One pass of the body of [while self.running] in [process_audio], on
    the block whose frequency and amplitude are [freq] and [amplitude]. *)
Definition process_audio_block (midi_channel : Z) (self : t) (freq amplitude : Q)
  : t * list action :=
  match AudioProcessor.process_audio_buffer (audio_processor self) freq amplitude with
  | Raises e => on_exception self [] e
  | Returns (result, ap) =>
      let self := {| audio_processor := ap;
                     current_note := current_note self;
                     running := running self |} in
      match AudioProcessor.is_valid result, AudioProcessor.midi_note result with
      | true, Some midi_note =>
          if AudioProcessor.is_new_note result then
            (* Turn off previous note if it exists *)
            let off :=
              match current_note self with
              | Some c =>
                  match Message_note_off c midi_channel with
                  | Returns m => Returns [midi_output_send m]
                  | Raises e => Raises e
                  end
              | None => Returns []
              end in
            match off with
            | Raises e => on_exception self [] e
            | Returns done =>
                match Message_note_on midi_note 64 midi_channel with
                | Raises e => on_exception self done e
                | Returns m =>
                    ({| audio_processor := ap;
                        current_note := Some midi_note;
                        running := running self |},
                     done ++ [midi_output_send m;
                              status_signal (status_note midi_note);
                              note_detected_signal midi_note])
                end
            end
          else (self, [])
      | is_valid, _ =>
          match negb is_valid, current_note self with
          | true, Some c =>
              match Message_note_off c midi_channel with
              | Raises e => on_exception self [] e
              | Returns m =>
                  ({| audio_processor := ap;
                      current_note := None;
                      running := running self |},
                   [midi_output_send m; note_off_signal])
              end
          | _, _ => (self, [])
          end
      end
  end.

(** [process_audio]: the loop over the blocks read from the stream; the
    result lists the actions of each pass. *)
Fixpoint process_audio (midi_channel : Z) (self : t) (blocks : list (Q * Q))
  : t * list (list action) :=
  match blocks with
  | [] => (self, [])
  | (freq, amplitude) :: blocks' =>
      if running self then
        let '(self1, acts) := process_audio_block midi_channel self freq amplitude in
        let '(self2, rest) := process_audio midi_channel self1 blocks' in
        (self2, acts :: rest)
      else (self, [])
  end.

(** [stop_processing].  [channel] is [midi_channel_combo.currentData()].
    While [running] holds, [midi_output] is the port [start_processing]
    opened; the thread and the stream are not part of the state.  Building
    the note-off message may raise, and nothing catches it here. *)
Definition stop_processing (self : t) (channel : Z) : outcome (t * list window_effect) :=
  if running self then
    let stopped := {| audio_processor := audio_processor self;
                      current_note := current_note self;
                      running := false |} in
    match current_note self with
    | Some c =>
        match Message_note_off c channel with
        | Raises e => Raises e
        | Returns m =>
            Returns (stopped,
                     [effect_action (midi_output_send m);
                      effect_clear_note_display;
                      effect_status "Processing stopped."])
        end
    | None =>
        Returns (stopped,
                 [effect_clear_note_display; effect_status "Processing stopped."])
    end
  else Returns (self, []).

End MidiModeWindow.

(** ** Python strings *)

Module pystr.

Local Open Scope string_scope.

(** White space as [str.isspace] has it, which [str.strip] removes: tab to
    carriage return, the separators 28 to 31, the blank, and above 127 the
    next-line character and the no-break space. *)
Definition isspace (c : ascii) : bool :=
  let n := nat_of_ascii c in
  ((9 <=? n) && (n <=? 13) || (28 <=? n) && (n <=? 32)
   || (n =? 133) || (n =? 160))%nat.

Fixpoint lstrip (s : string) : string :=
  match s with
  | String c s' => if isspace c then lstrip s' else s
  | EmptyString => EmptyString
  end.

Fixpoint rstrip (s : string) : string :=
  match s with
  | String c s' =>
      match rstrip s' with
      | EmptyString => if isspace c then EmptyString else String c EmptyString
      | r => String c r
      end
  | EmptyString => EmptyString
  end.

Definition strip (s : string) : string := rstrip (lstrip s).

Definition isdigit (c : ascii) : bool :=
  let n := nat_of_ascii c in ((48 <=? n) && (n <=? 57))%nat.

Definition digit_value (c : ascii) : Z := Z.of_nat (nat_of_ascii c) - 48.

(** Decimal digits, single underscores allowed between digits. *)
Fixpoint parse_digits (s : string) (acc : Z) (after_digit : bool) : option Z :=
  match s with
  | EmptyString => if after_digit then Some acc else None
  | String c s' =>
      if isdigit c then parse_digits s' (10 * acc + digit_value c) true
      else if Ascii.eqb c "_" && after_digit then parse_digits s' acc false
      else None
  end.

(** White space as [int] skips it before and after the number: that of C's
    [isspace], and the two spaces above 127, which [int] reads as blanks.
    The separators 28 to 31 are not among them. *)
Definition int_isspace (c : ascii) : bool :=
  let n := nat_of_ascii c in
  ((9 <=? n) && (n <=? 13) || (n =? 32) || (n =? 133) || (n =? 160))%nat.

Fixpoint int_lstrip (s : string) : string :=
  match s with
  | String c s' => if int_isspace c then int_lstrip s' else s
  | EmptyString => EmptyString
  end.

Fixpoint int_rstrip (s : string) : string :=
  match s with
  | String c s' =>
      match int_rstrip s' with
      | EmptyString => if int_isspace c then EmptyString else String c EmptyString
      | r => String c r
      end
  | EmptyString => EmptyString
  end.

Fixpoint count_digits (s : string) : nat :=
  match s with
  | EmptyString => 0
  | String c s' => if isdigit c then S (count_digits s') else count_digits s'
  end.

(** [sys.get_int_max_str_digits()], as the interpreter starts. *)
Definition max_str_digits : nat := 4300.

(** The digits after the sign: more than [max_str_digits] of them are
    refused, leading zeros counted and underscores not. *)
Definition int_digits (s : string) : option Z :=
  if (max_str_digits <? count_digits s)%nat then None
  else parse_digits s 0 false.

(** [int(s)] in base ten; [None] stands for [ValueError]. *)
Definition int (s : string) : option Z :=
  match int_rstrip (int_lstrip s) with
  | String "+" s' => int_digits s'
  | String "-" s' => Z.opp <$> int_digits s'
  | s' => int_digits s'
  end.

(** [s[i:]]. *)
Fixpoint drop (i : nat) (s : string) : string :=
  match i, s with
  | O, _ => s
  | S i', String _ s' => drop i' s'
  | S _, EmptyString => EmptyString
  end.

(** [s[:i]]. *)
Fixpoint take (i : nat) (s : string) : string :=
  match i, s with
  | O, _ => EmptyString
  | S i', String c s' => String c (take i' s')
  | S _, EmptyString => EmptyString
  end.

(** *** [csv.reader], default dialect

    The delimiter is the comma and the quote character the double quote,
    doubled inside a quoted field to stand for itself; the reader is not
    strict. *)

Definition delimiter : ascii := ",".
Definition quotechar : ascii := "034".
Definition newline : ascii := "010".
Definition carriage_return : ascii := "013".

Inductive csv_state : Type :=
| START_RECORD
| START_FIELD
| IN_FIELD
| IN_QUOTED_FIELD
| QUOTE_IN_QUOTED_FIELD.

(** The reader between two characters: its state, the field it is reading
    and the fields of the record read so far. *)
Record csv_parser : Type := mk_parser {
  state : csv_state;
  field : string;
  fields : list string
}.

Definition parse_reset : csv_parser :=
  {| state := START_RECORD; field := EmptyString; fields := [] |}.

Definition parse_save_field (p : csv_parser) (next : csv_state) : csv_parser :=
  {| state := next; field := EmptyString; fields := (fields p ++ [field p])%list |}.

Definition parse_add_char (p : csv_parser) (next : csv_state) (c : ascii)
  : csv_parser :=
  {| state := next; field := field p ++ String c EmptyString; fields := fields p |}.

Definition parse_goto (p : csv_parser) (next : csv_state) : csv_parser :=
  {| state := next; field := field p; fields := fields p |}.

(** [parse_process_char] on a character of a line that is not a line
    break. *)
Definition parse_process_char (p : csv_parser) (c : ascii) : csv_parser :=
  match state p with
  | START_RECORD | START_FIELD =>
      if Ascii.eqb c quotechar then parse_goto p IN_QUOTED_FIELD
      else if Ascii.eqb c delimiter then parse_save_field p START_FIELD
      else parse_add_char p IN_FIELD c
  | IN_FIELD =>
      if Ascii.eqb c delimiter then parse_save_field p START_FIELD
      else parse_add_char p IN_FIELD c
  | IN_QUOTED_FIELD =>
      if Ascii.eqb c quotechar then parse_goto p QUOTE_IN_QUOTED_FIELD
      else parse_add_char p IN_QUOTED_FIELD c
  | QUOTE_IN_QUOTED_FIELD =>
      if Ascii.eqb c quotechar then parse_add_char p IN_QUOTED_FIELD c
      else if Ascii.eqb c delimiter then parse_save_field p START_FIELD
      else parse_add_char p IN_FIELD c
  end.

Fixpoint parse_process_chars (p : csv_parser) (line : string) : csv_parser :=
  match line with
  | EmptyString => p
  | String c line' => parse_process_chars (parse_process_char p c) line'
  end.

(** The end of a line: its newline, when it [ends_in_newline], and the end
    of the line after it.  Inside a quoted field the newline belongs to the
    field and the record goes on with the next line; everywhere else the
    record is complete. *)
Definition parse_process_end (p : csv_parser) (ends_in_newline : bool)
  : csv_parser :=
  match state p with
  | START_RECORD => p
  | IN_QUOTED_FIELD =>
      if ends_in_newline then parse_add_char p IN_QUOTED_FIELD newline else p
  | _ => parse_save_field p START_RECORD
  end.

(** The records of the lines of a file, each line with the flag that tells
    whether a newline ends it.  When the lines run out inside a quoted
    field, what was read is the last record. *)
Fixpoint csv_records (p : csv_parser) (lines : list (string * bool))
  : list (list string) :=
  match lines with
  | [] =>
      match state p with
      | IN_QUOTED_FIELD => [(fields p ++ [field p])%list]
      | _ => []
      end
  | (line, ends_in_newline) :: lines' =>
      let p := parse_process_end (parse_process_chars p line) ends_in_newline in
      match state p with
      | START_RECORD => fields p :: csv_records parse_reset lines'
      | _ => csv_records p lines'
      end
  end.

(** The lines of a text file opened with [open(path, 'r')], each without the
    line break that ends it: a newline, a carriage return or the two in a
    row.  [after_cr] tells that the character before was a carriage
    return. *)
Fixpoint readlines (s : string) (line : string) (after_cr : bool)
  : list (string * bool) :=
  match s with
  | EmptyString =>
      match line with EmptyString => [] | _ => [(line, false)] end
  | String c s' =>
      if Ascii.eqb c carriage_return then (line, true) :: readlines s' EmptyString true
      else if Ascii.eqb c newline then
        if after_cr then readlines s' EmptyString false
        else (line, true) :: readlines s' EmptyString false
      else readlines s' (line ++ String c EmptyString) false
  end.

(** The rows [csv.reader(f)] yields for a file holding [text]. *)
Definition csv_reader (text : string) : list (list string) :=
  csv_records parse_reset (readlines text EmptyString false).

(** The row of a file of the one line [line]. *)
Definition csv_row (line : string) : list string :=
  match csv_reader line with
  | row :: _ => row
  | [] => []
  end.

End pystr.

(** ** [keyboard_emulator.py] *)

Module KeyboardEmulator.

Local Open Scope string_scope.

Record t : Type := mk {
  available : bool;
  current_key : option string;
  note_to_key_map : gmap Z string
}.

(** [__init__]; [available] tells whether [import keyboard] succeeded. *)
Definition init (available : bool) : t :=
  {| available := available; current_key := None; note_to_key_map := ∅ |}.

(** The dict [notes] of [note_name_to_midi]. *)
Definition notes : list (string * Z) :=
  [("C", 0); ("C#", 1); ("Db", 1); ("D", 2); ("D#", 3); ("Eb", 3);
   ("E", 4); ("F", 5); ("F#", 6); ("Gb", 6); ("G", 7); ("G#", 8);
   ("Ab", 8); ("A", 9); ("A#", 10); ("Bb", 10); ("B", 11)].

Fixpoint notes_get (d : list (string * Z)) (note : string) : option Z :=
  match d with
  | [] => None
  | (k, v) :: d' => if String.eqb k note then Some v else notes_get d' note
  end.

Definition note_name_to_midi (note_name : string) : option Z :=
  if (String.length note_name <? 2)%nat then None
  else
    let second := String.get 1 note_name in
    if (3 <=? String.length note_name)%nat
       && (bool_decide (second = Some "#"%char) || bool_decide (second = Some "b"%char))
    then
      let note := pystr.take 2 note_name in
      match pystr.int (pystr.drop 2 note_name) with
      | None => None
      | Some octave =>
          match notes_get notes note with
          | Some pc => Some (pc + (octave + 1) * 12)
          | None => None
          end
      end
    else
      let note := pystr.take 1 note_name in
      match pystr.int (pystr.drop 1 note_name) with
      | None => None
      | Some octave =>
          match notes_get notes note with
          | Some pc => Some (pc + (octave + 1) * 12)
          | None => None
          end
      end.

(** The body of [for row in reader] in [load_mapping]. *)
Definition load_row (m : gmap Z string) (row : list string) : gmap Z string :=
  match row with
  | c0 :: c1 :: _ =>
      let note_name := pystr.strip c0 in
      let key := pystr.strip c1 in
      match note_name_to_midi note_name with
      | Some midi_note => <[midi_note := key]> m
      | None => m
      end
  | _ => m
  end.

(** [load_mapping].  [file] is [None] when [open] fails, and otherwise the
    rows [csv.reader] yields.  The result is the returned flag and the
    emulator afterwards. *)
Definition load_mapping (self : t) (file : option (list (list string))) : bool * t :=
  match file with
  | None =>
      (false, {| available := available self; current_key := current_key self;
                 note_to_key_map := ∅ |})
  | Some rows =>
      (true, {| available := available self; current_key := current_key self;
                note_to_key_map := fold_left load_row rows ∅ |})
  end.

(** [press_key]: the returned flag, the emulator afterwards and the calls
    made into the [keyboard] module. *)
Definition press_key (self : t) (midi_note : Z) : bool * t * list action :=
  if negb (available self) then (false, self, [])
  else
    match note_to_key_map self !! midi_note with
    | None => (false, self, [])
    | Some key =>
        (* Release previous key if different *)
        let released :=
          match current_key self with
          | Some k => if bool_decide (k ≠ key) then [keyboard_release k] else []
          | None => []
          end in
        (* Press new key *)
        if bool_decide (Some key ≠ current_key self) then
          (true,
           {| available := available self; current_key := Some key;
              note_to_key_map := note_to_key_map self |},
           (released ++ [keyboard_press key])%list)
        else (true, self, released)
    end.

Definition release_key (self : t) : t * list action :=
  if negb (available self) then (self, [])
  else
    match current_key self with
    | None => (self, [])
    | Some k =>
        ({| available := available self; current_key := None;
            note_to_key_map := note_to_key_map self |},
         [keyboard_release k])
    end.

(** The text [create_default_config] writes to [default_config.csv]: every
    line is written with a newline after it. *)
Definition create_default_config : string :=
  fold_right (fun line text => line ++ String "010" text) ""
    ["C4,a"; "D4,s"; "E4,d"; "F4,f"; "G4,g"; "A4,h"; "B4,j"; "C5,k";
     "# Format: [Note][Octave], [Key]";
     "# Example: C4, a (maps middle C to the 'a' key)"].

End KeyboardEmulator.

(** ** [keyboard_mode.py] *)

Module KeyboardModeWindow.

Record t : Type := mk {
  audio_processor : AudioProcessor.t;
  keyboard_emulator : KeyboardEmulator.t;
  current_note : option Z;
  running : bool
}.

Definition init (keyboard_available : bool) : t :=
  {| audio_processor := AudioProcessor.init AudioProcessor.default_stability_threshold;
     keyboard_emulator := KeyboardEmulator.init keyboard_available;
     current_note := None;
     running := false |}.

(** The state part of [start_processing]; nothing starts when the
    [keyboard] module is missing. *)
Definition start_processing (self : t) : t :=
  if negb (KeyboardEmulator.available (keyboard_emulator self)) then self
  else
    {| audio_processor := AudioProcessor.reset (audio_processor self);
       keyboard_emulator := keyboard_emulator self;
       current_note := None;
       running := true |}.

Definition update_stability (self : t) (value : Z) : t :=
  {| audio_processor := AudioProcessor.set_stability (audio_processor self) value;
     keyboard_emulator := keyboard_emulator self;
     current_note := current_note self;
     running := running self |}.

(** One pass of the body of [while self.running] in [process_audio]. *)
Definition process_audio_block (self : t) (freq amplitude : Q) : t * list action :=
  match AudioProcessor.process_audio_buffer (audio_processor self) freq amplitude with
  | Raises e =>
      ({| audio_processor := audio_processor self;
          keyboard_emulator := keyboard_emulator self;
          current_note := current_note self;
          running := false |},
       [status_signal (status_error e)])
  | Returns (result, ap) =>
      match AudioProcessor.is_valid result, AudioProcessor.midi_note result with
      | true, Some midi_note =>
          if AudioProcessor.is_new_note result then
            (* Press the corresponding key *)
            let '(key_pressed, ke, calls) :=
              KeyboardEmulator.press_key (keyboard_emulator self) midi_note in
            let status :=
              if key_pressed
              then status_note_key midi_note (KeyboardEmulator.current_key ke)
              else status_not_mapped midi_note in
            ({| audio_processor := ap;
                keyboard_emulator := ke;
                current_note := Some midi_note;
                running := running self |},
             calls ++ [status_signal status; note_detected_signal midi_note])
          else
            ({| audio_processor := ap;
                keyboard_emulator := keyboard_emulator self;
                current_note := current_note self;
                running := running self |}, [])
      | is_valid, _ =>
          match negb is_valid, current_note self with
          | true, Some _ =>
              (* If no valid signal, release key *)
              let '(ke, calls) := KeyboardEmulator.release_key (keyboard_emulator self) in
              ({| audio_processor := ap;
                  keyboard_emulator := ke;
                  current_note := None;
                  running := running self |},
               calls ++ [note_off_signal])
          | _, _ =>
              ({| audio_processor := ap;
                  keyboard_emulator := keyboard_emulator self;
                  current_note := current_note self;
                  running := running self |}, [])
          end
      end
  end.

Fixpoint process_audio (self : t) (blocks : list (Q * Q)) : t * list (list action) :=
  match blocks with
  | [] => (self, [])
  | (freq, amplitude) :: blocks' =>
      if running self then
        let '(self1, acts) := process_audio_block self freq amplitude in
        let '(self2, rest) := process_audio self1 blocks' in
        (self2, acts :: rest)
      else (self, [])
  end.

(** [stop_processing]: the pressed key is released. *)
Definition stop_processing (self : t) : t * list window_effect :=
  if running self then
    let '(ke, calls) := KeyboardEmulator.release_key (keyboard_emulator self) in
    ({| audio_processor := audio_processor self;
        keyboard_emulator := ke;
        current_note := current_note self;
        running := false |},
     map effect_action calls
       ++ [effect_clear_note_display; effect_status "Processing stopped."])
  else (self, []).

End KeyboardModeWindow.

(** ** The stability control of both windows *)

Module stability_slider.
(** [setMinimum(1)], [setMaximum(20)]: a [QSlider] only takes values
    between its minimum and its maximum. *)
Definition minimum : Z := 1.
Definition maximum : Z := 20.
Definition in_range (value : Z) : bool := (minimum <=? value) && (value <=? maximum).

(** [QSlider.setValue] bounds the value it is given to the range, and emits
    [valueChanged] with the bounded value when the value changes; every move
    of the slider by the user goes through it.  [init_ui] connects
    [valueChanged] to [update_stability].  A control is the value the slider
    shows and the window behind it. *)
Definition bound (value : Z) : Z := Z.max minimum (Z.min maximum value).

Definition setValue {W : Type} (update_stability : W -> Z -> W)
    (control : Z * W) (value : Z) : Z * W :=
  let value := bound value in
  if value =? fst control then control
  else (value, update_stability (snd control) value).

(** The controls as [init_ui] leaves them: the slider is set to the
    processor's [required_stability] before the signal is connected. *)
Definition midi_control : Z * MidiModeWindow.t :=
  (bound (AudioProcessor.required_stability
            (MidiModeWindow.audio_processor MidiModeWindow.init)),
   MidiModeWindow.init).

Definition keyboard_control (keyboard_available : bool)
  : Z * KeyboardModeWindow.t :=
  (bound (AudioProcessor.required_stability
            (KeyboardModeWindow.audio_processor
               (KeyboardModeWindow.init keyboard_available))),
   KeyboardModeWindow.init keyboard_available).

End stability_slider.

(** ** The prototype scripts *)

(** A pass of the loop of [stylomidi_basic.py] or [stylomidi_enhance.py]
    sends messages and then either goes on or ends the script with an
    exception: [mido.Message] raises [ValueError] outside the MIDI ranges,
    and the scripts catch [KeyboardInterrupt] only.  The calls to [print]
    are left out. *)
Module script.

Definition t (A : Type) : Type := (list Message * outcome A)%type.

Definition ret {A : Type} (a : A) : t A := ([], Returns a).

Definition raise {A : Type} (e : exn) : t A := ([], Raises e).

Definition bind {A B : Type} (m : t A) (f : A -> t B) : t B :=
  match m with
  | (msgs, Returns a) => let '(msgs', r) := f a in (msgs ++ msgs', r)
  | (msgs, Raises e) => (msgs, Raises e)
  end.

(** [midi_output.send(Message('note_off', note=note, channel=channel))]. *)
Definition send_note_off (note channel : Z) : t unit :=
  match MidiModeWindow.Message_note_off note channel with
  | Returns m => ([m], Returns tt)
  | Raises e => raise e
  end.

(** [midi_output.send(Message('note_on', note=note, velocity=velocity,
    channel=channel))]. *)
Definition send_note_on (note velocity channel : Z) : t unit :=
  match MidiModeWindow.Message_note_on note velocity channel with
  | Returns m => ([m], Returns tt)
  | Raises e => raise e
  end.

(** [while True] over the blocks read from the stream, [body] being one
    pass on the variables [vars] of the script. *)
Fixpoint loop {V : Type} (body : V -> Q -> Q -> t V) (vars : V)
    (blocks : list (Q * Q)) : t V :=
  match blocks with
  | [] => ret vars
  | (freq, amplitude) :: blocks' =>
      bind (body vars freq amplitude) (fun vars' => loop body vars' blocks')
  end.

End script.

Declare Scope script_scope.
Notation "m >>= f" := (script.bind m f)
  (at level 58, left associativity, only parsing) : script_scope.
Notation "m >> n" := (script.bind m (fun _ => n))
  (at level 58, left associativity, only parsing) : script_scope.
Delimit Scope script_scope with script.

(** *** [stylomidi_basic.py] *)

Module stylomidi_basic.

(** The script's [freq_to_midi] has the body of the method of
    [AudioProcessor]. *)
Definition freq_to_midi (freq : Q) : outcome (option Z) :=
  AudioProcessor.freq_to_midi freq.

(** One pass of the loop on the variable [current_note]. *)
Definition body (current_note : option Z) (freq amplitude : Q)
  : script.t (option Z) :=
  (if AudioProcessor.valid_signal freq amplitude then
     match freq_to_midi freq with
     | Raises e => script.raise e
     | Returns None => script.ret current_note
     | Returns (Some note) =>
         let note := AudioProcessor.round_int note in
         if bool_decide (Some note <> current_note) then
           match current_note with
           | Some c => script.send_note_off c 0
           | None => script.ret tt
           end
           >> script.send_note_on note 64 0
           >> script.ret (Some note)
         else script.ret current_note
     end
   else
     match current_note with
     | Some c => script.send_note_off c 0 >> script.ret None
     | None => script.ret current_note
     end)%script.

(** The script from its start. *)
Definition run (blocks : list (Q * Q)) : script.t (option Z) :=
  script.loop body None blocks.

End stylomidi_basic.

(** *** [stylomidi_enhance.py] *)

Module stylomidi_enhance.

(** The variables of the script. *)
Record t : Type := mk {
  note_history : list Z;          (* deque(maxlen=10), oldest first *)
  current_note : option Z;
  current_stable_note : option Z
}.

Definition maxlen : nat := 10.
Definition required_stability : Z := 5.

Definition init : t :=
  {| note_history := []; current_note := None; current_stable_note := None |}.

Definition freq_to_midi (freq : Q) : outcome (option Z) :=
  AudioProcessor.freq_to_midi freq.

(** One pass of the loop. *)
Definition body (vars : t) (freq amplitude : Q) : script.t t :=
  (if AudioProcessor.valid_signal freq amplitude then
     match freq_to_midi freq with
     | Raises e => script.raise e
     | Returns None => script.ret vars
     | Returns (Some note) =>
         let note := AudioProcessor.round_int note in
         (* Add to history *)
         let history := collections.deque_append maxlen (note_history vars) note in
         let vars1 :=
           {| note_history := history;
              current_note := current_note vars;
              current_stable_note := current_stable_note vars |} in
         if required_stability <=? Z.of_nat (length history) then
           match collections.most_common_1 (collections.Counter history) with
           | [] => script.raise IndexError
           | (most_common_note, count) :: _ =>
               if required_stability <=? count then
                 if bool_decide (Some most_common_note <> current_stable_note vars) then
                   match current_note vars with
                   | Some c => script.send_note_off c 0
                   | None => script.ret tt
                   end
                   >> script.send_note_on most_common_note 64 0
                   >> script.ret
                        {| note_history := history;
                           current_note := Some most_common_note;
                           current_stable_note := Some most_common_note |}
                 else script.ret vars1
               else script.ret vars1
           end
         else script.ret vars1
     end
   else
     (* If no valid signal, clear history and turn off current note *)
     match current_note vars with
     | Some c =>
         script.send_note_off c 0
         >> script.ret
              {| note_history := []; current_note := None;
                 current_stable_note := None |}
     | None =>
         script.ret
           {| note_history := []; current_note := None;
              current_stable_note := current_stable_note vars |}
     end)%script.

Definition run (blocks : list (Q * Q)) : script.t t :=
  script.loop body init blocks.

End stylomidi_enhance.

(** ** Vocabulary of the specification *)

(** The quantized classification of one block: what the silence gate and the
    quantizer of [process_audio_buffer] make of it. *)
Inductive NoteObservation : Type :=
| Silence
| Note (semitoneIndex : Z).

Definition classify (block : Q * Q) : NoteObservation :=
  let '(freq, amplitude) := block in
  if AudioProcessor.valid_signal freq amplitude
  then Note (AudioProcessor.int_semitone freq)
  else Silence.

(** Occurrences of a note in a window. *)
Definition count (x : Z) (h : list Z) : Z := Z.of_nat (count_occ Z.eq_dec h x).

(** The window after the notes [ns] were appended to the window [h]. *)
Definition window_after (h : list Z) (ns : list Z) : list Z :=
  fold_left (collections.deque_append AudioProcessor.maxlen) ns h.

(** The real value of [69 + 12 * log2 (f / 440)], truncation toward zero
    (Python's [int] on a float) and nearest integers. *)
Definition log2R (x : R) : R := (ln x / ln 2)%R.

Definition semitone_real (f : R) : R := (69 + 12 * log2R (f / 440))%R.

Definition is_trunc (x : R) (z : Z) : Prop :=
  ((0 <= x -> IZR z <= x < IZR z + 1) /\ (x <= 0 -> IZR z - 1 < x <= IZR z))%R.

Definition is_nearest (x : R) (z : Z) : Prop := (Rabs (x - IZR z) <= 1 / 2)%R.

(** The sessions used as concrete inputs: the MIDI window as constructed
    ([required_stability = 5]), started, on channel 0. *)
Definition session : MidiModeWindow.t :=
  MidiModeWindow.start_processing MidiModeWindow.init.

(** A block of amplitude 0.1 at an integral frequency. *)
Definition tone (hz : Z) : Q * Q := (hz # 1, 1 # 10).

(** A block of digital silence. *)
Definition quiet : Q * Q := (0 # 1, 0 # 1).

(** The note of a block past the silence gate. *)
Definition block_note (block : Q * Q) : Z := AudioProcessor.int_semitone (fst block).

(** The MIDI loop after [j] consecutive blocks of the note [n] since the
    start of a session whose stability is [r]: the window holds the note
    only, and the note is declared and on from the [r]-th block. *)
Definition tracking (n r : Z) (j : nat) : MidiModeWindow.t :=
  {| MidiModeWindow.audio_processor :=
       {| AudioProcessor.note_history := repeat n (Nat.min j AudioProcessor.maxlen);
          AudioProcessor.required_stability := r;
          AudioProcessor.current_note := None;
          AudioProcessor.current_stable_note :=
            if Z.of_nat j <? r then None else Some n |};
     MidiModeWindow.current_note := if Z.of_nat j <? r then None else Some n;
     MidiModeWindow.running := true |}.

(** The processor after a sequence of blocks. *)
Definition feed (self : AudioProcessor.t) (blocks : list (Q * Q)) : AudioProcessor.t :=
  fold_left
    (fun self block =>
       match AudioProcessor.process_audio_buffer self (fst block) (snd block) with
       | Returns (_, self') => self'
       | Raises _ => self
       end)
    blocks self.

(** Twelve blocks alternating between the notes 60 and 62. *)
Definition alternation : list (Q * Q) :=
  [tone 270; tone 300; tone 270; tone 300; tone 270; tone 300;
   tone 270; tone 300; tone 270; tone 300; tone 270; tone 300].

(** A session whose stability was set to 6 before it started, and five
    blocks alternating between the notes 62 and 64: in a window of ten
    notes an alternation never shows six of either. *)
Definition session_6 : MidiModeWindow.t :=
  MidiModeWindow.start_processing
    (MidiModeWindow.update_stability MidiModeWindow.init 6).

Definition jitter : list (Q * Q) :=
  [tone 300; tone 340; tone 300; tone 340; tone 300].

(** The MIDI loop once five blocks of the note 60 declared it stable. *)
Definition holding_60 : MidiModeWindow.t :=
  fst (MidiModeWindow.process_audio 0 session (repeat (tone 270) 5)).

(** Six blocks of six other notes (61 to 66), then four blocks of 60. *)
Definition wobble : list (Q * Q) :=
  [tone 285; tone 300; tone 320; tone 340; tone 360; tone 380;
   tone 270; tone 270; tone 270; tone 270].

(** Five blocks of the note 60, then one block each of the notes 61 to 66:
    at the last one only four of the ten notes in the window are 60. *)
Definition drift : list (Q * Q) :=
  repeat (tone 270) 5
  ++ [tone 285; tone 300; tone 320; tone 340; tone 360; tone 380].

(** The keyboard window with the mapping file of one row [C4,a], started. *)
Definition keyboard_session : KeyboardModeWindow.t :=
  let w := KeyboardModeWindow.init true in
  KeyboardModeWindow.start_processing
    {| KeyboardModeWindow.audio_processor := KeyboardModeWindow.audio_processor w;
       KeyboardModeWindow.keyboard_emulator :=
         snd (KeyboardEmulator.load_mapping
                (KeyboardModeWindow.keyboard_emulator w)
                (Some [pystr.csv_row "C4,a"]));
       KeyboardModeWindow.current_note := KeyboardModeWindow.current_note w;
       KeyboardModeWindow.running := KeyboardModeWindow.running w |}.

(** Calls made to a keyboard emulator, and the keys the [keyboard] module
    holds down: [press] adds a key, [release] removes it.  Each value of the
    mapping counts as one key. *)
Inductive emulator_call : Type :=
| call_press_key (midi_note : Z)
| call_release_key
| call_load_mapping (file : option (list (list string))).

Fixpoint held_after (held : gset string) (calls : list action) : gset string :=
  match calls with
  | [] => held
  | keyboard_press key :: calls' => held_after ({[key]} ∪ held) calls'
  | keyboard_release key :: calls' => held_after (held ∖ {[key]}) calls'
  | _ :: calls' => held_after held calls'
  end.

Definition emulator_step (state : KeyboardEmulator.t * gset string)
    (call : emulator_call) : KeyboardEmulator.t * gset string :=
  let '(self, held) := state in
  match call with
  | call_press_key midi_note =>
      let '(_, self', calls) := KeyboardEmulator.press_key self midi_note in
      (self', held_after held calls)
  | call_release_key =>
      let '(self', calls) := KeyboardEmulator.release_key self in
      (self', held_after held calls)
  | call_load_mapping file =>
      (snd (KeyboardEmulator.load_mapping self file), held)
  end.

(** The keys held according to the emulator's own record. *)
Definition recorded_key (self : KeyboardEmulator.t) : gset string :=
  match KeyboardEmulator.current_key self with
  | Some key => {[key]}
  | None => ∅
  end.

(** The notes a MIDI receiver holds on, as pairs of channel and note, after
    a sequence of messages. *)
Definition receive (sounding : gset (Z * Z)) (m : Message) : gset (Z * Z) :=
  match m with
  | note_on note _ channel => {[(channel, note)]} ∪ sounding
  | note_off note channel => sounding ∖ {[(channel, note)]}
  end.

Definition sounding_after (sounding : gset (Z * Z)) (msgs : list Message)
  : gset (Z * Z) :=
  fold_left receive msgs sounding.

(** At no point of the sequence are two notes on. *)
Fixpoint never_two_on (sounding : gset (Z * Z)) (msgs : list Message) : Prop :=
  (size sounding <= 1)%nat
  /\ match msgs with
     | [] => True
     | m :: msgs' => never_two_on (receive sounding m) msgs'
     end.

(** All the messages of a run, in order. *)
Definition run_messages (passes : list (list action)) : list Message :=
  sent (concat passes).

(** The loop's record of the note it has on agrees with the receiver: no
    note on record and none on, or a valid note on record that is the one
    note on while the loop runs, and none on once the loop has stopped on
    an error. *)
Definition midi_consistent (midi_channel : Z) (w : MidiModeWindow.t)
    (sounding : gset (Z * Z)) : Prop :=
  match MidiModeWindow.current_note w with
  | None => sounding = ∅
  | Some c =>
      MidiModeWindow.data_byte c && MidiModeWindow.channel_ok midi_channel = true
      /\ (if MidiModeWindow.running w
          then sounding = {[(midi_channel, c)]}
          else sounding = ∅)
  end.

(** The notes on at a receiver that agrees with a script's [current_note]
    on channel 0. *)
Definition sounding_of (current_note : option Z) : gset (Z * Z) :=
  match current_note with
  | Some c => {[(0, c)]}
  | None => ∅
  end.

(** A pass of a script, from the variables [vars] whose current note is
    [cur vars], keeps at most one note on at a receiver that agrees with
    the script, and leaves the receiver in agreement when it completes. *)
Definition pass_keeps_one_note {V : Type} (cur : V -> option Z)
    (vars : V) (pass : script.t V) : Prop :=
  never_two_on (sounding_of (cur vars)) (fst pass)
  /\ match snd pass with
     | Returns vars' =>
         sounding_after (sounding_of (cur vars)) (fst pass) = sounding_of (cur vars')
     | Raises _ => True
     end.

(** What the filter of [stylomidi_enhance.py] holds is what an
    [AudioProcessor] of stability 5 holds, the script's current note is its
    stable note, and a current note is a MIDI data byte. *)
Definition enhance_agrees (vars : stylomidi_enhance.t) (ap : AudioProcessor.t)
  : Prop :=
  AudioProcessor.note_history ap = stylomidi_enhance.note_history vars
  /\ AudioProcessor.current_stable_note ap
     = stylomidi_enhance.current_stable_note vars
  /\ AudioProcessor.required_stability ap = stylomidi_enhance.required_stability
  /\ stylomidi_enhance.current_note vars
     = stylomidi_enhance.current_stable_note vars
  /\ forall c, stylomidi_enhance.current_note vars = Some c ->
               MidiModeWindow.data_byte c = true.

(** What a row of a mapping file contributes to the mapping, if anything:
    the note its first column names and the key of its second column. *)
Definition row_entry (row : list string) : option (Z * string) :=
  match row with
  | c0 :: c1 :: _ =>
      match KeyboardEmulator.note_name_to_midi (pystr.strip c0) with
      | Some midi_note => Some (midi_note, pystr.strip c1)
      | None => None
      end
  | _ => None
  end.

(** No row of [rows] names the note [n]. *)
Definition unnamed_in (n : Z) (rows : list (list string)) : Prop :=
  Forall (fun row => forall key, row_entry row <> Some (n, key)) rows.

(** The last [k] elements of a list, all of it when it is shorter. *)
Definition recent (k : nat) (l : list Z) : list Z := drop (length l - k) l.

(** The calls a window makes to its [AudioProcessor]. *)
Inductive processor_call : Type :=
| call_process_audio_buffer (freq amplitude : Q)
| call_set_stability (value : Z)
| call_reset.

Definition processor_step (self : AudioProcessor.t) (call : processor_call)
  : AudioProcessor.t :=
  match call with
  | call_process_audio_buffer freq amplitude => feed self [(freq, amplitude)]
  | call_set_stability value => AudioProcessor.set_stability self value
  | call_reset => AudioProcessor.reset self
  end.

(* ================================================================== *)
(** * Properties *)

(** ** The counter and the majority note *)

Section Counter.

Import collections.

Lemma get_counter_incr x y c :
  get x (counter_incr y c)
  = if x =? y then Some (default 0 (get x c) + 1) else get x c.
Proof.
  induction c as [|[k v] c IH]; simpl.
  - rewrite (Z.eqb_sym y x). destruct (x =? y); reflexivity.
  - destruct (k =? y) eqn:Eky; simpl.
    + apply Z.eqb_eq in Eky. subst k.
      rewrite (Z.eqb_sym y x). destruct (x =? y); reflexivity.
    + destruct (k =? x) eqn:Ekx.
      * apply Z.eqb_eq in Ekx. subst k.
        rewrite Eky. reflexivity.
      * exact IH.
Qed.

Lemma count_nonneg x h : 0 <= count x h.
Proof. unfold count. lia. Qed.

Lemma count_le_length x h : count x h <= Z.of_nat (length h).
Proof. unfold count. pose proof (count_occ_bound Z.eq_dec x h). lia. Qed.

Lemma count_pos_In x h : 0 < count x h <-> In x h.
Proof.
  unfold count. rewrite (count_occ_In Z.eq_dec). lia.
Qed.

(** A counter built on top of [c] stores, for every key, the count it had
    plus the occurrences in the list. *)
Lemma get_fold_counter x l c :
  default 0 (get x (fold_left (fun c x => counter_incr x c) l c))
  = default 0 (get x c) + count x l
  /\ (get x (fold_left (fun c x => counter_incr x c) l c) = None
      <-> get x c = None /\ count x l = 0).
Proof.
  revert c. induction l as [|y l IH]; intros c; simpl.
  - unfold count; simpl. split; [lia | tauto].
  - destruct (IH (counter_incr y c)) as [IH1 IH2].
    rewrite IH1, IH2, get_counter_incr.
    change (y :: l) with ([y] ++ l). unfold count. rewrite count_occ_app. simpl.
    pose proof (count_nonneg x l) as Hl. unfold count in Hl.
    destruct (Z.eq_dec y x) as [->|Hne].
    + rewrite Z.eqb_refl. simpl. split; [lia|].
      split; [intros [? _]; discriminate | intros [_ ?]; lia].
    + destruct (x =? y) eqn:E; [apply Z.eqb_eq in E; congruence|].
      split; [lia | tauto].
Qed.

Lemma get_Counter x h :
  get x (Counter h) = if count x h =? 0 then None else Some (count x h).
Proof.
  destruct (get_fold_counter x h []) as [H1 H2]. fold (Counter h) in H1, H2.
  simpl in H1, H2.
  destruct (count x h =? 0) eqn:E.
  - apply Z.eqb_eq in E. apply H2. auto.
  - apply Z.eqb_neq in E.
    destruct (get x (Counter h)) as [v|] eqn:G.
    + f_equal. cbn in H1. lia.
    + exfalso. apply E. apply H2. reflexivity.
Qed.

Lemma keys_counter_incr y c :
  NoDup (map fst c) -> NoDup (map fst (counter_incr y c))
  /\ (forall k, k ∈ map fst (counter_incr y c) <-> k = y \/ k ∈ map fst c).
Proof.
  induction c as [|[k v] c IH]; simpl; intros Hnd.
  - split; [apply NoDup_singleton | intros k; rewrite elem_of_cons, elem_of_nil; tauto].
  - apply NoDup_cons in Hnd as [Hk Hc].
    destruct (k =? y) eqn:E; simpl.
    + apply Z.eqb_eq in E. subst k.
      split; [apply NoDup_cons; tauto | intros k; rewrite elem_of_cons; tauto].
    + destruct (IH Hc) as [IH1 IH2].
      apply Z.eqb_neq in E.
      split.
      * apply NoDup_cons. split; [|assumption]. rewrite IH2. intros [->|?]; tauto.
      * intros k'. rewrite !elem_of_cons, IH2. tauto.
Qed.

Lemma NoDup_keys_Counter h : NoDup (map fst (Counter h)).
Proof.
  unfold Counter.
  assert (G : forall c, NoDup (map fst c) ->
              NoDup (map fst (fold_left (fun c x => counter_incr x c) h c))).
  { induction h as [|y h IH]; intros c Hc; simpl; [assumption|].
    apply IH. apply keys_counter_incr. assumption. }
  apply G. apply NoDup_nil_2.
Qed.

Lemma In_get k v c : NoDup (map fst c) -> In (k, v) c -> get k c = Some v.
Proof.
  induction c as [|[k' v'] c IH]; simpl; intros Hnd Hin; [destruct Hin|].
  destruct Hin as [Heq|Hin].
  - inversion Heq; subst. rewrite Z.eqb_refl. reflexivity.
  - apply NoDup_cons in Hnd as [Hk Hc].
    destruct (k' =? k) eqn:E.
    + apply Z.eqb_eq in E. subst k'. exfalso. apply Hk.
      apply list_elem_of_In. change k with (fst (k, v)). apply in_map. assumption.
    + apply IH; assumption.
Qed.

Lemma get_In k v c : get k c = Some v -> In (k, v) c.
Proof.
  induction c as [|[k' v'] c IH]; simpl; [discriminate|].
  destruct (k' =? k) eqn:E.
  - apply Z.eqb_eq in E. subst k'. intros [= ->]. left. reflexivity.
  - intros H. right. apply IH. assumption.
Qed.

Lemma max_by_count_spec best c :
  In (max_by_count best c) (best :: c)
  /\ forall kv, In kv (best :: c) -> snd kv <= snd (max_by_count best c).
Proof.
  revert best. induction c as [|kv c IH]; intros best; simpl.
  - split; [tauto | intros ? [<-|[]]; lia].
  - destruct (IH (if snd best <? snd kv then kv else best)) as [IH1 IH2].
    split.
    + destruct IH1 as [IH1|IH1]; [|tauto].
      rewrite <- IH1. destruct (snd best <? snd kv); tauto.
    + intros kv' Hin.
      pose proof (IH2 (if snd best <? snd kv then kv else best) (or_introl eq_refl)) as Hb.
      destruct (snd best <? snd kv) eqn:E;
        [apply Z.ltb_lt in E | apply Z.ltb_ge in E].
      * destruct Hin as [<-|[<-|Hin]]; [lia | lia | apply IH2; right; exact Hin].
      * destruct Hin as [<-|[<-|Hin]]; [lia | lia | apply IH2; right; exact Hin].
Qed.

(** What [Counter(h).most_common(1)] holds for a non-empty window: one
    pair, a note of the window with its number of occurrences, which no
    other note exceeds. *)
Lemma most_common_1_Counter h :
  h <> [] ->
  exists m, most_common_1 (Counter h) = [(m, count m h)]
            /\ In m h /\ forall y, count y h <= count m h.
Proof.
  intros Hne.
  destruct (Counter h) as [|kv c] eqn:EC.
  - exfalso. destruct h as [|x h]; [congruence|].
    pose proof (get_Counter x (x :: h)) as G. rewrite EC in G. simpl in G.
    assert (0 < count x (x :: h)) by (apply count_pos_In; left; reflexivity).
    destruct (count x (x :: h) =? 0) eqn:E; [apply Z.eqb_eq in E; lia | discriminate].
  - simpl. destruct (max_by_count_spec kv c) as [Hin Hmax].
    destruct (max_by_count kv c) as [m v] eqn:EM.
    rewrite <- EC in Hin.
    pose proof (In_get m v _ (NoDup_keys_Counter h) Hin) as G.
    rewrite get_Counter in G.
    destruct (count m h =? 0) eqn:E; [discriminate|]. apply Z.eqb_neq in E.
    injection G as <-.
    exists m. split; [reflexivity|]. split.
    + apply count_pos_In. pose proof (count_nonneg m h). lia.
    + intros y. destruct (Z.eq_dec (count y h) 0) as [->|Hy]; [apply count_nonneg|].
      assert (Gy : get y (Counter h) = Some (count y h)).
      { rewrite get_Counter. apply Z.eqb_neq in Hy. rewrite Hy. reflexivity. }
      apply get_In in Gy. rewrite EC in Gy.
      apply (Hmax (y, count y h)) in Gy. exact Gy.
Qed.

End Counter.

(** ** One block through [process_audio_buffer] *)

Section Filter.

Import AudioProcessor.

Lemma Qgt_bool_true x y : Qgt_bool x y = true <-> (y < x)%Q.
Proof.
  unfold Qgt_bool. rewrite negb_true_iff.
  split.
  - intros H. apply Qnot_le_lt. intros Hle. apply Qle_bool_iff in Hle. congruence.
  - intros H. destruct (Qle_bool x y) eqn:E; [|reflexivity].
    apply Qle_bool_iff in E. exfalso. exact (Qlt_not_le _ _ H E).
Qed.

Lemma valid_signal_true f a :
  valid_signal f a = true
  <-> (silence_amplitude_floor < a)%Q /\ (silence_frequency_floor < f)%Q.
Proof.
  unfold valid_signal. rewrite andb_true_iff, !Qgt_bool_true. tauto.
Qed.

(** Past the silence gate the frequency is positive, and [freq_to_midi]
    returns a note. *)
Lemma valid_signal_freq_to_midi f a :
  valid_signal f a = true -> freq_to_midi f = Returns (Some (int_semitone f)).
Proof.
  intros H. apply valid_signal_true in H as [_ Hf].
  assert (Hpos : (0 < f)%Q).
  { apply Qlt_trans with silence_frequency_floor; [reflexivity | exact Hf]. }
  unfold freq_to_midi.
  destruct (Qeq_bool f 0) eqn:E0.
  - apply Qeq_bool_iff in E0. rewrite E0 in Hpos. discriminate.
  - destruct (Qle_bool f 0) eqn:E1; [|reflexivity].
    apply Qle_bool_iff in E1. exfalso. exact (Qlt_not_le _ _ Hpos E1).
Qed.

Lemma deque_append_not_nil n d x : collections.deque_append n d x <> [].
Proof.
  unfold collections.deque_append.
  destruct (n <=? length d)%nat; intros H; apply app_eq_nil in H as [_ H]; discriminate.
Qed.

(** A block at or below a silence floor: the window is cleared, the stable
    note forgotten, and the result is not valid. *)
Lemma process_audio_buffer_silence self f a :
  valid_signal f a = false ->
  process_audio_buffer self f a
  = Returns
      ({| is_valid := false; midi_note := None; is_new_note := false;
          freq := f; amplitude := a |},
       {| note_history := [];
          required_stability := required_stability self;
          current_note := current_note self;
          current_stable_note := None |}).
Proof. intros H. unfold process_audio_buffer. rewrite H. reflexivity. Qed.

(** A block past the silence gate: its note [n] enters the window, and the
    majority note [m] of the new window decides. *)
Lemma process_audio_buffer_note self f a :
  valid_signal f a = true ->
  let h := collections.deque_append maxlen (note_history self) (int_semitone f) in
  exists m,
    In m h /\ (forall y, count y h <= count m h)
    /\ process_audio_buffer self f a
       = Returns
           (if required_stability self <=? count m h then
              ({| is_valid := true; midi_note := Some m;
                  is_new_note := negb (bool_decide (Some m = current_stable_note self));
                  freq := f; amplitude := a |},
               {| note_history := h;
                  required_stability := required_stability self;
                  current_note := current_note self;
                  current_stable_note := Some m |})
            else
              ({| is_valid := false; midi_note := None; is_new_note := false;
                  freq := f; amplitude := a |},
               {| note_history := h;
                  required_stability := required_stability self;
                  current_note := current_note self;
                  current_stable_note := current_stable_note self |})).
Proof.
  intros Hv h.
  destruct (most_common_1_Counter h (deque_append_not_nil _ _ _)) as (m & Hmc & Hin & Hmax).
  exists m. split; [exact Hin|]. split; [exact Hmax|].
  unfold process_audio_buffer.
  rewrite Hv, (valid_signal_freq_to_midi _ _ Hv). unfold round_int. fold h.
  rewrite Hmc.
  pose proof (count_le_length m h) as Hlen.
  destruct (required_stability self <=? count m h) eqn:Ec.
  - apply Z.leb_le in Ec.
    assert (El : (required_stability self <=? Z.of_nat (length h)) = true)
      by (apply Z.leb_le; lia).
    rewrite El.
    destruct (bool_decide (Some m = current_stable_note self)) eqn:Es; simpl.
    + apply bool_decide_eq_true in Es. rewrite <- Es. reflexivity.
    + reflexivity.
  - destruct (required_stability self <=? Z.of_nat (length h)); reflexivity.
Qed.

(** [process_audio_buffer] never raises. *)
Lemma process_audio_buffer_returns self f a :
  exists result self', process_audio_buffer self f a = Returns (result, self').
Proof.
  destruct (valid_signal f a) eqn:Hv.
  - destruct (process_audio_buffer_note self f a Hv) as (m & _ & _ & ->).
    destruct (required_stability self <=? _); eauto.
  - rewrite (process_audio_buffer_silence _ _ _ Hv). eauto.
Qed.

End Filter.

(** ** One block through the MIDI loop *)

Section MidiBlock.

Import AudioProcessor MidiModeWindow.

Lemma events_app xs ys : events (xs ++ ys) = events xs ++ events ys.
Proof.
  induction xs as [|x xs IH]; simpl; [reflexivity|].
  destruct x; simpl; rewrite ?IH; reflexivity.
Qed.

(** The events of one pass: none, or one note change away from the stable
    note the filter held, or one note-off while the loop had a note on. *)
Lemma process_audio_block_events midi_channel self f a :
  let acts := snd (process_audio_block midi_channel self f a) in
  events acts = []
  \/ (exists n, events acts = [note_changed n]
                /\ valid_signal f a = true
                /\ Some n <> current_stable_note (audio_processor self))
  \/ (events acts = [note_cleared] /\ current_note self <> None).
Proof.
  unfold process_audio_block.
  destruct (valid_signal f a) eqn:Hv.
  - destruct (process_audio_buffer_note (audio_processor self) f a Hv)
      as (m & _ & _ & ->).
    destruct (required_stability (audio_processor self) <=? _); simpl.
    + destruct (bool_decide (Some m = current_stable_note (audio_processor self))) eqn:Es;
        simpl; [left; reflexivity|].
      apply bool_decide_eq_false in Es.
      unfold Message_note_off, Message_note_on.
      destruct (current_note self) as [c|]; simpl.
      * destruct (data_byte c && channel_ok midi_channel); simpl; [|left; reflexivity].
        destruct (data_byte m && data_byte 64 && channel_ok midi_channel); simpl;
          [|left; reflexivity].
        right. left. exists m. auto.
      * destruct (data_byte m && data_byte 64 && channel_ok midi_channel); simpl;
          [|left; reflexivity].
        right. left. exists m. auto.
    + unfold Message_note_off.
      destruct (current_note self) as [c|]; simpl; [|left; reflexivity].
      destruct (data_byte c && channel_ok midi_channel); simpl; [|left; reflexivity].
      right. right. split; [reflexivity | discriminate].
  - rewrite (process_audio_buffer_silence _ _ _ Hv). simpl.
    unfold Message_note_off.
    destruct (current_note self) as [c|]; simpl; [|left; reflexivity].
    destruct (data_byte c && channel_ok midi_channel); simpl; [|left; reflexivity].
    right. right. split; [reflexivity | discriminate].
Qed.

(** The [i]-th pass of a run is the pass made on the [i]-th block from the
    state the earlier blocks led to. *)
Lemma process_audio_lookup midi_channel blocks :
  forall self i acts,
    snd (process_audio midi_channel self blocks) !! i = Some acts ->
    exists f a,
      blocks !! i = Some (f, a)
      /\ acts = snd (process_audio_block midi_channel
                       (fst (process_audio midi_channel self (take i blocks))) f a).
Proof.
  induction blocks as [|[f a] blocks IH]; intros self i acts; simpl.
  - destruct i; discriminate.
  - destruct (running self) eqn:Hr; [|destruct i; discriminate].
    destruct (process_audio_block midi_channel self f a) as [self1 acts1] eqn:E1.
    destruct (process_audio midi_channel self1 blocks) as [self2 rest] eqn:E2.
    destruct i as [|i]; simpl.
    + intros [= <-]. exists f, a. rewrite E1. auto.
    + intros Hi. rewrite Hr, E1.
      replace rest with (snd (process_audio midi_channel self1 blocks)) in Hi
        by (rewrite E2; reflexivity).
      destruct (IH self1 i acts Hi) as (f' & a' & Hb & Ha).
      exists f', a'. split; [exact Hb|].
      destruct (process_audio midi_channel self1 (take i blocks)) as [s r] eqn:E3.
      simpl in *. exact Ha.
Qed.

End MidiBlock.

(** ** A sustained note *)

Section Sustained.

Import AudioProcessor MidiModeWindow.

Lemma classify_Note block n :
  classify block = Note n
  <-> valid_signal (fst block) (snd block) = true /\ block_note block = n.
Proof.
  destruct block as [f a]. unfold classify, block_note. simpl.
  destruct (valid_signal f a).
  - split; [intros [= <-]; auto | intros [_ <-]; reflexivity].
  - split; [discriminate | intros [? _]; discriminate].
Qed.

Lemma classify_Silence block :
  classify block = Silence <-> valid_signal (fst block) (snd block) = false.
Proof.
  destruct block as [f a]. unfold classify. simpl.
  destruct (valid_signal f a); split; congruence.
Qed.

Lemma count_repeat n k : count n (repeat n k) = Z.of_nat k.
Proof.
  unfold count. induction k as [|k IH]; simpl; [reflexivity|].
  destruct (Z.eq_dec n n); [lia | congruence].
Qed.

Lemma repeat_snoc (x : Z) k : repeat x k ++ [x] = repeat x (S k).
Proof. induction k as [|k IH]; simpl; [reflexivity | rewrite IH; reflexivity]. Qed.

Lemma deque_append_repeat n j :
  collections.deque_append maxlen (repeat n (Nat.min j maxlen)) n
  = repeat n (Nat.min (S j) maxlen).
Proof.
  unfold collections.deque_append. rewrite repeat_length.
  destruct (maxlen <=? Nat.min j maxlen)%nat eqn:E.
  - apply Nat.leb_le in E.
    replace (Nat.min j maxlen) with maxlen by lia.
    replace (Nat.min (S j) maxlen) with maxlen by lia.
    reflexivity.
  - apply Nat.leb_gt in E.
    replace (Nat.min (S j) maxlen) with (S (Nat.min j maxlen)) by lia.
    apply repeat_snoc.
Qed.

Variables (n r midi_channel : Z).
Hypothesis r_range : 1 <= r <= Z.of_nat maxlen.
Hypothesis n_range : 0 <= n <= 127.
Hypothesis channel_range : 0 <= midi_channel <= 15.

(** One more block of the note [n]. *)
Lemma tracking_block j f a :
  valid_signal f a = true -> int_semitone f = n ->
  process_audio_block midi_channel (tracking n r j) f a
  = (tracking n r (S j),
     if Z.of_nat (S j) =? r
     then [midi_output_send (note_on n 64 midi_channel);
           status_signal (status_note n); note_detected_signal n]
     else []).
Proof.
  intros Hv Hn. unfold process_audio_block.
  destruct (process_audio_buffer_note (audio_processor (tracking n r j)) f a Hv)
    as (m & Hin & _ & ->).
  unfold tracking in Hin |- *.
  cbn [audio_processor note_history required_stability current_stable_note] in Hin |- *.
  rewrite Hn, deque_append_repeat in Hin |- *.
  apply repeat_spec in Hin. subst m. rewrite count_repeat.
  assert (Hd : data_byte n && data_byte 64 && channel_ok midi_channel = true).
  { unfold data_byte, channel_ok. rewrite !andb_true_iff, !Z.leb_le. lia. }
  assert (Hd' : data_byte n && channel_ok midi_channel = true).
  { unfold data_byte, channel_ok. rewrite !andb_true_iff, !Z.leb_le. lia. }
  set (mn := Nat.min (S j) maxlen) in *.
  assert (Hmn : Z.of_nat mn = Z.min (Z.of_nat j + 1) 10) by (subst mn; unfold maxlen; lia).
  clearbody mn.
  set (sj := Z.of_nat (S j)).
  assert (Hsj : sj = Z.of_nat j + 1) by (subst sj; lia).
  clearbody sj.
  cbn [audio_processor current_note running required_stability current_stable_note
       note_history AudioProcessor.current_note].
  unfold maxlen in r_range.
  destruct (Z.leb_spec r (Z.of_nat mn)), (Z.ltb_spec (Z.of_nat j) r),
    (Z.ltb_spec sj r), (Z.eqb_spec sj r); try lia;
    rewrite ?(bool_decide_eq_true_2 _ eq_refl);
    rewrite ?bool_decide_eq_false_2 by discriminate;
    cbn; unfold Message_note_on; rewrite ?Hd; reflexivity.
Qed.

Lemma tracking_run blocks :
  forall j,
    Forall (fun block => classify block = Note n) blocks ->
    process_audio midi_channel (tracking n r j) blocks
    = (tracking n r (j + length blocks),
       map (fun i => if Z.of_nat i =? r
                     then [midi_output_send (note_on n 64 midi_channel);
                           status_signal (status_note n); note_detected_signal n]
                     else [])
           (seq (S j) (length blocks))).
Proof.
  induction blocks as [|[f a] blocks IH]; intros j Hall.
  - simpl. rewrite Nat.add_0_r. reflexivity.
  - apply Forall_cons in Hall as [Hb Hall].
    apply classify_Note in Hb as [Hv Hn]. simpl in Hv. unfold block_note in Hn. simpl in Hn.
    cbn [process_audio]. change (running (tracking n r j)) with true. cbv iota.
    rewrite (tracking_block j f a Hv Hn), (IH (S j) Hall).
    cbn [length seq map]. rewrite Nat.add_succ_r. reflexivity.
Qed.

End Sustained.

(** ** Claims on the stream of events *)

Section Events.

Import AudioProcessor MidiModeWindow.

Lemma concat_map_at (e : list event) r L :
  forall s,
    concat (map (fun i => if Z.of_nat i =? r then e else []) (seq s L))
    = if (Z.of_nat s <=? r) && (r <? Z.of_nat (s + L)) then e else [].
Proof.
  induction L as [|L IH]; intros s.
  - simpl. rewrite Nat.add_0_r.
    destruct (Z.leb_spec (Z.of_nat s) r), (Z.ltb_spec r (Z.of_nat s)); simpl;
      try reflexivity; lia.
  - cbn [seq map concat]. rewrite IH.
    destruct (Z.eqb_spec (Z.of_nat s) r), (Z.leb_spec (Z.of_nat s) r),
      (Z.leb_spec (Z.of_nat (S s)) r), (Z.ltb_spec r (Z.of_nat (S s + L))),
      (Z.ltb_spec r (Z.of_nat (s + S L))); cbn [andb app];
      rewrite ?app_nil_r; try reflexivity; lia.
Qed.

Lemma map_events_map (g : nat -> list action) l :
  map events (map g l) = map (fun i => events (g i)) l.
Proof. apply map_map. Qed.

End Events.

(** C3.  Starting from the reset filter, with [required_stability = r] in
    [1, 10], a run of blocks that all observe the same note [n] (a valid
    MIDI note such as 60, on a valid channel) emits "note changed(n)" on
    the [r]-th block, the block at which the count of [n] first reaches
    [r], and nothing on any other block: exactly one event in all once [r]
    blocks were fed, however long the note persists. *)
Theorem sustained_note_one_event (w : MidiModeWindow.t) (n r midi_channel : Z)
    (blocks : list (Q * Q)) :
  1 <= r <= Z.of_nat AudioProcessor.maxlen ->
  0 <= n <= 127 ->
  0 <= midi_channel <= 15 ->
  Forall (fun block => classify block = Note n) blocks ->
  let run :=
    snd (MidiModeWindow.process_audio midi_channel
           (MidiModeWindow.start_processing (MidiModeWindow.update_stability w r))
           blocks) in
  map events run
  = map (fun i => if Z.of_nat i =? r then [note_changed n] else [])
        (seq 1 (length blocks))
  /\ (r <= Z.of_nat (length blocks) -> concat (map events run) = [note_changed n]).
Proof.
  intros Hr Hn Hc Hall run.
  assert (Hstart :
            MidiModeWindow.start_processing (MidiModeWindow.update_stability w r)
            = tracking n r 0).
  { unfold MidiModeWindow.start_processing, MidiModeWindow.update_stability,
      AudioProcessor.reset, AudioProcessor.set_stability, tracking.
    cbn [MidiModeWindow.audio_processor AudioProcessor.required_stability Nat.min repeat].
    replace (Z.of_nat 0 <? r) with true by (symmetry; apply Z.ltb_lt; lia).
    reflexivity. }
  assert (Hrun :
            map events run
            = map (fun i => if Z.of_nat i =? r then [note_changed n] else [])
                (seq 1 (length blocks))).
  { subst run. rewrite Hstart, (tracking_run n r midi_channel Hr Hn Hc blocks 0 Hall).
    cbn [snd]. rewrite map_events_map. apply map_ext.
    intros i. destruct (Z.of_nat i =? r); reflexivity. }
  split; [exact Hrun|].
  intros Hlen. rewrite Hrun, concat_map_at.
  destruct (Z.leb_spec (Z.of_nat 1) r), (Z.ltb_spec r (Z.of_nat (1 + length blocks)));
    cbn [andb]; try reflexivity; lia.
Qed.

Lemma sustained_note_one_event_witness :
  map events
    (snd (MidiModeWindow.process_audio 0
            (MidiModeWindow.start_processing
               (MidiModeWindow.update_stability MidiModeWindow.init 5))
            (repeat (tone 270) 7)))
  = [[]; []; []; []; [note_changed 60]; []; []].
Proof.
  refine (proj1 (sustained_note_one_event MidiModeWindow.init 60 5 0
                   (repeat (tone 270) 7) _ _ _ _)).
  - unfold AudioProcessor.maxlen. lia.
  - lia.
  - lia.
  - repeat constructor.
Defined.

(** C5.  In every run of the loop, each processed block emits at most one
    event, so never a note change together with a note-off and never two
    of a kind; and a "note changed" event carries a note that differs from
    the stable note the filter held just before that block. *)
Theorem at_most_one_event_per_block (midi_channel : Z) (self : MidiModeWindow.t)
    (blocks : list (Q * Q)) (i : nat) (acts : list action) :
  snd (MidiModeWindow.process_audio midi_channel self blocks) !! i = Some acts ->
  (length (events acts) <= 1)%nat
  /\ forall n,
       In (note_changed n) (events acts) ->
       Some n <> AudioProcessor.current_stable_note
                   (MidiModeWindow.audio_processor
                      (fst (MidiModeWindow.process_audio midi_channel self (take i blocks)))).
Proof.
  intros Hi.
  destruct (process_audio_lookup midi_channel blocks self i acts Hi) as (f & a & _ & ->).
  destruct (process_audio_block_events midi_channel
              (fst (MidiModeWindow.process_audio midi_channel self (take i blocks))) f a)
    as [H | [(n & H & _ & Hne) | [H _]]]; cbv zeta in H; rewrite H; simpl.
  - split; [lia | tauto].
  - split; [lia|]. intros n' [[= <-]|[]]. exact Hne.
  - split; [lia|]. intros n' [?|[]]. discriminate.
Qed.

Lemma at_most_one_event_per_block_witness :
  (length (events [midi_output_send (note_on 60 64 0);
                   status_signal (status_note 60); note_detected_signal 60]) <= 1)%nat
  /\ forall n,
       In (note_changed n)
          (events [midi_output_send (note_on 60 64 0);
                   status_signal (status_note 60); note_detected_signal 60]) ->
       Some n <> AudioProcessor.current_stable_note
                   (MidiModeWindow.audio_processor
                      (fst (MidiModeWindow.process_audio 0 session
                              (take 4 (repeat (tone 270) 5))))).
Proof.
  apply (at_most_one_event_per_block 0 session (repeat (tone 270) 5) 4).
  vm_compute. reflexivity.
Defined.

(** ** Blocks that leave every note short of the required count *)

Section Unstable.

Import AudioProcessor MidiModeWindow.

(** While no note is on, a run of blocks past the silence gate in which no
    note of the window reaches [required_stability] triggers no action
    and leaves the stable note as it was. *)
Lemma unstable_run midi_channel blocks :
  forall h r cn st,
    Forall (fun block => valid_signal (fst block) (snd block) = true) blocks ->
    (forall i y, (1 <= i <= length blocks)%nat ->
                 count y (window_after h (map block_note (take i blocks))) < r) ->
    process_audio midi_channel
      {| audio_processor :=
           {| note_history := h; required_stability := r;
              AudioProcessor.current_note := cn; current_stable_note := st |};
         current_note := None; running := true |}
      blocks
    = ({| audio_processor :=
            {| note_history := window_after h (map block_note blocks);
               required_stability := r;
               AudioProcessor.current_note := cn; current_stable_note := st |};
          current_note := None; running := true |},
       map (fun _ => []) blocks).
Proof.
  induction blocks as [|[f a] blocks IH]; intros h r cn st Hall Hlow.
  - reflexivity.
  - apply Forall_cons in Hall as [Hv Hall]. simpl in Hv.
    cbn [process_audio running].
    assert (Hblock :
              process_audio_block midi_channel
                {| audio_processor :=
                     {| note_history := h; required_stability := r;
                        AudioProcessor.current_note := cn; current_stable_note := st |};
                   current_note := None; running := true |} f a
              = ({| audio_processor :=
                      {| note_history :=
                           collections.deque_append maxlen h (int_semitone f);
                         required_stability := r;
                         AudioProcessor.current_note := cn;
                         current_stable_note := st |};
                    current_note := None; running := true |}, [])).
    { unfold process_audio_block. cbn [audio_processor].
      destruct (process_audio_buffer_note
                  {| note_history := h; required_stability := r;
                     AudioProcessor.current_note := cn; current_stable_note := st |}
                  f a Hv) as (m & _ & _ & ->).
      cbn [note_history required_stability current_stable_note
           AudioProcessor.current_note audio_processor].
      pose proof (Hlow 1%nat m ltac:(simpl; lia)) as Hm.
      cbn [firstn] in Hm. rewrite take_0 in Hm.
      unfold window_after, block_note in Hm. cbn [map fold_left fst] in Hm.
      destruct (Z.leb_spec r
                  (count m (collections.deque_append maxlen h (int_semitone f))));
        [lia | reflexivity]. }
    rewrite Hblock.
    rewrite (IH (collections.deque_append maxlen h (int_semitone f)) r cn st Hall).
    + reflexivity.
    + intros i y Hi.
      apply (Hlow (S i) y). simpl. lia.
Qed.

Lemma window_after_elements (a b : Z) ns :
  forall h,
    Forall (fun x => x = a \/ x = b) h ->
    Forall (fun x => x = a \/ x = b) ns ->
    Forall (fun x => x = a \/ x = b) (window_after h ns).
Proof.
  induction ns as [|x ns IH]; intros h Hh Hns; [exact Hh|].
  apply Forall_cons in Hns as [Hx Hns].
  apply IH; [|exact Hns].
  unfold collections.deque_append.
  destruct (maxlen <=? length h)%nat.
  - apply Forall_app. split; [|apply Forall_singleton; exact Hx].
    destruct h as [|y h]; [exact Hh|].
    apply Forall_cons in Hh as [_ Hh]. exact Hh.
  - apply Forall_app. split; [exact Hh | apply Forall_singleton; exact Hx].
Qed.

Lemma count_not_In y h : ~ In y h -> count y h = 0.
Proof.
  intros H. pose proof (count_nonneg y h).
  destruct (Z.eq_dec (count y h) 0) as [|Hne]; [assumption|].
  exfalso. apply H. apply count_pos_In. lia.
Qed.

End Unstable.

(** From the start of a session, for every sequence of blocks that
    observe only the two notes [a] and [b], an alternation in particular,
    such that after each block neither note occurs [required_stability]
    times in the window: no block triggers any action, so no event is ever
    emitted, and the filter holds no stable note at any point of the
    sequence. *)
Lemma no_event_from_start (midi_channel : Z) (w : MidiModeWindow.t) (a b : Z)
    (blocks : list (Q * Q)) :
  let r := AudioProcessor.required_stability (MidiModeWindow.audio_processor w) in
  Forall (fun block => classify block = Note a \/ classify block = Note b) blocks ->
  (forall i, (1 <= i <= length blocks)%nat ->
             count a (window_after [] (map block_note (take i blocks))) < r
             /\ count b (window_after [] (map block_note (take i blocks))) < r) ->
  Forall (fun acts => events acts = [])
    (snd (MidiModeWindow.process_audio midi_channel
            (MidiModeWindow.start_processing w) blocks))
  /\ length (snd (MidiModeWindow.process_audio midi_channel
                    (MidiModeWindow.start_processing w) blocks)) = length blocks
  /\ forall i,
       AudioProcessor.current_stable_note
         (MidiModeWindow.audio_processor
            (fst (MidiModeWindow.process_audio midi_channel
                    (MidiModeWindow.start_processing w) (take i blocks)))) = None.
Proof.
  intros r Hall Hlow.
  assert (Hvalid : Forall (fun block =>
                     AudioProcessor.valid_signal (fst block) (snd block) = true) blocks).
  { eapply Forall_impl; [exact Hall|]. intros block [H|H];
      apply classify_Note in H; tauto. }
  assert (Hnotes : Forall (fun x => x = a \/ x = b) (map block_note blocks)).
  { apply Forall_fmap. eapply Forall_impl; [exact Hall|]. intros block [H|H];
      apply classify_Note in H; simpl; tauto. }
  assert (Hevery : forall i y, (1 <= i <= length blocks)%nat ->
             count y (window_after [] (map block_note (take i blocks))) < r).
  { intros i y Hi. destruct (Hlow i Hi) as [Ha Hb].
    assert (Hw : Forall (fun x => x = a \/ x = b)
                   (window_after [] (map block_note (take i blocks)))).
    { apply window_after_elements; [apply Forall_nil_2|].
      apply Forall_fmap. apply Forall_take.
      eapply Forall_impl; [exact Hall|]. intros block [H|H];
        apply classify_Note in H; simpl; tauto. }
    destruct (Z.eq_dec y a) as [->|Hya]; [exact Ha|].
    destruct (Z.eq_dec y b) as [->|Hyb]; [exact Hb|].
    rewrite count_not_In.
    - pose proof (count_nonneg a (window_after [] (map block_note (take i blocks)))). lia.
    - intros Hin. rewrite Forall_forall in Hw.
      apply list_elem_of_In in Hin. destruct (Hw y Hin); congruence. }
  assert (Hrun : forall bs,
             Forall (fun block =>
                       AudioProcessor.valid_signal (fst block) (snd block) = true) bs ->
             (forall i y, (1 <= i <= length bs)%nat ->
                count y (window_after [] (map block_note (take i bs))) < r) ->
             MidiModeWindow.process_audio midi_channel
               (MidiModeWindow.start_processing w) bs
             = ({| MidiModeWindow.audio_processor :=
                     {| AudioProcessor.note_history :=
                          window_after [] (map block_note bs);
                        AudioProcessor.required_stability := r;
                        AudioProcessor.current_note := None;
                        AudioProcessor.current_stable_note := None |};
                   MidiModeWindow.current_note := None;
                   MidiModeWindow.running := true |},
                map (fun _ => []) bs)).
  { intros bs Hv Hl. apply (unstable_run midi_channel bs [] r None None Hv Hl). }
  rewrite (Hrun blocks Hvalid Hevery). cbn [snd].
  split; [|split].
  - apply Forall_fmap. apply Forall_true. reflexivity.
  - apply length_map.
  - intros i. rewrite Hrun; [reflexivity | apply Forall_take; exact Hvalid |].
    intros j y Hj. rewrite take_take.
    rewrite length_take in Hj.
    replace (Nat.min j i) with j by lia.
    apply Hevery. lia.
Qed.

(** C6.  With the stability 6, six blocks of the note 60 turn the note on.
    The five blocks that follow alternate between the notes 62 and 64, and
    neither ever occurs six times in the window (the counts after each
    block are listed); yet on the fifth of them
    the loop sends the note-off of 60 and emits the note-off signal,
    because the result is not valid once a 60 has left the window.  The
    filter declares no other note and still holds 60.  The same five blocks
    at the start of a session emit nothing. *)
Theorem note_cleared_during_jitter :
  map classify jitter = [Note 62; Note 64; Note 62; Note 64; Note 62]
  /\ map (fun i =>
            let window :=
              window_after (repeat 60 6) (map block_note (take i jitter)) in
            (count 62 window, count 64 window))
       (seq 1 (length jitter))
     = [(1, 0); (1, 1); (2, 1); (2, 2); (3, 2)]
  /\ map events
       (snd (MidiModeWindow.process_audio 0 session_6
               (repeat (tone 270) 6 ++ jitter)))
     = [[]; []; []; []; []; [note_changed 60]; []; []; []; []; [note_cleared]]
  /\ snd (MidiModeWindow.process_audio 0 session_6
            (repeat (tone 270) 6 ++ jitter)) !! 10%nat
     = Some [midi_output_send (note_off 60 0); note_off_signal]
  /\ AudioProcessor.current_stable_note
       (MidiModeWindow.audio_processor
          (fst (MidiModeWindow.process_audio 0 session_6
                  (repeat (tone 270) 6 ++ jitter)))) = Some 60
  /\ map events (snd (MidiModeWindow.process_audio 0 session_6 jitter))
     = [[]; []; []; []; []].
Proof.
  split; [vm_compute; reflexivity|].
  split; [vm_compute; reflexivity|].
  vm_compute. auto.
Qed.

(** ** The stable note across audible blocks *)

Section Frame.

Import AudioProcessor MidiModeWindow.

(** The processor of the loop after one pass is the processor after the
    block, whatever the sink did. *)
Lemma process_audio_block_processor midi_channel self f a :
  audio_processor (fst (process_audio_block midi_channel self f a))
  = feed (audio_processor self) [(f, a)].
Proof.
  unfold feed, process_audio_block. cbn [fold_left fst snd].
  destruct (process_audio_buffer_returns (audio_processor self) f a)
    as (result & ap & ->).
  destruct result as [valid note new fr am].
  cbn [is_valid midi_note is_new_note].
  unfold Message_note_off, Message_note_on, on_exception.
  destruct valid, note as [m|], new, (current_note self) as [c|];
    simpl; try reflexivity;
    repeat (match goal with
            | |- context [if ?b then _ else _] => destruct b
            end; simpl);
    reflexivity.
Qed.

(** A "note changed" event names a note that reached the required count in
    the window and differs from the stable note held before. *)
Lemma process_audio_block_changed midi_channel self f a m :
  In (note_changed m) (events (snd (process_audio_block midi_channel self f a))) ->
  valid_signal f a = true
  /\ Some m <> current_stable_note (audio_processor self)
  /\ required_stability (audio_processor self)
     <= count m (collections.deque_append maxlen
                   (note_history (audio_processor self)) (int_semitone f)).
Proof.
  unfold process_audio_block.
  destruct (valid_signal f a) eqn:Hv.
  - destruct (process_audio_buffer_note (audio_processor self) f a Hv)
      as (m' & _ & _ & ->).
    destruct (Z.leb_spec (required_stability (audio_processor self))
                (count m' (collections.deque_append maxlen
                             (note_history (audio_processor self)) (int_semitone f))))
      as [Hle|Hgt]; simpl.
    + destruct (bool_decide (Some m' = current_stable_note (audio_processor self))) eqn:Es;
        simpl; [tauto|].
      apply bool_decide_eq_false in Es.
      unfold Message_note_off, Message_note_on.
      destruct (current_note self) as [c|]; simpl.
      * destruct (data_byte c && channel_ok midi_channel); simpl; [|tauto].
        destruct (data_byte m' && data_byte 64 && channel_ok midi_channel); simpl;
          [|tauto].
        intros [[= <-]|[]]. auto.
      * destruct (data_byte m' && data_byte 64 && channel_ok midi_channel); simpl;
          [|tauto].
        intros [[= <-]|[]]. auto.
    + unfold Message_note_off.
      destruct (current_note self) as [c|]; simpl; [|tauto].
      destruct (data_byte c && channel_ok midi_channel); simpl; [|tauto].
      intros [?|[]]. discriminate.
  - rewrite (process_audio_buffer_silence _ _ _ Hv). simpl.
    unfold Message_note_off.
    destruct (current_note self) as [c|]; simpl; [|tauto].
    destruct (data_byte c && channel_ok midi_channel); simpl; [|tauto].
    intros [?|[]]. discriminate.
Qed.

(** Past the silence gate the stable note is kept or replaced by the
    majority note, which the result then reports as new. *)
Lemma process_audio_buffer_frame self f a result self' :
  valid_signal f a = true ->
  process_audio_buffer self f a = Returns (result, self') ->
  current_stable_note self' = current_stable_note self
  \/ exists m, current_stable_note self' = Some m
               /\ midi_note result = Some m /\ is_new_note result = true.
Proof.
  intros Hv.
  destruct (process_audio_buffer_note self f a Hv) as (m & _ & _ & ->).
  destruct (required_stability self <=? _).
  - intros [= <- <-]. simpl.
    destruct (bool_decide (Some m = current_stable_note self)) eqn:Es.
    + left. apply bool_decide_eq_true in Es. exact Es.
    + right. exists m. auto.
  - intros [= <- <-]. left. reflexivity.
Qed.

(** While no note other than the stable note [n] reaches the required
    count, audible blocks keep [n] as the stable note. *)
Lemma feed_keeps_stable n blocks :
  forall h r cn,
    Forall (fun block => valid_signal (fst block) (snd block) = true) blocks ->
    (forall i y, (1 <= i <= length blocks)%nat -> y <> n ->
                 count y (window_after h (map block_note (take i blocks))) < r) ->
    feed {| note_history := h; required_stability := r;
            AudioProcessor.current_note := cn; current_stable_note := Some n |}
         blocks
    = {| note_history := window_after h (map block_note blocks);
         required_stability := r;
         AudioProcessor.current_note := cn; current_stable_note := Some n |}.
Proof.
  induction blocks as [|[f a] blocks IH]; intros h r cn Hall Hlow; [reflexivity|].
  apply Forall_cons in Hall as [Hv Hall]. simpl in Hv.
  unfold feed. cbn [fold_left fst snd]. fold (feed).
  destruct (process_audio_buffer_note
              {| note_history := h; required_stability := r;
                 AudioProcessor.current_note := cn; current_stable_note := Some n |}
              f a Hv) as (m & _ & _ & ->).
  cbn [note_history required_stability current_stable_note AudioProcessor.current_note].
  assert (Hstep :
            (if r <=? count m (collections.deque_append maxlen h (int_semitone f))
             then Some m else Some n) = Some n).
  { destruct (Z.leb_spec r (count m (collections.deque_append maxlen h (int_semitone f))))
      as [Hle|Hgt]; [|reflexivity].
    destruct (Z.eq_dec m n) as [->|Hne]; [reflexivity|].
    pose proof (Hlow 1%nat m ltac:(simpl; lia) Hne) as Hm.
    cbn [firstn] in Hm. rewrite take_0 in Hm.
    unfold window_after, block_note in Hm. cbn [map fold_left fst] in Hm. lia. }
  transitivity
    (feed {| note_history := collections.deque_append maxlen h (int_semitone f);
             required_stability := r;
             AudioProcessor.current_note := cn; current_stable_note := Some n |}
          blocks).
  - unfold feed. f_equal.
    destruct (r <=? count m (collections.deque_append maxlen h (int_semitone f)));
      [injection Hstep as ->|]; reflexivity.
  - rewrite IH; [reflexivity | exact Hall |].
    intros i y Hi Hy. apply (Hlow (S i) y); [simpl; lia | exact Hy].
Qed.

(** In such a run the loop announces no note. *)
Lemma no_change_while_stable midi_channel n blocks :
  forall self,
    current_stable_note (audio_processor self) = Some n ->
    Forall (fun block => valid_signal (fst block) (snd block) = true) blocks ->
    (forall i y, (1 <= i <= length blocks)%nat -> y <> n ->
                 count y (window_after (note_history (audio_processor self))
                            (map block_note (take i blocks)))
                 < required_stability (audio_processor self)) ->
    Forall (fun acts => forall m, ~ In (note_changed m) (events acts))
      (snd (process_audio midi_channel self blocks)).
Proof.
  induction blocks as [|[f a] blocks IH]; intros self Hst Hall Hlow;
    [apply Forall_nil_2|].
  cbn [process_audio].
  destruct (running self); [|apply Forall_nil_2].
  destruct (process_audio_block midi_channel self f a) as [self1 acts] eqn:E1.
  destruct (process_audio midi_channel self1 blocks) as [self2 rest] eqn:E2.
  cbn [snd].
  assert (Hacts : forall m, ~ In (note_changed m) (events acts)).
  { intros m Hin.
    replace acts with (snd (process_audio_block midi_channel self f a)) in Hin
      by (rewrite E1; reflexivity).
    apply process_audio_block_changed in Hin as (_ & Hne & Hle).
    destruct (Z.eq_dec m n) as [->|Hmn]; [congruence|].
    pose proof (Hlow 1%nat m ltac:(simpl; lia) Hmn) as Hm.
    cbn [firstn] in Hm. rewrite take_0 in Hm.
    unfold window_after, block_note in Hm. cbn [map fold_left fst] in Hm. lia. }
  apply Forall_cons_2; [exact Hacts|].
  replace rest with (snd (process_audio midi_channel self1 blocks))
    by (rewrite E2; reflexivity).
  apply Forall_cons in Hall as [Hv Hall]. simpl in Hv.
  assert (Hap : audio_processor self1
                = {| note_history :=
                       collections.deque_append maxlen
                         (note_history (audio_processor self)) (int_semitone f);
                     required_stability := required_stability (audio_processor self);
                     AudioProcessor.current_note :=
                       AudioProcessor.current_note (audio_processor self);
                     current_stable_note := Some n |}).
  { replace self1 with (fst (process_audio_block midi_channel self f a))
      by (rewrite E1; reflexivity).
    rewrite process_audio_block_processor.
    destruct (audio_processor self) as [h r cn st] eqn:Eap.
    simpl in Hst. subst st.
    rewrite (feed_keeps_stable n [(f, a)] h r cn).
    - reflexivity.
    - apply Forall_cons_2; [exact Hv | apply Forall_nil_2].
    - intros i y Hi Hy. simpl in Hi.
      assert (i = 1%nat) by lia. subst i.
      pose proof (Hlow 1%nat y ltac:(simpl; lia) Hy) as Hm.
      cbn [firstn] in Hm |- *. rewrite ?take_0 in Hm. rewrite ?take_0.
      exact Hm. }
  apply IH.
  - rewrite Hap. reflexivity.
  - exact Hall.
  - intros i y Hi Hy. rewrite Hap.
    cbn [note_history required_stability].
    apply (Hlow (S i) y); [simpl; lia | exact Hy].
Qed.

End Frame.

(** C10.  A block past the silence gate never clears [current_stable_note]:
    [process_audio_buffer] leaves it unchanged or sets it to the majority
    note it reports as new, so a stable note is lost only in the silence
    branch or by [reset].  Hence, when a stable note [n] is followed by
    audible blocks during which no other note reaches
    [required_stability] (the majority count may drop below it) and the
    window then holds [n] at least [required_stability] times again, the
    result of that block is valid with [midi_note = n] and
    [is_new_note = False], and the loop announces no note in the whole
    run. *)
Theorem stable_note_survives_instability :
  (forall self f a result self',
      AudioProcessor.valid_signal f a = true ->
      AudioProcessor.process_audio_buffer self f a = Returns (result, self') ->
      AudioProcessor.current_stable_note self' = AudioProcessor.current_stable_note self
      \/ exists m, AudioProcessor.current_stable_note self' = Some m
                   /\ AudioProcessor.midi_note result = Some m
                   /\ AudioProcessor.is_new_note result = true)
  /\ (forall self f a result self' n,
         AudioProcessor.current_stable_note self = Some n ->
         AudioProcessor.process_audio_buffer self f a = Returns (result, self') ->
         AudioProcessor.current_stable_note self' = None ->
         AudioProcessor.valid_signal f a = false)
  /\ (forall self, AudioProcessor.current_stable_note (AudioProcessor.reset self) = None)
  /\ (forall midi_channel w n blocks f a,
         let h := AudioProcessor.note_history (MidiModeWindow.audio_processor w) in
         let r := AudioProcessor.required_stability (MidiModeWindow.audio_processor w) in
         AudioProcessor.current_stable_note (MidiModeWindow.audio_processor w) = Some n ->
         Forall (fun block => classify block <> Silence) (blocks ++ [(f, a)]) ->
         (forall i y, (1 <= i <= length (blocks ++ [(f, a)]))%nat -> y <> n ->
                      count y (window_after h (map block_note (take i (blocks ++ [(f, a)]))))
                      < r) ->
         r <= count n (window_after h (map block_note (blocks ++ [(f, a)]))) ->
         (exists result self',
             AudioProcessor.process_audio_buffer
               (feed (MidiModeWindow.audio_processor w) blocks) f a
             = Returns (result, self')
             /\ AudioProcessor.is_valid result = true
             /\ AudioProcessor.midi_note result = Some n
             /\ AudioProcessor.is_new_note result = false
             /\ AudioProcessor.current_stable_note self' = Some n)
         /\ Forall (fun acts => forall m, ~ In (note_changed m) (events acts))
              (snd (MidiModeWindow.process_audio midi_channel w (blocks ++ [(f, a)])))).
Proof.
  split; [|split; [|split; [|]]].
  - exact process_audio_buffer_frame.
  - intros self f a result self' n Hst Hbuf Hnone.
    destruct (AudioProcessor.valid_signal f a) eqn:Hv; [|reflexivity].
    destruct (process_audio_buffer_frame self f a result self' Hv Hbuf)
      as [H|(m & H & _)]; congruence.
  - reflexivity.
  - intros midi_channel w n blocks f a h r Hst Haud Hlow Hback.
    assert (Hvalid : Forall (fun block =>
                       AudioProcessor.valid_signal (fst block) (snd block) = true)
                       (blocks ++ [(f, a)])).
    { eapply Forall_impl; [exact Haud|]. intros block Hb.
      destruct (AudioProcessor.valid_signal (fst block) (snd block)) eqn:E;
        [reflexivity|]. exfalso. apply Hb. apply classify_Silence. exact E. }
    split.
    + apply Forall_app in Hvalid as [Hvb Hva].
      rewrite Forall_singleton in Hva. simpl in Hva.
      subst h r.
      destruct (MidiModeWindow.audio_processor w) as [h r cn st].
      simpl in Hst, Hlow, Hback. subst st.
      rewrite (feed_keeps_stable n blocks h r cn Hvb).
      2:{ intros i y Hi Hy.
          pose proof (Hlow i y) as Hl. rewrite length_app in Hl. simpl in Hl.
          rewrite take_app_le in Hl by lia. apply Hl; [lia | exact Hy]. }
      destruct (process_audio_buffer_note
                  {| AudioProcessor.note_history :=
                       window_after h (map block_note blocks);
                     AudioProcessor.required_stability := r;
                     AudioProcessor.current_note := cn;
                     AudioProcessor.current_stable_note := Some n |}
                  f a Hva) as (m & _ & Hmax & ->).
      cbn [AudioProcessor.note_history AudioProcessor.required_stability
           AudioProcessor.current_stable_note] in Hmax |- *.
      assert (Hw : collections.deque_append AudioProcessor.maxlen
                     (window_after h (map block_note blocks))
                     (AudioProcessor.int_semitone f)
                   = window_after h (map block_note (blocks ++ [(f, a)]))).
      { unfold window_after. rewrite map_app, fold_left_app. reflexivity. }
      rewrite Hw in Hmax |- *.
      assert (Hm : m = n).
      { destruct (Z.eq_dec m n) as [|Hne]; [assumption|]. exfalso.
        pose proof (Hlow (length (blocks ++ [(f, a)])) m) as Hl.
        rewrite firstn_all in Hl.
        rewrite length_app in Hl. simpl in Hl.
        specialize (Hl ltac:(lia) Hne). specialize (Hmax n). lia. }
      subst m.
      destruct (Z.leb_spec r
                  (count n (window_after h (map block_note (blocks ++ [(f, a)])))));
        [|lia].
      eexists _, _. split; [reflexivity|].
      cbn [AudioProcessor.is_valid AudioProcessor.midi_note AudioProcessor.is_new_note
           AudioProcessor.current_stable_note].
      rewrite bool_decide_eq_true_2 by reflexivity. auto.
    + apply (no_change_while_stable midi_channel n (blocks ++ [(f, a)]) w Hst Hvalid).
      exact Hlow.
Qed.

Lemma count_lt_all n r l y :
  0 < r ->
  forallb (fun x => (x =? n) || (count x l <? r)) l = true ->
  y <> n -> count y l < r.
Proof.
  intros Hr Hall Hy.
  destruct (in_dec Z.eq_dec y l) as [Hin|Hnin].
  - rewrite forallb_forall in Hall. specialize (Hall y Hin).
    apply orb_true_iff in Hall as [H|H].
    + apply Z.eqb_eq in H. contradiction.
    + apply Z.ltb_lt in H. exact H.
  - rewrite count_not_In by exact Hnin. exact Hr.
Qed.

Lemma stable_note_survives_instability_witness :
  Forall (fun acts => forall m, ~ In (note_changed m) (events acts))
    (snd (MidiModeWindow.process_audio 0 holding_60 (wobble ++ [tone 270]))).
Proof.
  refine (proj2 (proj2 (proj2 (proj2 stable_note_survives_instability))
                   0 holding_60 60 wobble (270 # 1)%Q (1 # 10)%Q _ _ _ _)).
  - vm_compute. reflexivity.
  - unfold wobble. repeat (apply Forall_cons_2; [vm_compute; discriminate|]).
    apply Forall_nil_2.
  - intros i y Hi Hy.
    do 12 (destruct i as [|i];
           [first [ solve [simpl in Hi; lia]
                  | apply (count_lt_all 60);
                    [vm_compute; reflexivity | vm_compute; reflexivity | exact Hy] ]|]).
    simpl in Hi. lia.
  - vm_compute. discriminate.
Defined.

(** ** Note-off and silence *)

(** A block of silence while the loop has a note on (a valid MIDI note on a
    valid channel) sends its note-off and emits the note-off signal. *)
Lemma silence_emits_note_off midi_channel self f a c :
  AudioProcessor.valid_signal f a = false ->
  MidiModeWindow.current_note self = Some c ->
  0 <= c <= 127 -> 0 <= midi_channel <= 15 ->
  MidiModeWindow.process_audio_block midi_channel self f a
  = ({| MidiModeWindow.audio_processor :=
          {| AudioProcessor.note_history := [];
             AudioProcessor.required_stability :=
               AudioProcessor.required_stability (MidiModeWindow.audio_processor self);
             AudioProcessor.current_note :=
               AudioProcessor.current_note (MidiModeWindow.audio_processor self);
             AudioProcessor.current_stable_note := None |};
        MidiModeWindow.current_note := None;
        MidiModeWindow.running := MidiModeWindow.running self |},
     [midi_output_send (note_off c midi_channel); note_off_signal]).
Proof.
  intros Hv Hc Hrange Hch.
  unfold MidiModeWindow.process_audio_block.
  rewrite (process_audio_buffer_silence _ _ _ Hv). simpl. rewrite Hc.
  unfold MidiModeWindow.Message_note_off, MidiModeWindow.data_byte,
    MidiModeWindow.channel_ok.
  replace ((0 <=? c) && (c <=? 127) && ((0 <=? midi_channel) && (midi_channel <=? 15)))
    with true; [reflexivity|].
  symmetry. rewrite !andb_true_iff, !Z.leb_le. lia.
Qed.

(** A block of silence while the loop has no note on emits nothing, whatever
    stable note the filter holds. *)
Lemma silence_without_note_on midi_channel self f a :
  AudioProcessor.valid_signal f a = false ->
  MidiModeWindow.current_note self = None ->
  snd (MidiModeWindow.process_audio_block midi_channel self f a) = [].
Proof.
  intros Hv Hc. unfold MidiModeWindow.process_audio_block.
  rewrite (process_audio_buffer_silence _ _ _ Hv). simpl. rewrite Hc. reflexivity.
Qed.

(** C1.  The run [drift] from the start of a session with the default
    stability 5: the eleventh block passes the silence gate (it is the note
    66), yet the loop sends the note-off of 60 and emits the note-off
    signal on it, because the result is not valid once only four notes of
    the window are 60; the filter still holds 60 as its stable note. *)
Theorem note_off_on_audible_block :
  classify (tone 380) = Note 66
  /\ snd (MidiModeWindow.process_audio 0 session drift) !! 10%nat
     = Some [midi_output_send (note_off 60 0); note_off_signal]
  /\ AudioProcessor.current_stable_note
       (MidiModeWindow.audio_processor
          (fst (MidiModeWindow.process_audio 0 session drift))) = Some 60
  /\ MidiModeWindow.current_note
       (fst (MidiModeWindow.process_audio 0 session drift)) = None.
Proof. vm_compute. auto. Qed.

(** The keyboard loop does the same on that run: the key of note 60 is
    released on the eleventh block. *)
Lemma key_released_on_audible_block :
  snd (KeyboardModeWindow.process_audio keyboard_session drift) !! 10%nat
  = Some [keyboard_release "a"; note_off_signal].
Proof. vm_compute. reflexivity. Qed.

(** C4.  After the run [drift] the filter holds the stable note 60; the
    block of silence that follows clears the window and the stable note but
    emits no event, the loop having turned the note off one block
    earlier. *)
Theorem silence_after_stable_note_without_event :
  AudioProcessor.current_stable_note
    (MidiModeWindow.audio_processor
       (fst (MidiModeWindow.process_audio 0 session drift))) = Some 60
  /\ classify quiet = Silence
  /\ snd (MidiModeWindow.process_audio 0 session (drift ++ [quiet])) !! 11%nat
     = Some []
  /\ AudioProcessor.note_history
       (MidiModeWindow.audio_processor
          (fst (MidiModeWindow.process_audio 0 session (drift ++ [quiet])))) = []
  /\ AudioProcessor.current_stable_note
       (MidiModeWindow.audio_processor
          (fst (MidiModeWindow.process_audio 0 session (drift ++ [quiet])))) = None.
Proof. vm_compute. auto 6. Qed.

(** ** The stability control *)

Lemma length_deque_append h x :
  (length h <= AudioProcessor.maxlen)%nat ->
  (length (collections.deque_append AudioProcessor.maxlen h x)
   <= AudioProcessor.maxlen)%nat.
Proof.
  intros Hh. unfold collections.deque_append, AudioProcessor.maxlen in *.
  destruct (Nat.leb_spec 10 (length h)).
  - rewrite length_app. destruct h; simpl in *; lia.
  - rewrite length_app. simpl. lia.
Qed.

(** With a required stability above the capacity of the window no block is
    ever valid: no note can occur that often in ten observations. *)
Lemma no_stable_note_above_window self f a :
  Z.of_nat AudioProcessor.maxlen < AudioProcessor.required_stability self ->
  (length (AudioProcessor.note_history self) <= AudioProcessor.maxlen)%nat ->
  exists result self',
    AudioProcessor.process_audio_buffer self f a = Returns (result, self')
    /\ AudioProcessor.is_valid result = false
    /\ (length (AudioProcessor.note_history self') <= AudioProcessor.maxlen)%nat.
Proof.
  intros Hr Hlen.
  destruct (AudioProcessor.valid_signal f a) eqn:Hv.
  - destruct (process_audio_buffer_note self f a Hv) as (m & _ & _ & ->).
    pose proof (length_deque_append (AudioProcessor.note_history self)
                  (AudioProcessor.int_semitone f) Hlen) as Hl.
    pose proof (count_le_length m
                  (collections.deque_append AudioProcessor.maxlen
                     (AudioProcessor.note_history self)
                     (AudioProcessor.int_semitone f))) as Hc.
    destruct (Z.leb_spec (AudioProcessor.required_stability self)
                (count m (collections.deque_append AudioProcessor.maxlen
                            (AudioProcessor.note_history self)
                            (AudioProcessor.int_semitone f)))); [lia|].
    eexists _, _. split; [reflexivity|]. split; [reflexivity | exact Hl].
  - rewrite (process_audio_buffer_silence _ _ _ Hv).
    eexists _, _. split; [reflexivity|]. split; [reflexivity | simpl; lia].
Qed.

Section Control.

Import stability_slider.

Lemma bound_range value : 1 <= bound value <= 20.
Proof. unfold bound, minimum, maximum. lia. Qed.

Lemma bound_in_range value : 1 <= value <= 20 -> bound value = value.
Proof. unfold bound, minimum, maximum. lia. Qed.

(** Whatever is asked of the slider, the window holds the value the slider
    shows, and that value is within the range. *)
Lemma control_invariant {W : Type} (update_stability : W -> Z -> W)
    (stability : W -> Z) :
  (forall w value, stability (update_stability w value) = value) ->
  forall requests control,
    stability (snd control) = fst control ->
    1 <= fst control <= 20 ->
    stability (snd (fold_left (setValue update_stability) requests control))
    = fst (fold_left (setValue update_stability) requests control)
    /\ 1 <= fst (fold_left (setValue update_stability) requests control) <= 20.
Proof.
  intros Hupdate. induction requests as [|value requests IH];
    intros control Hshown Hrange; [auto|].
  cbn [fold_left]. apply IH.
  - unfold setValue. destruct (bound value =? fst control); [exact Hshown|].
    cbn [fst snd]. apply Hupdate.
  - unfold setValue. destruct (bound value =? fst control); [exact Hrange|].
    cbn [fst]. apply bound_range.
Qed.

Lemma control_last {W : Type} (update_stability : W -> Z -> W)
    (stability : W -> Z) :
  (forall w value, stability (update_stability w value) = value) ->
  forall requests control value,
    stability (snd control) = fst control ->
    1 <= fst control <= 20 ->
    stability (snd (fold_left (setValue update_stability) (requests ++ [value]) control))
    = bound value.
Proof.
  intros Hupdate requests control value Hshown Hrange.
  rewrite fold_left_app. cbn [fold_left].
  destruct (control_invariant update_stability stability Hupdate
              requests control Hshown Hrange) as [Hs _].
  set (shown := fold_left (setValue update_stability) requests control) in *.
  unfold setValue. cbv zeta.
  destruct (Z.eqb_spec (bound value) (fst shown)) as [E|E].
  - rewrite Hs. symmetry. exact E.
  - cbn [snd]. apply Hupdate.
Qed.

End Control.

(** C7, as amended.  [set_stability] stores whatever value it is given, as
    it is, and so does [update_stability] of either window: no value is
    refused.  The stability control of either window keeps the required
    stability between the slider's minimum 1 and its maximum 20, whatever
    is asked of the slider, and every value from 1 to 20 can be set, those
    above the capacity 10 of the window included. *)
Theorem stability_within_slider_range :
  (forall self value,
      AudioProcessor.required_stability (AudioProcessor.set_stability self value)
      = value)
  /\ (forall w value,
         AudioProcessor.required_stability
           (MidiModeWindow.audio_processor (MidiModeWindow.update_stability w value))
         = value)
  /\ (forall w value,
         AudioProcessor.required_stability
           (KeyboardModeWindow.audio_processor
              (KeyboardModeWindow.update_stability w value))
         = value)
  /\ (forall requests,
         1 <= AudioProcessor.required_stability
                (MidiModeWindow.audio_processor
                   (snd (fold_left
                           (stability_slider.setValue MidiModeWindow.update_stability)
                           requests stability_slider.midi_control)))
           <= 20)
  /\ (forall keyboard_available requests,
         1 <= AudioProcessor.required_stability
                (KeyboardModeWindow.audio_processor
                   (snd (fold_left
                           (stability_slider.setValue
                              KeyboardModeWindow.update_stability)
                           requests
                           (stability_slider.keyboard_control keyboard_available))))
           <= 20)
  /\ (forall requests value,
         1 <= value <= 20 ->
         AudioProcessor.required_stability
           (MidiModeWindow.audio_processor
              (snd (fold_left
                      (stability_slider.setValue MidiModeWindow.update_stability)
                      (requests ++ [value]) stability_slider.midi_control)))
         = value)
  /\ (forall keyboard_available requests value,
         1 <= value <= 20 ->
         AudioProcessor.required_stability
           (KeyboardModeWindow.audio_processor
              (snd (fold_left
                      (stability_slider.setValue KeyboardModeWindow.update_stability)
                      (requests ++ [value])
                      (stability_slider.keyboard_control keyboard_available))))
         = value).
Proof.
  assert (Hmidi : forall w value,
             AudioProcessor.required_stability
               (MidiModeWindow.audio_processor
                  (MidiModeWindow.update_stability w value)) = value)
    by reflexivity.
  assert (Hkeyboard : forall w value,
             AudioProcessor.required_stability
               (KeyboardModeWindow.audio_processor
                  (KeyboardModeWindow.update_stability w value)) = value)
    by reflexivity.
  split; [reflexivity|]. split; [exact Hmidi|]. split; [exact Hkeyboard|].
  split; [|split; [|split]].
  - intros requests.
    destruct (control_invariant MidiModeWindow.update_stability
                (fun w => AudioProcessor.required_stability
                            (MidiModeWindow.audio_processor w))
                Hmidi requests stability_slider.midi_control)
      as [Hs Hr]; [reflexivity | vm_compute; split; discriminate|].
    rewrite Hs. exact Hr.
  - intros keyboard_available requests.
    destruct (control_invariant KeyboardModeWindow.update_stability
                (fun w => AudioProcessor.required_stability
                            (KeyboardModeWindow.audio_processor w))
                Hkeyboard requests
                (stability_slider.keyboard_control keyboard_available))
      as [Hs Hr]; [reflexivity | vm_compute; split; discriminate|].
    rewrite Hs. exact Hr.
  - intros requests value Hvalue.
    rewrite (control_last MidiModeWindow.update_stability
               (fun w => AudioProcessor.required_stability
                           (MidiModeWindow.audio_processor w))
               Hmidi requests stability_slider.midi_control value);
      [apply bound_in_range; exact Hvalue | reflexivity
      | vm_compute; split; discriminate].
  - intros keyboard_available requests value Hvalue.
    rewrite (control_last KeyboardModeWindow.update_stability
               (fun w => AudioProcessor.required_stability
                           (KeyboardModeWindow.audio_processor w))
               Hkeyboard requests
               (stability_slider.keyboard_control keyboard_available) value);
      [apply bound_in_range; exact Hvalue | reflexivity
      | vm_compute; split; discriminate].
Qed.

Lemma stability_within_slider_range_witness :
  AudioProcessor.required_stability
    (MidiModeWindow.audio_processor
       (snd (fold_left
               (stability_slider.setValue MidiModeWindow.update_stability)
               ([0; 35] ++ [20]) stability_slider.midi_control)))
  = 20
  /\ AudioProcessor.required_stability
       (KeyboardModeWindow.audio_processor
          (snd (fold_left
                  (stability_slider.setValue KeyboardModeWindow.update_stability)
                  ([7] ++ [11])
                  (stability_slider.keyboard_control true))))
     = 11.
Proof.
  destruct stability_within_slider_range as (_ & _ & _ & _ & _ & Hmidi & Hkeyboard).
  split.
  - apply (Hmidi [0; 35] 20). lia.
  - apply (Hkeyboard true [7] 11). lia.
Defined.

(** C7 as stated fails: the control accepts 20, which [set_stability]
    stores, above the capacity 10 of the window. *)
Lemma stability_above_window_capacity :
  ~ (forall value,
        stability_slider.in_range value = true ->
        1 <= AudioProcessor.required_stability
               (MidiModeWindow.audio_processor
                  (MidiModeWindow.update_stability MidiModeWindow.init value))
          <= Z.of_nat AudioProcessor.maxlen).
Proof.
  intros H. specialize (H 20 eq_refl). vm_compute in H.
  destruct H as [_ H]. apply H. reflexivity.
Qed.

(** ** The key mapping *)

Section Mapping.

Import KeyboardEmulator.
Local Open Scope string_scope.

Lemma int_strip_first c s :
  pystr.int_isspace c = false ->
  exists r, pystr.int_rstrip (pystr.int_lstrip (String c s)) = String c r.
Proof.
  intros Hc. cbn [pystr.int_lstrip]. rewrite Hc.
  cbn [pystr.int_rstrip]. rewrite Hc.
  destruct (pystr.int_rstrip s); eauto.
Qed.

(** A string that [int] accepts starts with white space, a sign or a
    digit: neither with a sharp nor with a flat. *)
Lemma int_first_char c s octave :
  pystr.int (String c s) = Some octave -> c <> "#"%char /\ c <> "b"%char.
Proof.
  intros H. split; intros ->; unfold pystr.int in H;
    [destruct (int_strip_first "#"%char s eq_refl) as [r Hr]
    |destruct (int_strip_first "b"%char s eq_refl) as [r Hr]];
    rewrite Hr in H; unfold pystr.int_digits in H;
    destruct (pystr.max_str_digits <? _)%nat; try discriminate;
    cbn in H; discriminate.
Qed.

Lemma append_String a s t : String a s ++ t = String a (s ++ t).
Proof. reflexivity. Qed.

Lemma append_empty t : "" ++ t = t.
Proof. reflexivity. Qed.

Lemma int_not_empty octave : pystr.int "" <> Some octave.
Proof. intros H. vm_compute in H. discriminate. Qed.

(** The octave formula: a name of the table followed by an integer. *)
Lemma note_name_to_midi_formula name pc digits octave :
  notes_get notes name = Some pc ->
  pystr.int digits = Some octave ->
  note_name_to_midi (name ++ digits) = Some (pc + (octave + 1) * 12).
Proof.
  intros Hname Hint.
  destruct digits as [|c d]; [exfalso; exact (int_not_empty octave Hint)|].
  destruct (int_first_char c d octave Hint) as [Hsharp Hflat].
  assert (Hc : bool_decide (Some c = Some "#"%char)
               || bool_decide (Some c = Some "b"%char) = false).
  { apply orb_false_iff. split; apply bool_decide_eq_false; congruence. }
  unfold notes in Hname. cbn [notes_get] in Hname.
  repeat match type of Hname with
         | (if String.eqb ?k name then _ else _) = _ =>
             destruct (String.eqb_spec k name) as [<-|_];
             [ injection Hname as <-;
               rewrite !append_String, append_empty;
               unfold note_name_to_midi; simpl;
               rewrite ?Hc, ?andb_false_r;
               rewrite ?bool_decide_eq_true_2 by reflexivity;
               simpl; rewrite ?Hint; reflexivity
             | ]
         end.
  discriminate.
Qed.

Lemma take_drop i s : pystr.take i s ++ pystr.drop i s = s.
Proof.
  revert s. induction i as [|i IH]; intros s; [reflexivity|].
  destruct s as [|c s]; [reflexivity|].
  cbn [pystr.take pystr.drop]. rewrite append_String, IH. reflexivity.
Qed.

(** A name is accepted only as a name of the table followed by an integer. *)
Lemma note_name_to_midi_inv s n :
  note_name_to_midi s = Some n ->
  exists name pc digits octave,
    s = name ++ digits
    /\ notes_get notes name = Some pc
    /\ pystr.int digits = Some octave
    /\ n = pc + (octave + 1) * 12.
Proof.
  unfold note_name_to_midi.
  destruct (String.length s <? 2)%nat; [discriminate|].
  destruct ((3 <=? String.length s)%nat && _).
  - destruct (pystr.int (pystr.drop 2 s)) as [octave|] eqn:Hint; [|discriminate].
    destruct (notes_get notes (pystr.take 2 s)) as [pc|] eqn:Hpc; [|discriminate].
    intros [= <-]. exists (pystr.take 2 s), pc, (pystr.drop 2 s), octave.
    rewrite take_drop. auto.
  - destruct (pystr.int (pystr.drop 1 s)) as [octave|] eqn:Hint; [|discriminate].
    destruct (notes_get notes (pystr.take 1 s)) as [pc|] eqn:Hpc; [|discriminate].
    intros [= <-]. exists (pystr.take 1 s), pc, (pystr.drop 1 s), octave.
    rewrite take_drop. auto.
Qed.

(** A letter followed by a sharp or a flat is looked up with its accidental,
    whatever follows. *)
Lemma note_name_to_midi_accidental letter acc digits :
  acc = "#"%char \/ acc = "b"%char ->
  note_name_to_midi (String letter (String acc digits))
  = match pystr.int digits with
    | Some octave =>
        match notes_get notes (String letter (String acc "")) with
        | Some pc => Some (pc + (octave + 1) * 12)
        | None => None
        end
    | None => None
    end.
Proof.
  intros Hacc.
  assert (Hc : bool_decide (Some acc = Some "#"%char)
               || bool_decide (Some acc = Some "b"%char) = true).
  { apply orb_true_iff. destruct Hacc as [-> | ->];
      [left | right]; apply bool_decide_eq_true; reflexivity. }
  destruct digits as [|c d].
  - replace (pystr.int "") with (@None Z) by reflexivity.
    unfold note_name_to_midi. simpl.
    replace (pystr.int (String acc "")) with (@None Z); [reflexivity|].
    destruct Hacc as [-> | ->]; reflexivity.
  - unfold note_name_to_midi. simpl. rewrite Hc. simpl. reflexivity.
Qed.

Lemma notes_get_letter name pc :
  notes_get notes name = Some pc ->
  exists letter rest,
    name = String letter rest
    /\ In letter ["A"; "B"; "C"; "D"; "E"; "F"; "G"]%char.
Proof.
  unfold notes. cbn [notes_get].
  repeat match goal with
         | |- context [String.eqb ?k name] =>
             destruct (String.eqb_spec k name) as [<- | _];
             [intros _; eexists _, _; split; [reflexivity | cbn; tauto] |]
         end.
  discriminate.
Qed.

Lemma note_name_letter s n :
  note_name_to_midi s = Some n ->
  exists letter rest,
    s = String letter rest
    /\ In letter ["A"; "B"; "C"; "D"; "E"; "F"; "G"]%char.
Proof.
  intros H. apply note_name_to_midi_inv in H.
  destruct H as (name & pc & digits & octave & -> & Hname & _ & _).
  apply notes_get_letter in Hname.
  destruct Hname as (letter & rest & -> & Hin).
  exists letter, (String.append rest digits). rewrite append_String. auto.
Qed.

End Mapping.




(** ** The keyboard sink *)

Section Keyboard.

Import KeyboardEmulator.

(** Every call keeps the keys held down equal to the key on record. *)
Lemma emulator_step_recorded self held call :
  held = recorded_key self ->
  snd (emulator_step (self, held) call)
  = recorded_key (fst (emulator_step (self, held) call)).
Proof.
  intros ->. destruct call as [midi_note| |file]; cbn [emulator_step].
  - unfold press_key. destruct (available self); cbn [negb]; [|reflexivity].
    destruct (note_to_key_map self !! midi_note) as [key|]; [|reflexivity].
    unfold recorded_key.
    destruct (current_key self) as [k|] eqn:Ek.
    + destruct (decide (k = key)) as [->|Hne].
      * rewrite (bool_decide_eq_false_2 (key ≠ key)) by tauto.
        rewrite (bool_decide_eq_false_2 (Some key ≠ Some key)) by tauto.
        cbn. rewrite Ek. reflexivity.
      * rewrite (bool_decide_eq_true_2 (k ≠ key)) by exact Hne.
        rewrite (bool_decide_eq_true_2 (Some key ≠ Some k)) by congruence.
        cbn. set_solver.
    + rewrite (bool_decide_eq_true_2 (Some key ≠ None)) by discriminate.
      cbn. set_solver.
  - unfold release_key, recorded_key.
    destruct (available self); cbn [negb].
    + destruct (current_key self) as [k|] eqn:Ek; cbn; [set_solver|].
      rewrite Ek. reflexivity.
    + reflexivity.
  - destruct file; reflexivity.
Qed.

Lemma emulator_run_recorded calls :
  forall self held,
    held = recorded_key self ->
    snd (fold_left emulator_step calls (self, held))
    = recorded_key (fst (fold_left emulator_step calls (self, held))).
Proof.
  induction calls as [|call calls IH]; intros self held Hinv; [exact Hinv|].
  cbn [fold_left].
  pose proof (emulator_step_recorded self held call Hinv) as Hstep.
  destruct (emulator_step (self, held) call) as [self1 held1].
  apply IH. exact Hstep.
Qed.

Lemma size_recorded_key self : (size (recorded_key self) <= 1)%nat.
Proof.
  unfold recorded_key. destruct (current_key self).
  - rewrite size_singleton. lia.
  - rewrite size_empty. lia.
Qed.

End Keyboard.

(** C9.  Starting with no key down, after every sequence of calls to
    [press_key], [release_key] and [load_mapping] the keys held down are
    exactly the key on record in [current_key], so at most one; and when
    [press_key] presses a key other than the one it holds, it releases the
    held key first. *)
Theorem one_key_at_a_time :
  (forall available mapping calls,
      let start :=
        {| KeyboardEmulator.available := available;
           KeyboardEmulator.current_key := None;
           KeyboardEmulator.note_to_key_map := mapping |} in
      let final := fold_left emulator_step calls (start, ∅) in
      snd final = recorded_key (fst final) /\ (size (snd final) <= 1)%nat)
  /\ (forall self midi_note key k,
         KeyboardEmulator.available self = true ->
         KeyboardEmulator.note_to_key_map self !! midi_note = Some key ->
         KeyboardEmulator.current_key self = Some k ->
         k <> key ->
         KeyboardEmulator.press_key self midi_note
         = (true,
            {| KeyboardEmulator.available := true;
               KeyboardEmulator.current_key := Some key;
               KeyboardEmulator.note_to_key_map :=
                 KeyboardEmulator.note_to_key_map self |},
            [keyboard_release k; keyboard_press key])).
Proof.
  split.
  - intros available mapping calls start final.
    assert (H : snd final = recorded_key (fst final)).
    { apply emulator_run_recorded. reflexivity. }
    split; [exact H|]. rewrite H. apply size_recorded_key.
  - intros self midi_note key k Hav Hmap Hcur Hne.
    unfold KeyboardEmulator.press_key. rewrite Hav, Hmap, Hcur. cbn [negb].
    rewrite (bool_decide_eq_true_2 (k ≠ key)) by exact Hne.
    rewrite (bool_decide_eq_true_2 (Some key ≠ Some k)) by congruence.
    reflexivity.
Qed.

Lemma one_key_at_a_time_witness :
  KeyboardEmulator.press_key
    {| KeyboardEmulator.available := true;
       KeyboardEmulator.current_key := Some "a";
       KeyboardEmulator.note_to_key_map := <[62 := "s"]> (<[60 := "a"]> ∅) |}
    62
  = (true,
     {| KeyboardEmulator.available := true;
        KeyboardEmulator.current_key := Some "s";
        KeyboardEmulator.note_to_key_map := <[62 := "s"]> (<[60 := "a"]> ∅) |},
     [keyboard_release "a"; keyboard_press "s"]).
Proof.
  refine (proj2 one_key_at_a_time
            {| KeyboardEmulator.available := true;
               KeyboardEmulator.current_key := Some "a";
               KeyboardEmulator.note_to_key_map := <[62 := "s"]> (<[60 := "a"]> ∅) |}
            62 "s" "a" _ _ _ _).
  - reflexivity.
  - vm_compute. reflexivity.
  - reflexivity.
  - discriminate.
Defined.

(** ** The quantizer and the real logarithm *)

Section Quantizer.

Import AudioProcessor.
Local Open Scope R_scope.

Lemma ln_2_pos : 0 < ln 2.
Proof. pose proof ln_lt_2. lra. Qed.

Lemma ln_le x y : 0 < x -> x <= y -> ln x <= ln y.
Proof.
  intros Hx [Hlt | ->]; [|lra]. left. apply ln_increasing; assumption.
Qed.

Lemma powerRZ_2_pos k : 0 < powerRZ 2 k.
Proof. apply powerRZ_lt. lra. Qed.

Lemma powerRZ_2_nonneg k : (0 <= k)%Z -> powerRZ 2 k = IZR (2 ^ k).
Proof.
  intros Hk. rewrite <- (Z2Nat.id k Hk) at 2.
  rewrite <- pow_IZR. rewrite pow_powerRZ, Z2Nat.id by exact Hk. reflexivity.
Qed.

Lemma powerRZ_2_neg k : (k < 0)%Z -> powerRZ 2 k = / IZR (2 ^ (- k)).
Proof.
  intros Hk. rewrite <- powerRZ_2_nonneg by lia.
  rewrite <- powerRZ_neg'. f_equal. lia.
Qed.

Lemma powerRZ_2_succ k : powerRZ 2 (k + 1) = 2 * powerRZ 2 k.
Proof. rewrite powerRZ_add by lra. simpl. lra. Qed.

Lemma ln_powerRZ_2 k : ln (powerRZ 2 k) = IZR k * ln 2.
Proof. rewrite powerRZ_Rpower by lra. apply ln_Rpower. Qed.

Lemma pow2_mul_le_spec k a b :
  (0 < b)%Z -> pow2_mul_le k a b = true <-> powerRZ 2 k * IZR b <= IZR a.
Proof.
  intros Hb. unfold pow2_mul_le.
  destruct (Z.leb_spec 0 k) as [Hk|Hk].
  - rewrite powerRZ_2_nonneg by exact Hk. rewrite <- mult_IZR, Z.leb_le.
    split; [apply IZR_le | apply le_IZR].
  - rewrite powerRZ_2_neg by exact Hk. rewrite Z.leb_le.
    pose proof (Z.pow_pos_nonneg 2 (- k) ltac:(lia) ltac:(lia)) as Hp.
    assert (HP : 0 < IZR (2 ^ (- k))) by (apply IZR_lt; exact Hp).
    split.
    + intros H. apply IZR_le in H. rewrite mult_IZR in H.
      apply (Rmult_le_reg_l (IZR (2 ^ (- k)))); [exact HP|].
      rewrite <- Rmult_assoc, Rinv_r, Rmult_1_l by lra. exact H.
    + intros H. apply le_IZR. rewrite mult_IZR.
      apply (Rmult_le_compat_l (IZR (2 ^ (- k)))) in H; [|lra].
      rewrite <- Rmult_assoc, Rinv_r, Rmult_1_l in H by lra. exact H.
Qed.

Lemma pow2_mul_eq_spec k a b :
  (0 < b)%Z -> pow2_mul_eq k a b = true <-> powerRZ 2 k * IZR b = IZR a.
Proof.
  intros Hb. unfold pow2_mul_eq.
  destruct (Z.leb_spec 0 k) as [Hk|Hk].
  - rewrite powerRZ_2_nonneg by exact Hk. rewrite <- mult_IZR, Z.eqb_eq.
    split; [intros ->; reflexivity | apply eq_IZR].
  - rewrite powerRZ_2_neg by exact Hk. rewrite Z.eqb_eq.
    pose proof (Z.pow_pos_nonneg 2 (- k) ltac:(lia) ltac:(lia)) as Hp.
    assert (HP : 0 < IZR (2 ^ (- k))) by (apply IZR_lt; exact Hp).
    split.
    + intros H. apply (f_equal IZR) in H. rewrite mult_IZR in H.
      rewrite H. field. lra.
    + intros H. apply eq_IZR. rewrite mult_IZR. rewrite <- H. field. lra.
Qed.

Lemma log2_bounds a :
  (0 < a)%Z ->
  powerRZ 2 (Z.log2 a) <= IZR a < powerRZ 2 (Z.log2 a + 1).
Proof.
  intros Ha. destruct (Z.log2_spec a Ha) as [Hlo Hhi].
  pose proof (Z.log2_nonneg a) as Hn.
  rewrite !powerRZ_2_nonneg by lia.
  split; [apply IZR_le; exact Hlo | apply IZR_lt].
  replace (Z.log2 a + 1)%Z with (Z.succ (Z.log2 a)) by lia. exact Hhi.
Qed.

(** [floor_log2_ratio a b] is the integer [k] with [2^k <= a / b < 2^(k+1)]. *)
Lemma floor_log2_ratio_spec a b :
  (0 < a)%Z -> (0 < b)%Z ->
  let k := floor_log2_ratio a b in
  powerRZ 2 k * IZR b <= IZR a < powerRZ 2 (k + 1) * IZR b.
Proof.
  intros Ha Hb k. subst k. unfold floor_log2_ratio.
  destruct (log2_bounds a Ha) as [Hal Hah].
  destruct (log2_bounds b Hb) as [Hbl Hbh].
  set (la := Z.log2 a) in *. set (lb := Z.log2 b) in *.
  assert (Hsplit : powerRZ 2 la = powerRZ 2 (la - lb) * powerRZ 2 lb).
  { rewrite <- powerRZ_add by lra. f_equal. lia. }
  pose proof (powerRZ_2_pos (la - lb)) as Hp.
  pose proof (powerRZ_2_pos lb) as Hplb.
  assert (HB : 0 < IZR b) by (apply IZR_lt; exact Hb).
  rewrite powerRZ_2_succ in Hah, Hbh.
  destruct (pow2_mul_le (la - lb) a b) eqn:E.
  - apply pow2_mul_le_spec in E; [|exact Hb].
    split; [exact E|].
    rewrite powerRZ_2_succ. nra.
  - assert (E' : IZR a < powerRZ 2 (la - lb) * IZR b).
    { apply Rnot_le_lt. intros H. apply pow2_mul_le_spec in H; [|exact Hb]. congruence. }
    replace (la - lb - 1 + 1)%Z with (la - lb)%Z by lia.
    split; [|exact E'].
    assert (Hhalf : powerRZ 2 (la - lb) = 2 * powerRZ 2 (la - lb - 1)).
    { rewrite <- powerRZ_2_succ. f_equal. lia. }
    pose proof (powerRZ_2_pos (la - lb - 1)) as Hp'.
    nra.
Qed.

Lemma log2R_bounds k y :
  powerRZ 2 k <= y < powerRZ 2 (k + 1) ->
  IZR k <= log2R y < IZR k + 1.
Proof.
  intros [Hlo Hhi].
  pose proof (powerRZ_2_pos k) as Hk. pose proof ln_2_pos as HL.
  assert (Hy : 0 < y) by lra.
  pose proof (ln_le _ _ Hk Hlo) as H1.
  pose proof (ln_increasing _ _ Hy Hhi) as H2.
  rewrite ln_powerRZ_2 in H1, H2. rewrite plus_IZR in H2.
  unfold log2R.
  assert (Hq : ln y = ln y / ln 2 * ln 2) by (field; lra).
  set (q := ln y / ln 2) in *. nra.
Qed.

Lemma log2R_exact k y :
  0 < y -> (log2R y = IZR k <-> powerRZ 2 k = y).
Proof.
  intros Hy. pose proof ln_2_pos as HL. unfold log2R. split.
  - intros H. apply ln_inv; [apply powerRZ_2_pos | exact Hy|].
    rewrite ln_powerRZ_2. rewrite <- H. field. lra.
  - intros <-. rewrite ln_powerRZ_2. field. lra.
Qed.

(** The twelfth power of [f / 440] as a quotient of integers. *)
Lemma ratio_pow12 (f : Q) :
  (Q2R f / 440) ^ 12
  = IZR (Qnum f ^ 12) / IZR ((440 * Zpos (Qden f)) ^ 12).
Proof.
  change (Qnum f ^ 12)%Z with (Qnum f ^ Z.of_nat 12)%Z.
  change ((440 * Zpos (Qden f)) ^ 12)%Z with ((440 * Zpos (Qden f)) ^ Z.of_nat 12)%Z.
  rewrite <- !pow_IZR, mult_IZR. unfold Q2R.
  assert (Hd : IZR (Zpos (Qden f)) <> 0) by (apply not_0_IZR; discriminate).
  field. lra.
Qed.

Lemma semitone_real_ratio (f : Q) :
  (0 < f)%Q ->
  semitone_real (Q2R f)
  = 69 + log2R (IZR (Qnum f ^ 12) / IZR ((440 * Zpos (Qden f)) ^ 12)).
Proof.
  intros Hf. unfold semitone_real.
  assert (Hx : 0 < Q2R f / 440).
  { apply Rdiv_lt_0_compat; [|lra].
    replace 0 with (Q2R 0) by (unfold Q2R; simpl; lra).
    apply Qlt_Rlt. exact Hf. }
  rewrite <- ratio_pow12. unfold log2R. rewrite (ln_pow _ Hx 12).
  replace (INR 12) with 12 by (simpl; lra).
  pose proof ln_2_pos. field. lra.
Qed.

(** [int_semitone] is [69 + 12 * log2 (f / 440)] truncated toward zero. *)
Lemma int_semitone_is_trunc (f : Q) :
  (0 < f)%Q -> is_trunc (semitone_real (Q2R f)) (int_semitone f).
Proof.
  intros Hf. rewrite (semitone_real_ratio f Hf).
  unfold int_semitone.
  set (a := (Qnum f ^ 12)%Z). set (b := ((440 * Zpos (Qden f)) ^ 12)%Z).
  assert (Ha : (0 < a)%Z).
  { subst a. apply Z.pow_pos_nonneg; [|lia]. unfold Qlt in Hf. simpl in Hf. lia. }
  assert (Hb : (0 < b)%Z) by (subst b; apply Z.pow_pos_nonneg; lia).
  assert (HB : 0 < IZR b) by (apply IZR_lt; exact Hb).
  assert (HA : 0 < IZR a) by (apply IZR_lt; exact Ha).
  pose proof (floor_log2_ratio_spec a b Ha Hb) as Hk. cbv zeta in Hk.
  set (k := floor_log2_ratio a b) in *.
  assert (Hy : 0 < IZR a / IZR b) by (apply Rdiv_lt_0_compat; assumption).
  assert (Hq : IZR a = IZR a / IZR b * IZR b) by (field; lra).
  set (y := IZR a / IZR b) in *.
  pose proof (powerRZ_2_pos k) as Hpk.
  pose proof (powerRZ_2_pos (k + 1)) as Hpk1.
  assert (Hbounds : powerRZ 2 k <= y < powerRZ 2 (k + 1)) by (split; nra).
  pose proof (log2R_bounds k y Hbounds) as [Hlo Hhi].
  unfold is_trunc.
  destruct (Z.leb_spec 0 (69 + k)) as [Hnn|Hneg].
  - apply IZR_le in Hnn. rewrite plus_IZR in *. split; intros; lra.
  - assert (Hneg' : 69 + IZR k <= -1).
    { rewrite <- plus_IZR. apply IZR_le. lia. }
    destruct (pow2_mul_eq k a b) eqn:E.
    + apply pow2_mul_eq_spec in E; [|exact Hb].
      assert (Hex : log2R y = IZR k).
      { apply log2R_exact; [exact Hy|]. nra. }
      rewrite plus_IZR. split; intros; lra.
    + assert (Hne : log2R y <> IZR k).
      { intros H. apply log2R_exact in H; [|exact Hy].
        assert (powerRZ 2 k * IZR b = IZR a) by nra.
        apply pow2_mul_eq_spec in H0; [congruence | exact Hb]. }
      rewrite !plus_IZR. split; intros; lra.
Qed.

End Quantizer.

(** For a positive frequency [freq_to_midi], in exact arithmetic, returns
    the truncation of [69 + 12 * log2 (f / 440)] toward zero. *)
Lemma freq_to_midi_truncates (f : Q) :
  (0 < f)%Q ->
  exists z, AudioProcessor.freq_to_midi f = Returns (Some z)
            /\ is_trunc (semitone_real (Q2R f)) z.
Proof.
  intros Hf. exists (AudioProcessor.int_semitone f).
  split; [|apply int_semitone_is_trunc; exact Hf].
  unfold AudioProcessor.freq_to_midi.
  destruct (Qeq_bool f 0) eqn:E0.
  - apply Qeq_bool_iff in E0. rewrite E0 in Hf. discriminate.
  - destruct (Qle_bool f 0) eqn:E1; [|reflexivity].
    apply Qle_bool_iff in E1. exfalso. exact (Qlt_not_le _ _ Hf E1).
Qed.

(** The three values the specification lists. *)
Lemma freq_to_midi_examples :
  AudioProcessor.freq_to_midi (440 # 1) = Returns (Some 69)
  /\ AudioProcessor.freq_to_midi (220 # 1) = Returns (Some 57)
  /\ AudioProcessor.freq_to_midi (880 # 1) = Returns (Some 81).
Proof. vm_compute. auto. Qed.

(** C2.  At 460 Hz the quantizer returns 69, while
    [69 + 12 * log2 (460 / 440)] lies strictly between 69.5 and 70: the
    nearest semitone is 70, and 69 is not a nearest integer. *)
Theorem freq_460_truncated :
  AudioProcessor.freq_to_midi (460 # 1) = Returns (Some 69)
  /\ AudioProcessor.round_int 69 = 69
  /\ (69 + 1 / 2 < semitone_real 460 < 70)%R
  /\ is_nearest (semitone_real 460) 70
  /\ ~ is_nearest (semitone_real 460) 69.
Proof.
  assert (Hbounds : (69 + 1 / 2 < semitone_real 460 < 70)%R).
  { assert (Hq : Q2R (460 # 1) = 460%R) by (unfold Q2R; simpl; lra).
    pose proof (int_semitone_is_trunc (460 # 1) eq_refl) as [Hpos Hneg].
    rewrite Hq in Hpos, Hneg.
    replace (AudioProcessor.int_semitone (460 # 1)) with 69 in Hpos, Hneg
      by (vm_compute; reflexivity).
    split.
    - unfold semitone_real, log2R.
      assert (Hx : (0 < 460 / 440)%R) by lra.
      assert (Hpow : (2 < (460 / 440) ^ 24)%R) by lra.
      pose proof (ln_increasing 2 _ ltac:(lra) Hpow) as Hln.
      rewrite (ln_pow _ Hx 24) in Hln.
      replace (INR 24) with 24%R in Hln by (simpl; lra).
      pose proof ln_2_pos as HL.
      assert (Hdiv : (ln (460 / 440) = ln (460 / 440) / ln 2 * ln 2)%R) by (field; lra).
      set (q := (ln (460 / 440) / ln 2)%R) in *. nra.
    - destruct (Rle_dec 0 (semitone_real 460)) as [H|H].
      + specialize (Hpos H). lra.
      + assert (H' : (semitone_real 460 <= 0)%R) by lra. specialize (Hneg H'). lra. }
  split; [vm_compute; reflexivity|]. split; [reflexivity|].
  split; [exact Hbounds|]. unfold is_nearest. split.
  - rewrite Rabs_left1 by lra. lra.
  - rewrite Rabs_right by lra. lra.
Qed.

(* ================================================================== *)
(** * Further properties of the code *)

(** ** The processor *)

(** [process_audio_buffer] returns on every input: [freq_to_midi] is only
    called on a frequency above 20 Hz, where it neither returns [None] nor
    raises, and [most_common(1)[0]] is only taken on a window that has just
    received a note. *)
Theorem process_audio_buffer_never_raises (self : AudioProcessor.t) (f a : Q) :
  exists result self',
    AudioProcessor.process_audio_buffer self f a = Returns (result, self')
    /\ AudioProcessor.freq result = f /\ AudioProcessor.amplitude result = a
    /\ AudioProcessor.required_stability self' = AudioProcessor.required_stability self.
Proof.
  destruct (AudioProcessor.valid_signal f a) eqn:Hv.
  - destruct (process_audio_buffer_note self f a Hv) as (m & _ & _ & ->).
    destruct (AudioProcessor.required_stability self <=? _);
      eexists _, _; split; [reflexivity | auto | reflexivity | auto].
  - rewrite (process_audio_buffer_silence _ _ _ Hv).
    eexists _, _; split; [reflexivity | auto].
Qed.

Lemma feed_history_bounded blocks :
  forall self,
    (length (AudioProcessor.note_history self) <= AudioProcessor.maxlen)%nat ->
    (length (AudioProcessor.note_history (feed self blocks)) <= AudioProcessor.maxlen)%nat.
Proof.
  induction blocks as [|[f a] blocks IH]; intros self Hlen; [exact Hlen|].
  unfold feed. cbn [fold_left fst snd]. fold (feed).
  apply IH.
  destruct (AudioProcessor.valid_signal f a) eqn:Hv.
  - destruct (process_audio_buffer_note self f a Hv) as (m & _ & _ & ->).
    destruct (AudioProcessor.required_stability self <=? _); simpl;
      apply length_deque_append; exact Hlen.
  - rewrite (process_audio_buffer_silence _ _ _ Hv). simpl. lia.
Qed.

(** The window never holds more than ten notes: after [__init__] or
    [reset], whatever blocks are processed, and from any processor whose
    window is within the bound. *)
Theorem note_history_bounded :
  (forall stability_threshold blocks,
      (length (AudioProcessor.note_history
                 (feed (AudioProcessor.init stability_threshold) blocks)) <= 10)%nat)
  /\ (forall self blocks,
         (length (AudioProcessor.note_history
                    (feed (AudioProcessor.reset self) blocks)) <= 10)%nat)
  /\ (forall self blocks,
         (length (AudioProcessor.note_history self) <= 10)%nat ->
         (length (AudioProcessor.note_history (feed self blocks)) <= 10)%nat).
Proof.
  split; [|split].
  - intros r blocks. apply (feed_history_bounded blocks). simpl.
    unfold AudioProcessor.maxlen. lia.
  - intros self blocks. apply (feed_history_bounded blocks). simpl.
    unfold AudioProcessor.maxlen. lia.
  - intros self blocks. apply (feed_history_bounded blocks).
Qed.

Lemma note_history_bounded_witness :
  (length (AudioProcessor.note_history
             (feed {| AudioProcessor.note_history := [60; 60; 61]%Z;
                      AudioProcessor.required_stability := 5%Z;
                      AudioProcessor.current_note := None;
                      AudioProcessor.current_stable_note := None |}
                   alternation)) <= 10)%nat.
Proof.
  apply (proj2 (proj2 note_history_bounded)). simpl. lia.
Defined.

(** What a result says.  A result is valid exactly when it carries a note;
    a new note is always valid; and the note carried is a note of the
    window that occurs there at least [required_stability] times and at
    least as often as any other, is the stable note from then on, and is
    new exactly when it differs from the stable note held before. *)
Theorem valid_result_is_majority (self self' : AudioProcessor.t) (f a : Q)
    (result : AudioProcessor.Result) :
  AudioProcessor.process_audio_buffer self f a = Returns (result, self') ->
  (AudioProcessor.is_valid result = true <-> AudioProcessor.midi_note result <> None)
  /\ (AudioProcessor.is_new_note result = true -> AudioProcessor.is_valid result = true)
  /\ forall m,
       AudioProcessor.midi_note result = Some m ->
       In m (AudioProcessor.note_history self')
       /\ AudioProcessor.required_stability self
          <= count m (AudioProcessor.note_history self')
       /\ (forall y, count y (AudioProcessor.note_history self')
                     <= count m (AudioProcessor.note_history self'))
       /\ AudioProcessor.current_stable_note self' = Some m
       /\ (AudioProcessor.is_new_note result = true
           <-> AudioProcessor.current_stable_note self <> Some m).
Proof.
  destruct (AudioProcessor.valid_signal f a) eqn:Hv.
  - destruct (process_audio_buffer_note self f a Hv) as (m & Hin & Hmax & ->).
    destruct (Z.leb_spec (AudioProcessor.required_stability self)
                (count m (collections.deque_append AudioProcessor.maxlen
                            (AudioProcessor.note_history self)
                            (AudioProcessor.int_semitone f)))) as [Hle|Hgt];
      intros [= <- <-]; simpl.
    + split; [split; [discriminate | reflexivity]|].
      split; [reflexivity|].
      intros m' [= <-]. repeat split; try assumption.
      * intros Hnew Hst. rewrite Hst in Hnew.
        rewrite bool_decide_eq_true_2 in Hnew by reflexivity. discriminate.
      * intros Hst. rewrite bool_decide_eq_false_2; [reflexivity | congruence].
    + split; [split; [discriminate | congruence]|].
      split; [discriminate | discriminate].
  - rewrite (process_audio_buffer_silence _ _ _ Hv). intros [= <- <-]. simpl.
    split; [split; [discriminate | congruence]|].
    split; [discriminate | discriminate].
Qed.

Lemma valid_result_is_majority_witness :
  AudioProcessor.is_valid
    {| AudioProcessor.is_valid := true; AudioProcessor.midi_note := Some 60;
       AudioProcessor.is_new_note := true;
       AudioProcessor.freq := 270 # 1; AudioProcessor.amplitude := 1 # 10 |} = true
  <-> AudioProcessor.midi_note
        {| AudioProcessor.is_valid := true; AudioProcessor.midi_note := Some 60;
           AudioProcessor.is_new_note := true;
           AudioProcessor.freq := 270 # 1; AudioProcessor.amplitude := 1 # 10 |} <> None.
Proof.
  refine (proj1 (valid_result_is_majority
                   {| AudioProcessor.note_history := [60; 60; 62; 60];
                      AudioProcessor.required_stability := 4;
                      AudioProcessor.current_note := None;
                      AudioProcessor.current_stable_note := None |}
                   {| AudioProcessor.note_history := [60; 60; 62; 60; 60];
                      AudioProcessor.required_stability := 4;
                      AudioProcessor.current_note := None;
                      AudioProcessor.current_stable_note := Some 60 |}
                   (270 # 1) (1 # 10) _ _)).
  vm_compute. reflexivity.
Defined.

Lemma silence_emits_note_off_witness :
  MidiModeWindow.process_audio_block 0 holding_60 0 0
  = ({| MidiModeWindow.audio_processor :=
          {| AudioProcessor.note_history := [];
             AudioProcessor.required_stability :=
               AudioProcessor.required_stability (MidiModeWindow.audio_processor holding_60);
             AudioProcessor.current_note :=
               AudioProcessor.current_note (MidiModeWindow.audio_processor holding_60);
             AudioProcessor.current_stable_note := None |};
        MidiModeWindow.current_note := None;
        MidiModeWindow.running := MidiModeWindow.running holding_60 |},
     [midi_output_send (note_off 60 0); note_off_signal]).
Proof.
  apply (silence_emits_note_off 0 holding_60 0 0 60).
  - reflexivity.
  - vm_compute. reflexivity.
  - lia.
  - lia.
Defined.

(** ** The quantizer as a function of the frequency *)

Lemma is_trunc_mono x y z w :
  is_trunc x z -> is_trunc y w -> (x <= y)%R -> z <= w.
Proof.
  intros [Hxp Hxn] [Hyp Hyn] Hxy.
  destruct (Rle_dec 0 x) as [Hx|Hx]; destruct (Rle_dec 0 y) as [Hy|Hy].
  - specialize (Hxp Hx). specialize (Hyp Hy).
    apply Z.lt_succ_r. apply lt_IZR. rewrite succ_IZR. lra.
  - lra.
  - assert (Hx' : (x <= 0)%R) by lra. specialize (Hxn Hx'). specialize (Hyp Hy).
    assert (z <= 0) by (apply Z.lt_succ_r; apply lt_IZR; rewrite succ_IZR; lra).
    assert (0 <= w) by (apply Z.lt_succ_r; apply lt_IZR; rewrite succ_IZR; lra).
    lia.
  - assert (Hx' : (x <= 0)%R) by lra. assert (Hy' : (y <= 0)%R) by lra.
    specialize (Hxn Hx'). specialize (Hyn Hy').
    apply Z.lt_succ_r. apply lt_IZR. rewrite succ_IZR. lra.
Qed.

Lemma semitone_real_mono x y :
  (0 < x)%R -> (x <= y)%R -> (semitone_real x <= semitone_real y)%R.
Proof.
  intros Hx Hxy. unfold semitone_real, log2R.
  pose proof ln_2_pos as HL.
  assert (Hln : (ln (x / 440) <= ln (y / 440))%R).
  { apply ln_le; [apply Rdiv_lt_0_compat; lra|].
    apply Rmult_le_compat_r; [|exact Hxy]. lra. }
  assert (Hq : (ln (x / 440) / ln 2 <= ln (y / 440) / ln 2)%R).
  { apply Rmult_le_compat_r; [|exact Hln]. left. apply Rinv_0_lt_compat. exact HL. }
  lra.
Qed.

Lemma Q2R_pos (f : Q) : (0 < f)%Q -> (0 < Q2R f)%R.
Proof.
  intros Hf. replace 0%R with (Q2R 0) by (unfold Q2R; simpl; lra).
  apply Qlt_Rlt. exact Hf.
Qed.

Lemma int_semitone_mono (f g : Q) :
  (0 < f)%Q -> (f <= g)%Q ->
  AudioProcessor.int_semitone f <= AudioProcessor.int_semitone g.
Proof.
  intros Hf Hfg.
  assert (Hg : (0 < g)%Q) by (eapply Qlt_le_trans; eassumption).
  apply (is_trunc_mono (semitone_real (Q2R f)) (semitone_real (Q2R g))).
  - apply int_semitone_is_trunc. exact Hf.
  - apply int_semitone_is_trunc. exact Hg.
  - apply semitone_real_mono; [apply Q2R_pos; exact Hf | apply Qle_Rle; exact Hfg].
Qed.

Lemma audible_note_low (f a : Q) :
  AudioProcessor.valid_signal f a = true -> 15 <= AudioProcessor.int_semitone f.
Proof.
  intros Hv. apply valid_signal_true in Hv as [_ Hf].
  unfold AudioProcessor.silence_frequency_floor in Hf.
  change 15 with (AudioProcessor.int_semitone (20 # 1)).
  apply int_semitone_mono; [reflexivity | apply Qlt_le_weak; exact Hf].
Qed.

(** Past the silence gate the note is at least 15, and up to 13289 Hz it is
    at most 127: every audible frequency up to 13289 Hz gives a note that
    [mido] accepts. *)
Theorem audible_note_range (f a : Q) :
  AudioProcessor.valid_signal f a = true ->
  15 <= AudioProcessor.int_semitone f
  /\ ((f <= 13289 # 1)%Q ->
      AudioProcessor.int_semitone f <= 127
      /\ MidiModeWindow.data_byte (AudioProcessor.int_semitone f) = true).
Proof.
  intros Hv. pose proof (audible_note_low f a Hv) as Hlow.
  apply valid_signal_true in Hv as [_ Hf].
  unfold AudioProcessor.silence_frequency_floor in Hf.
  split; [exact Hlow|].
  intros Hhigh.
  assert (Hup : AudioProcessor.int_semitone f <= 127).
  { replace 127 with (AudioProcessor.int_semitone (13289 # 1)) by (vm_compute; reflexivity).
    apply int_semitone_mono; [|exact Hhigh].
    apply Qlt_trans with (20 # 1); [reflexivity | exact Hf]. }
  split; [exact Hup|].
  unfold MidiModeWindow.data_byte. rewrite andb_true_iff, !Z.leb_le. lia.
Qed.

Lemma audible_note_range_witness :
  15 <= AudioProcessor.int_semitone (21 # 1)
  /\ ((21 # 1 <= 13289 # 1)%Q ->
      AudioProcessor.int_semitone (21 # 1) <= 127
      /\ MidiModeWindow.data_byte (AudioProcessor.int_semitone (21 # 1)) = true).
Proof. apply (audible_note_range (21 # 1) (1 # 10)). reflexivity. Defined.

(** ** The MIDI receiver *)

Section Receiver.

Import AudioProcessor MidiModeWindow.

Lemma sent_app xs ys : sent (xs ++ ys) = sent xs ++ sent ys.
Proof.
  induction xs as [|x xs IH]; simpl; [reflexivity|].
  destruct x; simpl; rewrite ?IH; reflexivity.
Qed.

Lemma sounding_after_app S xs ys :
  sounding_after S (xs ++ ys) = sounding_after (sounding_after S xs) ys.
Proof. unfold sounding_after. apply fold_left_app. Qed.

Lemma never_two_on_app xs :
  forall S ys,
    never_two_on S (xs ++ ys)
    <-> never_two_on S xs /\ never_two_on (sounding_after S xs) ys.
Proof.
  induction xs as [|x xs IH]; intros S ys.
  - simpl. destruct ys; simpl; tauto.
  - cbn [app never_two_on]. rewrite IH.
    change (sounding_after S (x :: xs)) with (sounding_after (receive S x) xs). tauto.
Qed.

Lemma midi_consistent_size midi_channel w S :
  midi_consistent midi_channel w S -> (size S <= 1)%nat.
Proof.
  unfold midi_consistent.
  destruct (current_note w) as [c|].
  - intros [_ H]. destruct (running w); subst S.
    + rewrite size_singleton. lia.
    + rewrite size_empty. lia.
  - intros ->. rewrite size_empty. lia.
Qed.

(** One pass keeps the record and the receiver in agreement, and never has
    two notes on. *)
Lemma process_audio_block_consistent midi_channel w f a S :
  running w = true ->
  midi_consistent midi_channel w S ->
  midi_consistent midi_channel (fst (process_audio_block midi_channel w f a))
    (sounding_after S (sent (snd (process_audio_block midi_channel w f a))))
  /\ never_two_on S (sent (snd (process_audio_block midi_channel w f a))).
Proof.
  intros Hrun Hinv.
  pose proof (midi_consistent_size _ _ _ Hinv) as Hsize.
  unfold midi_consistent in Hinv. rewrite Hrun in Hinv.
  unfold process_audio_block.
  destruct (process_audio_buffer_returns (audio_processor w) f a)
    as (result & ap & ->).
  destruct result as [valid note new fr am].
  cbn [is_valid midi_note is_new_note current_note running].
  unfold Message_note_off, Message_note_on, on_exception, midi_consistent.
  destruct (current_note w) as [c|] eqn:Ec.
  - destruct Hinv as [Hc ->].
    assert (Hch : channel_ok midi_channel = true)
      by (apply andb_true_iff in Hc; tauto).
    assert (Hs1 : (size ({[(midi_channel, c)]} : gset (Z * Z)) <= 1)%nat)
      by (rewrite size_singleton; lia).
    assert (Hs0 : (size (∅ : gset (Z * Z)) <= 1)%nat)
      by (rewrite size_empty; lia).
    assert (Hoff : ({[(midi_channel, c)]} ∖ {[(midi_channel, c)]} : gset (Z * Z)) = ∅)
      by set_solver.
    destruct valid, note as [m|], new; cbn [negb]; rewrite ?Hc;
      cbn [fst snd sent sounding_after fold_left receive never_two_on
           current_note running app];
      rewrite ?Hrun, ?Ec, ?Hoff; try (split; [split; [exact Hc | reflexivity] | tauto]);
      try (split; [reflexivity | tauto]).
    destruct (data_byte m && data_byte 64 && channel_ok midi_channel) eqn:Hm;
      cbn [fst snd sent sounding_after fold_left receive never_two_on
           current_note running app];
      rewrite ?Ec, ?Hoff.
    + assert (Hm' : data_byte m && channel_ok midi_channel = true).
      { rewrite !andb_true_iff in *. tauto. }
      rewrite ?Hrun.
      replace ({[(midi_channel, m)]} ∪ ∅ : gset (Z * Z)) with
        ({[(midi_channel, m)]} : gset (Z * Z)) by set_solver.
      assert (Hsm : (size ({[(midi_channel, m)]} : gset (Z * Z)) <= 1)%nat)
        by (rewrite size_singleton; lia).
      split; [split; [exact Hm' | reflexivity] | tauto].
    + split; [split; [exact Hc | reflexivity] | tauto].
  - subst S.
    assert (Hs0 : (size (∅ : gset (Z * Z)) <= 1)%nat)
      by (rewrite size_empty; lia).
    destruct valid, note as [m|], new; cbn [negb];
      cbn [fst snd sent sounding_after fold_left receive never_two_on
           current_note running app];
      rewrite ?Ec; try (split; [reflexivity | tauto]).
    destruct (data_byte m && data_byte 64 && channel_ok midi_channel) eqn:Hm;
      cbn [fst snd sent sounding_after fold_left receive never_two_on
           current_note running app];
      rewrite ?Ec.
    + assert (Hm' : data_byte m && channel_ok midi_channel = true).
      { rewrite !andb_true_iff in *. tauto. }
      rewrite ?Hrun.
      replace ({[(midi_channel, m)]} ∪ ∅ : gset (Z * Z)) with
        ({[(midi_channel, m)]} : gset (Z * Z)) by set_solver.
      assert (Hsm : (size ({[(midi_channel, m)]} : gset (Z * Z)) <= 1)%nat)
        by (rewrite size_singleton; lia).
      split; [split; [exact Hm' | reflexivity] | tauto].
    + split; [reflexivity | tauto].
Qed.

End Receiver.

Lemma process_audio_consistent midi_channel blocks :
  forall w S,
    midi_consistent midi_channel w S ->
    midi_consistent midi_channel
      (fst (MidiModeWindow.process_audio midi_channel w blocks))
      (sounding_after S
         (run_messages (snd (MidiModeWindow.process_audio midi_channel w blocks))))
    /\ never_two_on S
         (run_messages (snd (MidiModeWindow.process_audio midi_channel w blocks))).
Proof.
  induction blocks as [|[f a] blocks IH]; intros w S Hinv.
  - simpl. split; [exact Hinv|].
    split; [apply (midi_consistent_size _ _ _ Hinv) | exact I].
  - cbn [MidiModeWindow.process_audio].
    destruct (MidiModeWindow.running w) eqn:Hrun.
    + destruct (process_audio_block_consistent midi_channel w f a S Hrun Hinv)
        as [Hinv1 Hnever1].
      destruct (MidiModeWindow.process_audio_block midi_channel w f a) as [w1 acts].
      cbn [fst snd] in Hinv1, Hnever1.
      destruct (IH w1 _ Hinv1) as [Hinv2 Hnever2].
      destruct (MidiModeWindow.process_audio midi_channel w1 blocks) as [w2 rest].
      cbn [fst snd] in *.
      unfold run_messages in *. cbn [concat]. rewrite sent_app.
      rewrite sounding_after_app. split; [exact Hinv2|].
      apply never_two_on_app. split; assumption.
    + simpl. split; [exact Hinv|].
      split; [apply (midi_consistent_size _ _ _ Hinv) | exact I].
Qed.

(** In a session of the MIDI window, whatever blocks the loop processes,
    the messages it sends never leave two notes on at the same time: the
    note-off of the previous note always comes before the next note-on. *)
Theorem midi_never_two_notes_on (midi_channel : Z) (w : MidiModeWindow.t)
    (blocks : list (Q * Q)) :
  never_two_on ∅
    (run_messages
       (snd (MidiModeWindow.process_audio midi_channel
               (MidiModeWindow.start_processing w) blocks))).
Proof.
  apply process_audio_consistent. reflexivity.
Qed.

(** Stopping such a session on the channel it was started with does not
    raise and leaves no note on: the note on record is turned off, and a
    loop that stopped on a rejected message had no note on. *)
Theorem midi_stop_leaves_no_note_on (midi_channel : Z) (w : MidiModeWindow.t)
    (blocks : list (Q * Q)) :
  let run := MidiModeWindow.process_audio midi_channel
               (MidiModeWindow.start_processing w) blocks in
  exists w' effects,
    MidiModeWindow.stop_processing (fst run) midi_channel = Returns (w', effects)
    /\ MidiModeWindow.running w' = false
    /\ sounding_after ∅ (run_messages (snd run) ++ sent (effect_actions effects)) = ∅.
Proof.
  intros run.
  destruct (process_audio_consistent midi_channel blocks
              (MidiModeWindow.start_processing w) ∅ eq_refl) as [Hinv _].
  fold run in Hinv.
  set (S := sounding_after ∅ (run_messages (snd run))) in *.
  unfold midi_consistent in Hinv. unfold MidiModeWindow.stop_processing.
  destruct (MidiModeWindow.running (fst run)) eqn:Hrun.
  - destruct (MidiModeWindow.current_note (fst run)) as [c|].
    + destruct Hinv as [Hc HS]. unfold MidiModeWindow.Message_note_off. rewrite Hc.
      eexists _, _. split; [reflexivity|]. split; [reflexivity|].
      rewrite sounding_after_app. fold S. rewrite HS. simpl. set_solver.
    + eexists _, _. split; [reflexivity|]. split; [reflexivity|].
      rewrite sounding_after_app. exact Hinv.
  - eexists _, _. split; [reflexivity|]. split; [exact Hrun|].
    rewrite sounding_after_app. fold S. simpl.
    destruct (MidiModeWindow.current_note (fst run)) as [c|]; [|exact Hinv].
    destruct Hinv as [_ Hinv]. exact Hinv.
Qed.

(** ** The keys held during a keyboard session *)

Section KeyboardSession.

Import KeyboardModeWindow.

Lemma held_after_app held xs ys :
  held_after held (xs ++ ys) = held_after (held_after held xs) ys.
Proof.
  revert held. induction xs as [|x xs IH]; intros held; [reflexivity|].
  destruct x; simpl; apply IH.
Qed.

Lemma keyboard_block_running self f a :
  running (fst (process_audio_block self f a)) = running self.
Proof.
  unfold process_audio_block.
  destruct (process_audio_buffer_returns (audio_processor self) f a)
    as (result & ap & ->).
  destruct result as [valid note new fr am].
  cbn [AudioProcessor.is_valid AudioProcessor.midi_note AudioProcessor.is_new_note].
  destruct valid, note as [m|], new, (current_note self) as [c|]; cbn [negb];
    try reflexivity;
    try (destruct (KeyboardEmulator.press_key (keyboard_emulator self) m) as [[? ?] ?];
         reflexivity);
    destruct (KeyboardEmulator.release_key (keyboard_emulator self)); reflexivity.
Qed.

Lemma press_key_available self m :
  KeyboardEmulator.available (snd (fst (KeyboardEmulator.press_key self m)))
  = KeyboardEmulator.available self
  /\ (KeyboardEmulator.available self = false ->
      snd (fst (KeyboardEmulator.press_key self m)) = self).
Proof.
  unfold KeyboardEmulator.press_key.
  destruct (KeyboardEmulator.available self) eqn:Hav; cbn [negb fst snd].
  - split; [|discriminate].
    destruct (KeyboardEmulator.note_to_key_map self !! m) as [key|];
      cbn [fst snd]; [|exact Hav].
    destruct (bool_decide (Some key ≠ KeyboardEmulator.current_key self));
      cbn [fst snd KeyboardEmulator.available]; [reflexivity | exact Hav].
  - split; [exact Hav | reflexivity].
Qed.

Lemma release_key_available self :
  KeyboardEmulator.available (fst (KeyboardEmulator.release_key self))
  = KeyboardEmulator.available self
  /\ (KeyboardEmulator.available self = false ->
      fst (KeyboardEmulator.release_key self) = self).
Proof.
  unfold KeyboardEmulator.release_key.
  destruct (KeyboardEmulator.available self) eqn:Hav; cbn [negb fst snd].
  - split; [|discriminate].
    destruct (KeyboardEmulator.current_key self);
      cbn [fst snd KeyboardEmulator.available]; [reflexivity | exact Hav].
  - split; [exact Hav | reflexivity].
Qed.

(** One pass keeps [available], and without the [keyboard] module it leaves
    the emulator as it is. *)
Lemma keyboard_block_emulator self f a :
  KeyboardEmulator.available (keyboard_emulator (fst (process_audio_block self f a)))
  = KeyboardEmulator.available (keyboard_emulator self)
  /\ (KeyboardEmulator.available (keyboard_emulator self) = false ->
      keyboard_emulator (fst (process_audio_block self f a)) = keyboard_emulator self).
Proof.
  unfold process_audio_block.
  destruct (process_audio_buffer_returns (audio_processor self) f a)
    as (result & ap & ->).
  destruct result as [valid note new fr am].
  cbn [AudioProcessor.is_valid AudioProcessor.midi_note AudioProcessor.is_new_note].
  pose proof (release_key_available (keyboard_emulator self)) as Hr.
  destruct valid, note as [m|], new, (current_note self) as [c|]; cbn [negb];
    try (split; [reflexivity | reflexivity]);
    try (pose proof (press_key_available (keyboard_emulator self) m) as Hp;
         destruct (KeyboardEmulator.press_key (keyboard_emulator self) m) as [[? ?] ?];
         exact Hp);
    destruct (KeyboardEmulator.release_key (keyboard_emulator self)); exact Hr.
Qed.

(** One pass keeps the keys held equal to the key on record. *)
Lemma keyboard_block_recorded self f a held :
  held = recorded_key (keyboard_emulator self) ->
  held_after held (snd (process_audio_block self f a))
  = recorded_key (keyboard_emulator (fst (process_audio_block self f a))).
Proof.
  intros Hheld. unfold process_audio_block.
  destruct (process_audio_buffer_returns (audio_processor self) f a)
    as (result & ap & ->).
  destruct result as [valid note new fr am].
  cbn [AudioProcessor.is_valid AudioProcessor.midi_note AudioProcessor.is_new_note].
  pose proof (fun n => emulator_step_recorded (keyboard_emulator self) held
                         (call_press_key n) Hheld) as Hpress.
  pose proof (emulator_step_recorded (keyboard_emulator self) held
                call_release_key Hheld) as Hrelease.
  cbn [emulator_step] in Hpress, Hrelease.
  assert (Hp : forall m,
             held_after held (snd (KeyboardEmulator.press_key (keyboard_emulator self) m))
             = recorded_key (snd (fst (KeyboardEmulator.press_key (keyboard_emulator self) m)))).
  { intros m. specialize (Hpress m).
    destruct (KeyboardEmulator.press_key (keyboard_emulator self) m) as [[? ?] ?].
    exact Hpress. }
  assert (Hr : held_after held (snd (KeyboardEmulator.release_key (keyboard_emulator self)))
               = recorded_key (fst (KeyboardEmulator.release_key (keyboard_emulator self)))).
  { destruct (KeyboardEmulator.release_key (keyboard_emulator self)). exact Hrelease. }
  destruct valid, note as [m|], new, (current_note self) as [c|]; cbn [negb];
    try exact Hheld;
    try (specialize (Hp m);
         destruct (KeyboardEmulator.press_key (keyboard_emulator self) m) as [[? ?] ?];
         cbn [fst snd] in *; rewrite held_after_app; exact Hp);
    destruct (KeyboardEmulator.release_key (keyboard_emulator self));
    cbn [fst snd] in *; rewrite held_after_app; exact Hr.
Qed.

Lemma keyboard_run_recorded blocks :
  forall self held,
    held = recorded_key (keyboard_emulator self) ->
    held_after held (concat (snd (process_audio self blocks)))
    = recorded_key (keyboard_emulator (fst (process_audio self blocks)))
    /\ running (fst (process_audio self blocks)) = running self
    /\ KeyboardEmulator.available (keyboard_emulator (fst (process_audio self blocks)))
       = KeyboardEmulator.available (keyboard_emulator self)
    /\ (KeyboardEmulator.available (keyboard_emulator self) = false ->
        keyboard_emulator (fst (process_audio self blocks)) = keyboard_emulator self).
Proof.
  induction blocks as [|[f a] blocks IH]; intros self held Hheld.
  - simpl. auto.
  - cbn [process_audio]. destruct (running self) eqn:Hrun; [|simpl; auto].
    pose proof (keyboard_block_recorded self f a held Hheld) as Hstep.
    pose proof (keyboard_block_running self f a) as Hrun1.
    destruct (keyboard_block_emulator self f a) as [Hav1 Hsame1].
    destruct (process_audio_block self f a) as [self1 acts].
    cbn [fst snd] in Hstep, Hrun1, Hav1, Hsame1.
    destruct (IH self1 _ Hstep) as (IH1 & IH2 & IH3 & IH4).
    destruct (process_audio self1 blocks) as [self2 rest].
    cbn [fst snd concat] in *. rewrite held_after_app.
    split; [exact IH1|]. split; [congruence|]. split; [congruence|].
    intros Hav. rewrite IH4 by congruence. apply Hsame1. exact Hav.
Qed.

End KeyboardSession.

(** In a session of the keyboard window started with no key on record,
    whatever blocks the loop processes, the keys held down are the key on
    record, at most one, and [stop_processing] leaves no key down. *)
Theorem keyboard_session_releases_key (w : KeyboardModeWindow.t)
    (blocks : list (Q * Q)) :
  KeyboardEmulator.current_key (KeyboardModeWindow.keyboard_emulator w) = None ->
  let run := KeyboardModeWindow.process_audio
               (KeyboardModeWindow.start_processing w) blocks in
  let held := held_after ∅ (concat (snd run)) in
  held = recorded_key (KeyboardModeWindow.keyboard_emulator (fst run))
  /\ (size held <= 1)%nat
  /\ (KeyboardModeWindow.running (fst run) = true ->
      held_after held
        (effect_actions (snd (KeyboardModeWindow.stop_processing (fst run)))) = ∅
      /\ KeyboardModeWindow.running
           (fst (KeyboardModeWindow.stop_processing (fst run))) = false).
Proof.
  intros Hkey run held.
  assert (Hstart : (∅ : gset string)
                   = recorded_key (KeyboardModeWindow.keyboard_emulator
                                     (KeyboardModeWindow.start_processing w))).
  { unfold KeyboardModeWindow.start_processing, recorded_key.
    destruct (negb _); cbn; rewrite Hkey; reflexivity. }
  destruct (keyboard_run_recorded blocks _ _ Hstart) as (Hheld & _ & _ & Hsame).
  fold run in Hheld, Hsame. fold held in Hheld.
  split; [exact Hheld|]. split; [rewrite Hheld; apply size_recorded_key|].
  intros Hrun. unfold KeyboardModeWindow.stop_processing. rewrite Hrun.
  pose proof (emulator_step_recorded
                (KeyboardModeWindow.keyboard_emulator (fst run)) held
                call_release_key Hheld) as Hrel.
  cbn [emulator_step] in Hrel.
  destruct (KeyboardEmulator.release_key
              (KeyboardModeWindow.keyboard_emulator (fst run))) as [ke calls] eqn:Er.
  cbn [fst snd] in *. split; [|reflexivity].
  assert (Hacts : effect_actions
                    (map effect_action calls
                       ++ [effect_clear_note_display;
                           effect_status "Processing stopped."]) = calls).
  { clear. induction calls as [|c calls IH]; simpl; [reflexivity | rewrite IH; reflexivity]. }
  rewrite Hacts, Hrel.
  unfold KeyboardEmulator.release_key in Er.
  destruct (KeyboardEmulator.available
              (KeyboardModeWindow.keyboard_emulator (fst run))) eqn:Hav; cbn [negb] in Er.
  - destruct (KeyboardEmulator.current_key
                (KeyboardModeWindow.keyboard_emulator (fst run))) as [k|] eqn:Ek;
      injection Er as <- <-; unfold recorded_key; cbn; rewrite ?Ek; reflexivity.
  - injection Er as <- <-.
    destruct (KeyboardEmulator.available
                (KeyboardModeWindow.keyboard_emulator
                   (KeyboardModeWindow.start_processing w))) eqn:Hav0.
    + destruct (keyboard_run_recorded blocks _ _ Hstart) as (_ & _ & Havr & _).
      fold run in Havr. congruence.
    + rewrite (Hsame eq_refl). symmetry. exact Hstart.
Qed.

Lemma keyboard_session_releases_key_witness :
  (size (held_after ∅
           (concat (snd (KeyboardModeWindow.process_audio
                           (KeyboardModeWindow.start_processing keyboard_session)
                           drift)))) <= 1)%nat.
Proof.
  refine (proj1 (proj2 (keyboard_session_releases_key keyboard_session drift _))).
  reflexivity.
Defined.

(** ** A required stability above the window *)

Lemma required_stability_kept self f a result self' :
  AudioProcessor.process_audio_buffer self f a = Returns (result, self') ->
  AudioProcessor.required_stability self' = AudioProcessor.required_stability self.
Proof.
  destruct (AudioProcessor.valid_signal f a) eqn:Hv.
  - destruct (process_audio_buffer_note self f a Hv) as (m & _ & _ & ->).
    destruct (AudioProcessor.required_stability self <=? _);
      intros [= <- <-]; reflexivity.
  - rewrite (process_audio_buffer_silence _ _ _ Hv). intros [= <- <-]. reflexivity.
Qed.


(** With the stability control above ten, a session never sends a message
    nor emits a signal, whatever is played. *)
Theorem stability_above_window_is_dead (midi_channel : Z) (w : MidiModeWindow.t)
    (blocks : list (Q * Q)) :
  10 < AudioProcessor.required_stability (MidiModeWindow.audio_processor w) ->
  Forall (fun acts => acts = [])
    (snd (MidiModeWindow.process_audio midi_channel
            (MidiModeWindow.start_processing w) blocks))
  /\ length (snd (MidiModeWindow.process_audio midi_channel
                    (MidiModeWindow.start_processing w) blocks)) = length blocks.
Proof.
  intros Hr.
  assert (G : forall bs ap,
             10 < AudioProcessor.required_stability ap ->
             (length (AudioProcessor.note_history ap) <= AudioProcessor.maxlen)%nat ->
             Forall (fun acts => acts = [])
               (snd (MidiModeWindow.process_audio midi_channel
                       {| MidiModeWindow.audio_processor := ap;
                          MidiModeWindow.current_note := None;
                          MidiModeWindow.running := true |} bs))
             /\ length (snd (MidiModeWindow.process_audio midi_channel
                               {| MidiModeWindow.audio_processor := ap;
                                  MidiModeWindow.current_note := None;
                                  MidiModeWindow.running := true |} bs)) = length bs).
  { induction bs as [|[f a] bs IH]; intros ap Hap Hlen.
    - simpl. split; [apply Forall_nil_2 | reflexivity].
    - cbn [MidiModeWindow.process_audio MidiModeWindow.running].
      destruct (no_stable_note_above_window ap f a) as (result & ap' & Hbuf & Hinv & Hlen');
        [unfold AudioProcessor.maxlen; lia | exact Hlen |].
      pose proof (required_stability_kept ap f a result ap' Hbuf) as Hsame.
      unfold MidiModeWindow.process_audio_block.
      cbn [MidiModeWindow.audio_processor MidiModeWindow.current_note
           MidiModeWindow.running].
      rewrite Hbuf, Hinv. cbn [negb].
      destruct (AudioProcessor.midi_note result);
        (destruct (IH ap' ltac:(rewrite Hsame; exact Hap) Hlen') as [IH1 IH2];
         destruct (MidiModeWindow.process_audio midi_channel _ bs) as [w2 rest];
         cbn [snd length] in *;
         split; [apply Forall_cons_2; [reflexivity | exact IH1] | rewrite IH2; reflexivity]). }
  apply (G blocks (AudioProcessor.reset (MidiModeWindow.audio_processor w))).
  - exact Hr.
  - simpl. lia.
Qed.

Lemma stability_above_window_is_dead_witness :
  Forall (fun acts => acts = [])
    (snd (MidiModeWindow.process_audio 0
            (MidiModeWindow.start_processing
               (MidiModeWindow.update_stability MidiModeWindow.init 11))
            (repeat (tone 270) 12))).
Proof.
  refine (proj1 (stability_above_window_is_dead 0
                   (MidiModeWindow.update_stability MidiModeWindow.init 11)
                   (repeat (tone 270) 12) _)).
  simpl. lia.
Defined.

(** ** Note names *)

(** [note_name_to_midi] accepts exactly the names made of an entry of its
    table followed by a string that [int] accepts, and the note is then the
    pitch class plus twelve times the octave plus one; anything else is
    [None]. *)
Theorem note_name_to_midi_characterised (s : string) (n : Z) :
  KeyboardEmulator.note_name_to_midi s = Some n
  <-> exists name pc digits octave,
        s = String.append name digits
        /\ KeyboardEmulator.notes_get KeyboardEmulator.notes name = Some pc
        /\ pystr.int digits = Some octave
        /\ n = pc + (octave + 1) * 12.
Proof.
  split.
  - apply note_name_to_midi_inv.
  - intros (name & pc & digits & octave & -> & Hname & Hint & ->).
    apply note_name_to_midi_formula; assumption.
Qed.

(** Enharmonic spellings give the same note in every octave, and for every
    string in place of the octave. *)
Theorem enharmonic_names_agree (digits : string) :
  KeyboardEmulator.note_name_to_midi (String.append "C#" digits)
  = KeyboardEmulator.note_name_to_midi (String.append "Db" digits)
  /\ KeyboardEmulator.note_name_to_midi (String.append "D#" digits)
     = KeyboardEmulator.note_name_to_midi (String.append "Eb" digits)
  /\ KeyboardEmulator.note_name_to_midi (String.append "F#" digits)
     = KeyboardEmulator.note_name_to_midi (String.append "Gb" digits)
  /\ KeyboardEmulator.note_name_to_midi (String.append "G#" digits)
     = KeyboardEmulator.note_name_to_midi (String.append "Ab" digits)
  /\ KeyboardEmulator.note_name_to_midi (String.append "A#" digits)
     = KeyboardEmulator.note_name_to_midi (String.append "Bb" digits).
Proof.
  rewrite !append_String, !append_empty.
  rewrite !note_name_to_midi_accidental by tauto.
  destruct (pystr.int digits); repeat split; reflexivity.
Qed.

(** The spellings C flat, F flat, E sharp and B sharp are not in the table:
    they are rejected in every octave. *)
Theorem unlisted_accidentals_rejected (digits : string) :
  KeyboardEmulator.note_name_to_midi (String.append "Cb" digits) = None
  /\ KeyboardEmulator.note_name_to_midi (String.append "Fb" digits) = None
  /\ KeyboardEmulator.note_name_to_midi (String.append "E#" digits) = None
  /\ KeyboardEmulator.note_name_to_midi (String.append "B#" digits) = None.
Proof.
  rewrite !append_String, !append_empty.
  rewrite !note_name_to_midi_accidental by tauto.
  destruct (pystr.int digits); repeat split; reflexivity.
Qed.

(** ** Mapping files *)

Section MappingFiles.

Import KeyboardEmulator.

Lemma load_row_entry m row :
  load_row m row
  = match row_entry row with
    | Some (n, key) => <[n := key]> m
    | None => m
    end.
Proof.
  destruct row as [|c0 [|c1 rest]]; try reflexivity.
  unfold load_row, row_entry.
  destruct (note_name_to_midi (pystr.strip c0)); reflexivity.
Qed.

Lemma fold_load_row_snoc rows row m :
  fold_left load_row (rows ++ [row]) m = load_row (fold_left load_row rows m) row.
Proof. rewrite fold_left_app. reflexivity. Qed.

Lemma unnamed_in_snoc n rows row :
  unnamed_in n (rows ++ [row])
  <-> unnamed_in n rows /\ forall key, row_entry row <> Some (n, key).
Proof.
  unfold unnamed_in. rewrite Forall_app, Forall_singleton. reflexivity.
Qed.

Lemma load_rows_unnamed n rows m :
  unnamed_in n rows -> fold_left load_row rows m !! n = m !! n.
Proof.
  induction rows as [|row rows IH] using rev_ind; intros H; [reflexivity|].
  apply unnamed_in_snoc in H. destruct H as [Hrows Hrow].
  rewrite fold_load_row_snoc, load_row_entry.
  destruct (row_entry row) as [[n' key]|] eqn:E; [|auto].
  rewrite lookup_insert_ne; [auto|].
  intros ->. exact (Hrow key eq_refl).
Qed.

Lemma load_rows_lookup n rows m :
  (fold_left load_row rows m !! n = m !! n /\ unnamed_in n rows)
  \/ exists before row after key,
       rows = before ++ row :: after
       /\ row_entry row = Some (n, key)
       /\ unnamed_in n after
       /\ fold_left load_row rows m !! n = Some key.
Proof.
  induction rows as [|row rows IH] using rev_ind.
  - left. split; [reflexivity | constructor].
  - rewrite fold_load_row_snoc, load_row_entry.
    destruct (row_entry row) as [[n' key]|] eqn:E.
    + destruct (decide (n' = n)) as [-> | Hne].
      * right. exists rows, row, [], key.
        rewrite lookup_insert_eq. repeat split; auto. constructor.
      * rewrite lookup_insert_ne by assumption.
        destruct IH as [[Hm Hun] | (before & r & after & k & -> & Hr & Hun & Hk)].
        -- left. split; [assumption|].
           apply unnamed_in_snoc. split; [assumption|].
           intros k. rewrite E. congruence.
        -- right. exists before, r, (after ++ [row]), k.
           rewrite <- app_assoc. repeat split; auto.
           apply unnamed_in_snoc. split; [assumption|].
           intros k'. rewrite E. congruence.
    + destruct IH as [[Hm Hun] | (before & r & after & k & -> & Hr & Hun & Hk)].
      * left. split; [assumption|].
        apply unnamed_in_snoc. split; [assumption|].
        intros k. rewrite E. congruence.
      * right. exists before, r, (after ++ [row]), k.
        rewrite <- app_assoc. repeat split; auto.
        apply unnamed_in_snoc. split; [assumption|].
        intros k'. rewrite E. congruence.
Qed.

Lemma load_rows_last n before row after key m :
  row_entry row = Some (n, key) ->
  unnamed_in n after ->
  fold_left load_row (before ++ row :: after) m !! n = Some key.
Proof.
  intros Hrow Hun.
  rewrite fold_left_app. cbn [fold_left].
  rewrite (load_rows_unnamed n after _ Hun), load_row_entry, Hrow.
  apply lookup_insert_eq.
Qed.

Lemma rstrip_first c s :
  pystr.isspace c = false -> exists r, pystr.rstrip (String c s) = String c r.
Proof.
  intros Hc. cbn [pystr.rstrip]. rewrite Hc.
  destruct (pystr.rstrip s); eauto.
Qed.

Lemma strip_first c s :
  pystr.isspace c = false -> exists r, pystr.strip (String c s) = String c r.
Proof.
  intros Hc. unfold pystr.strip. cbn [pystr.lstrip]. rewrite Hc.
  apply rstrip_first, Hc.
Qed.

End MappingFiles.

(** After [load_mapping] has read its rows, a note is unmapped exactly when
    no row names it, and is otherwise mapped to the key of the last row that
    names it: later rows overwrite earlier ones, and the mapping held before
    the call plays no part. *)
Theorem load_mapping_last_row_wins
  (self : KeyboardEmulator.t) (rows : list (list string)) (n : Z) :
  let loaded :=
    KeyboardEmulator.note_to_key_map
      (snd (KeyboardEmulator.load_mapping self (Some rows))) in
  (loaded !! n = None <-> unnamed_in n rows)
  /\ (forall key,
         loaded !! n = Some key
         <-> exists before row after,
               rows = before ++ row :: after
               /\ row_entry row = Some (n, key)
               /\ unnamed_in n after).
Proof.
  cbn [KeyboardEmulator.load_mapping snd KeyboardEmulator.note_to_key_map].
  split.
  - split.
    + intros Hnone.
      destruct (load_rows_lookup n rows ∅)
        as [[_ Hun] | (before & row & after & key & _ & _ & _ & Hk)];
        [assumption | congruence].
    + intros Hun. rewrite (load_rows_unnamed n rows ∅ Hun). apply lookup_empty.
  - intros key. split.
    + intros Hsome.
      destruct (load_rows_lookup n rows ∅)
        as [[Hm _] | (before & row & after & k & Hrows & Hrow & Hun & Hk)].
      * rewrite Hm, lookup_empty in Hsome. discriminate.
      * exists before, row, after. rewrite Hk in Hsome.
        injection Hsome as ->. auto.
    + intros (before & row & after & -> & Hrow & Hun).
      apply load_rows_last; assumption.
Qed.

(** Every name [note_name_to_midi] accepts starts with one of the capital
    letters A to G: lower-case names, names with leading text and the empty
    string are rejected. *)
Theorem note_names_start_with_letter (s : string) (n : Z) :
  KeyboardEmulator.note_name_to_midi s = Some n ->
  exists letter rest,
    s = String letter rest
    /\ In letter ["A"; "B"; "C"; "D"; "E"; "F"; "G"]%char.
Proof. apply note_name_letter. Qed.

Lemma note_names_start_with_letter_witness :
  exists letter rest,
    "F#3"%string = String letter rest
    /\ In letter ["A"; "B"; "C"; "D"; "E"; "F"; "G"]%char.
Proof.
  apply (note_names_start_with_letter "F#3" 54). reflexivity.
Defined.

(** A row whose first column starts with [#] is skipped by [load_mapping],
    whatever the rest of the row is: the comment lines of a mapping file add
    nothing, because their first column is no note name. *)
Theorem comment_rows_skipped
  (m : gmap Z string) (text : string) (columns : list string) :
  KeyboardEmulator.load_row m (String "#" text :: columns) = m.
Proof.
  rewrite load_row_entry.
  destruct columns as [|c1 rest]; [reflexivity|].
  unfold row_entry.
  destruct (strip_first "#" text eq_refl) as [r ->].
  destruct (KeyboardEmulator.note_name_to_midi (String "#" r)) as [n|] eqn:E;
    [|reflexivity].
  apply note_name_letter in E.
  destruct E as (letter & rest' & [= <- _] & Hin).
  cbn in Hin. repeat (destruct Hin as [Hin | Hin]; [discriminate|]).
  destruct Hin.
Qed.

(** The file [create_default_config] writes is read back by [load_mapping]
    as the eight keys of its first eight lines; its two comment lines add
    nothing. *)
Theorem default_config_round_trip (self : KeyboardEmulator.t) :
  KeyboardEmulator.load_mapping self
    (Some (pystr.csv_reader KeyboardEmulator.create_default_config))
  = (true,
     {| KeyboardEmulator.available := KeyboardEmulator.available self;
        KeyboardEmulator.current_key := KeyboardEmulator.current_key self;
        KeyboardEmulator.note_to_key_map :=
          list_to_map
            [(60, "a"); (62, "s"); (64, "d"); (65, "f");
             (67, "g"); (69, "h"); (71, "j"); (72, "k")]%string |}).
Proof.
  unfold KeyboardEmulator.load_mapping.
  replace (fold_left KeyboardEmulator.load_row
             (pystr.csv_reader KeyboardEmulator.create_default_config) ∅)
    with (list_to_map
            [(60, "a"); (62, "s"); (64, "d"); (65, "f");
             (67, "g"); (69, "h"); (71, "j"); (72, "k")]%string
          : gmap Z string)
    by (vm_compute; reflexivity).
  reflexivity.
Qed.

(** ** The prototype scripts *)

Section Scripts.

Lemma size_sounding_of cur : (size (sounding_of cur) <= 1)%nat.
Proof.
  destruct cur as [c|]; unfold sounding_of.
  - rewrite size_singleton. lia.
  - rewrite size_empty. lia.
Qed.

Lemma receive_note_off c : receive (sounding_of (Some c)) (note_off c 0) = ∅.
Proof. unfold receive, sounding_of. apply difference_diag_L. Qed.

Lemma receive_note_on n v : receive ∅ (note_on n v 0) = sounding_of (Some n).
Proof. unfold receive, sounding_of. apply union_empty_r_L. Qed.

Lemma loop_app {V : Type} (body : V -> Q -> Q -> script.t V) xs :
  forall vars ys,
    script.loop body vars (xs ++ ys)
    = script.bind (script.loop body vars xs) (fun vars' => script.loop body vars' ys).
Proof.
  induction xs as [|[f a] xs IH]; intros vars ys.
  - cbn [app script.loop script.ret script.bind].
    destruct (script.loop body vars ys) as [msgs r]. reflexivity.
  - cbn [app script.loop]. unfold script.bind at 1 3.
    destruct (body vars f a) as [msgs [vars1|e]]; [|reflexivity].
    rewrite IH. unfold script.bind.
    destruct (script.loop body vars1 xs) as [msgs1 [vars2|e]]; [|reflexivity].
    destruct (script.loop body vars2 ys) as [msgs2 r].
    rewrite app_assoc. reflexivity.
Qed.

(** What a script sends keeps at most one note on at a receiver that agrees
    with [current_note], when each pass does. *)
Lemma loop_keeps_one_note {V : Type} (cur : V -> option Z)
    (body : V -> Q -> Q -> script.t V) :
  (forall vars f a, pass_keeps_one_note cur vars (body vars f a)) ->
  forall blocks vars, pass_keeps_one_note cur vars (script.loop body vars blocks).
Proof.
  intros Hbody. induction blocks as [|[f a] blocks IH]; intros vars.
  - split; cbn; [split; [apply size_sounding_of | exact I] | reflexivity].
  - cbn [script.loop]. specialize (Hbody vars f a).
    unfold pass_keeps_one_note in *. unfold script.bind.
    destruct (body vars f a) as [msgs [vars1|e]]; cbn [fst snd] in *.
    + specialize (IH vars1).
      destruct (script.loop body vars1 blocks) as [msgs' r]; cbn [fst snd] in *.
      destruct Hbody as [Hn Hs]. destruct IH as [Hn' Hs'].
      split.
      * apply never_two_on_app. rewrite Hs. auto.
      * destruct r as [vars2|e]; [|exact I].
        rewrite sounding_after_app, Hs. exact Hs'.
    + tauto.
Qed.

End Scripts.

Ltac script_step :=
  unfold script.bind, script.send_note_off, script.send_note_on,
    script.ret, script.raise,
    MidiModeWindow.Message_note_off, MidiModeWindow.Message_note_on.

Section Basic.

Import stylomidi_basic.

Lemma basic_body_audible cur f a :
  AudioProcessor.valid_signal f a = true ->
  let n := AudioProcessor.int_semitone f in
  body cur f a
  = if bool_decide (Some n <> cur) then
      (match cur with
       | Some c => script.send_note_off c 0
       | None => script.ret tt
       end
       >> script.send_note_on n 64 0
       >> script.ret (Some n))%script
    else script.ret cur.
Proof.
  intros Hv n. unfold body, freq_to_midi.
  rewrite Hv, (valid_signal_freq_to_midi f a Hv). reflexivity.
Qed.

Lemma basic_body_current cur f a msgs cur' :
  body cur f a = (msgs, Returns cur') ->
  cur' = match classify (f, a) with Note n => Some n | Silence => None end.
Proof.
  unfold classify.
  destruct (AudioProcessor.valid_signal f a) eqn:Hv.
  - rewrite (basic_body_audible cur f a Hv). cbv zeta.
    case_bool_decide as Hne.
    + script_step.
      destruct cur as [c|];
        repeat match goal with
               | |- context [if ?b then _ else _] => destruct b
               end;
        cbn; congruence.
    + intros [= _ <-].
      destruct (decide (Some (AudioProcessor.int_semitone f) = cur)) as [E|E];
        [congruence | exfalso; auto].
  - unfold body. rewrite Hv. script_step.
    destruct cur as [c|];
      repeat match goal with
             | |- context [if ?b then _ else _] => destruct b
             end;
      cbn; congruence.
Qed.

Lemma basic_body_keeps_one_note cur f a :
  pass_keeps_one_note (fun cur => cur) cur (body cur f a).
Proof.
  unfold pass_keeps_one_note.
  pose proof (size_sounding_of cur) as Hcur.
  destruct (AudioProcessor.valid_signal f a) eqn:Hv.
  - rewrite (basic_body_audible cur f a Hv). cbv zeta.
    case_bool_decide as Hne; [|cbn; auto].
    script_step.
    destruct cur as [c|];
      repeat match goal with
             | |- context [if ?b then _ else _] => destruct b
             end;
      cbn [fst snd app never_two_on sounding_after fold_left];
      rewrite ?receive_note_off, ?receive_note_on;
      repeat split; auto using size_sounding_of;
      try (rewrite size_empty; lia).
  - unfold body. rewrite Hv. script_step.
    destruct cur as [c|];
      repeat match goal with
             | |- context [if ?b then _ else _] => destruct b
             end;
      cbn [fst snd app never_two_on sounding_after fold_left];
      rewrite ?receive_note_off, ?receive_note_on;
      repeat split; auto using size_sounding_of;
      try (rewrite size_empty; lia).
Qed.

End Basic.

(** [stylomidi_basic.py] has no stability filter: whenever a pass of its
    loop completes, [current_note] is the quantised pitch of the block just
    read, or [None] for a block under the silence gate, whatever came
    before. *)
Theorem basic_follows_last_block
  (blocks : list (Q * Q)) (block : Q * Q) (msgs : list Message) (cur : option Z) :
  stylomidi_basic.run (blocks ++ [block]) = (msgs, Returns cur) ->
  cur = match classify block with Note n => Some n | Silence => None end.
Proof.
  unfold stylomidi_basic.run. rewrite loop_app. unfold script.bind at 1.
  destruct (script.loop stylomidi_basic.body None blocks) as [msgs0 [cur0|e]];
    [|discriminate].
  destruct block as [f a]. cbn [script.loop]. unfold script.bind, script.ret.
  destruct (stylomidi_basic.body cur0 f a) as [msgs1 [cur1|e]] eqn:Hbody;
    [|discriminate].
  intros [= _ <-]. eapply basic_body_current, Hbody.
Qed.

Lemma basic_follows_last_block_witness :
  Some 61 = match classify (tone 285) with Note n => Some n | Silence => None end.
Proof.
  refine (basic_follows_last_block [tone 270; quiet] (tone 285)
            [note_on 60 64 0; note_off 60 0; note_on 61 64 0] (Some 61) _).
  vm_compute. reflexivity.
Defined.

(** What [stylomidi_basic.py] sends never has two notes on at the receiver,
    on any sequence of blocks, and while the script runs its [current_note]
    is the note that is on. *)
Theorem basic_never_two_notes_on (blocks : list (Q * Q)) :
  never_two_on ∅ (fst (stylomidi_basic.run blocks))
  /\ match snd (stylomidi_basic.run blocks) with
     | Returns cur =>
         sounding_after ∅ (fst (stylomidi_basic.run blocks)) = sounding_of cur
     | Raises _ => True
     end.
Proof.
  exact (loop_keeps_one_note (fun cur => cur) stylomidi_basic.body
           basic_body_keeps_one_note blocks None).
Qed.

Section Enhance.

Import stylomidi_enhance.

Lemma feed_cons ap block blocks :
  feed ap (block :: blocks) = feed (feed ap [block]) blocks.
Proof. reflexivity. Qed.

(** The outcomes of a pass on a block past the silence gate. *)
Lemma enhance_body_audible vars f a :
  AudioProcessor.valid_signal f a = true ->
  let h := collections.deque_append maxlen (note_history vars)
             (AudioProcessor.int_semitone f) in
  let vars1 := {| note_history := h;
                  current_note := current_note vars;
                  current_stable_note := current_stable_note vars |} in
  exists m,
    In m h
    /\ body vars f a
       = if (required_stability <=? count m h)
            && bool_decide (Some m <> current_stable_note vars)
         then
           (match current_note vars with
            | Some c => script.send_note_off c 0
            | None => script.ret tt
            end
            >> script.send_note_on m 64 0
            >> script.ret {| note_history := h;
                             current_note := Some m;
                             current_stable_note := Some m |})%script
         else script.ret vars1.
Proof.
  intros Hv h vars1.
  destruct (most_common_1_Counter h (deque_append_not_nil _ _ _))
    as (m & Hmc & Hin & Hmax).
  exists m. split; [exact Hin|].
  unfold body, freq_to_midi.
  rewrite Hv, (valid_signal_freq_to_midi f a Hv). cbv zeta.
  unfold AudioProcessor.round_int. fold h. rewrite Hmc. fold vars1.
  destruct (required_stability <=? Z.of_nat (length h)) eqn:Hlen.
  - destruct (required_stability <=? count m h); reflexivity.
  - assert (Hcnt : (required_stability <=? count m h) = false).
    { apply Z.leb_gt. apply Z.leb_gt in Hlen.
      pose proof (count_occ_bound Z.eq_dec m h) as Hb.
      unfold count. lia. }
    rewrite Hcnt. reflexivity.
Qed.

Lemma enhance_body_agrees vars ap f a msgs vars' :
  enhance_agrees vars ap ->
  body vars f a = (msgs, Returns vars') ->
  enhance_agrees vars' (feed ap [(f, a)]).
Proof.
  intros (Hh & Hs & Hr & Hcs & Hb) Hbody.
  unfold feed. cbn [fold_left fst snd].
  destruct (AudioProcessor.valid_signal f a) eqn:Hv.
  - unfold AudioProcessor.process_audio_buffer.
    unfold body, freq_to_midi in Hbody.
    rewrite Hv, (valid_signal_freq_to_midi f a Hv) in Hbody.
    rewrite Hv, (valid_signal_freq_to_midi f a Hv).
    cbv zeta in *. unfold AudioProcessor.round_int in *.
    rewrite Hh, Hr, Hs. change AudioProcessor.maxlen with maxlen.
    set (h := collections.deque_append maxlen (note_history vars)
                (AudioProcessor.int_semitone f)) in *.
    destruct (most_common_1_Counter h (deque_append_not_nil _ _ _))
      as (m & Hmc & _ & _).
    rewrite Hmc in Hbody. rewrite Hmc.
    destruct (required_stability <=? Z.of_nat (length h));
      [|injection Hbody as _ <-; repeat split; cbn; auto].
    destruct (required_stability <=? count m h);
      [|injection Hbody as _ <-; repeat split; cbn; auto].
    destruct (decide (Some m = current_stable_note vars)) as [E|E].
    + rewrite (bool_decide_eq_true_2 _ E).
      rewrite bool_decide_eq_false_2 in Hbody by auto.
      injection Hbody as _ <-. repeat split; cbn; auto.
    + rewrite (bool_decide_eq_false_2 _ E).
      rewrite (bool_decide_eq_true_2 _ E) in Hbody.
      revert Hbody. script_step.
      destruct (current_note vars) as [c|] eqn:Hc;
        rewrite ?(Hb c eq_refl);
        destruct (MidiModeWindow.data_byte m) eqn:Hm; cbn;
        try discriminate;
        intros [= _ <-]; repeat split; cbn; auto; congruence.
  - rewrite (process_audio_buffer_silence ap f a Hv).
    unfold body in Hbody. rewrite Hv in Hbody.
    destruct (current_note vars) as [c|] eqn:Hc.
    + revert Hbody. script_step. rewrite (Hb c eq_refl). cbn.
      intros [= _ <-]. repeat split; cbn; congruence.
    + revert Hbody. script_step. intros [= _ <-].
      repeat split; cbn; congruence.
Qed.

Lemma enhance_loop_agrees blocks :
  forall vars ap msgs vars',
    enhance_agrees vars ap ->
    script.loop body vars blocks = (msgs, Returns vars') ->
    enhance_agrees vars' (feed ap blocks).
Proof.
  induction blocks as [|[f a] blocks IH]; intros vars ap msgs vars' Hag Hloop.
  - injection Hloop as _ <-. exact Hag.
  - cbn [script.loop] in Hloop. unfold script.bind in Hloop.
    destruct (body vars f a) as [msgs1 [vars1|e]] eqn:Hbody; [|discriminate].
    destruct (script.loop body vars1 blocks) as [msgs2 r] eqn:Hrest.
    injection Hloop as _ ->.
    rewrite feed_cons.
    exact (IH vars1 _ msgs2 vars'
             (enhance_body_agrees vars ap f a msgs1 vars1 Hag Hbody) Hrest).
Qed.

Lemma enhance_init_agrees :
  enhance_agrees init (AudioProcessor.init AudioProcessor.default_stability_threshold).
Proof. repeat split; cbn; auto; discriminate. Qed.

Lemma enhance_body_keeps_one_note vars f a :
  pass_keeps_one_note current_note vars (body vars f a).
Proof.
  unfold pass_keeps_one_note.
  pose proof (size_sounding_of (current_note vars)) as Hcur.
  destruct (AudioProcessor.valid_signal f a) eqn:Hv.
  - destruct (enhance_body_audible vars f a Hv) as (m & _ & ->).
    destruct (_ && _); [|cbn; auto].
    script_step.
    destruct (current_note vars) as [c|];
      repeat match goal with
             | |- context [if ?b then _ else _] => destruct b
             end;
      cbn [fst snd app never_two_on sounding_after fold_left current_note];
      rewrite ?receive_note_off, ?receive_note_on;
      repeat split; auto using size_sounding_of;
      try (rewrite size_empty; lia).
  - unfold body. rewrite Hv. script_step.
    destruct (current_note vars) as [c|];
      repeat match goal with
             | |- context [if ?b then _ else _] => destruct b
             end;
      cbn [fst snd app never_two_on sounding_after fold_left current_note];
      rewrite ?receive_note_off, ?receive_note_on;
      repeat split; auto using size_sounding_of;
      try (rewrite size_empty; lia).
Qed.

End Enhance.

(** The filter of [stylomidi_enhance.py] is the one [AudioProcessor] was
    made from: after any sequence of blocks the script gets through, its
    window and its stable note are those of an [AudioProcessor] of the
    default stability fed the same blocks, and the note the script has on
    is its stable note. *)
Theorem enhance_filter_is_audio_processor
  (blocks : list (Q * Q)) (msgs : list Message) (vars : stylomidi_enhance.t) :
  stylomidi_enhance.run blocks = (msgs, Returns vars) ->
  let ap :=
    feed (AudioProcessor.init AudioProcessor.default_stability_threshold) blocks in
  AudioProcessor.note_history ap = stylomidi_enhance.note_history vars
  /\ AudioProcessor.current_stable_note ap
     = stylomidi_enhance.current_stable_note vars
  /\ stylomidi_enhance.current_note vars
     = stylomidi_enhance.current_stable_note vars.
Proof.
  intros Hrun ap.
  destruct (enhance_loop_agrees blocks _ _ msgs vars enhance_init_agrees Hrun)
    as (Hh & Hs & _ & Hcs & _).
  auto.
Qed.

Lemma enhance_filter_is_audio_processor_witness :
  let ap :=
    feed (AudioProcessor.init AudioProcessor.default_stability_threshold) drift in
  AudioProcessor.note_history ap = [60; 60; 60; 60; 61; 62; 63; 64; 65; 66]
  /\ AudioProcessor.current_stable_note ap = Some 60
  /\ Some 60 = Some 60.
Proof.
  refine (enhance_filter_is_audio_processor drift [note_on 60 64 0]
            {| stylomidi_enhance.note_history :=
                 [60; 60; 60; 60; 61; 62; 63; 64; 65; 66];
               stylomidi_enhance.current_note := Some 60;
               stylomidi_enhance.current_stable_note := Some 60 |} _).
  vm_compute. reflexivity.
Defined.

(** What [stylomidi_enhance.py] sends never has two notes on at the
    receiver, on any sequence of blocks, and while the script runs its
    [current_note] is the note that is on. *)
Theorem enhance_never_two_notes_on (blocks : list (Q * Q)) :
  never_two_on ∅ (fst (stylomidi_enhance.run blocks))
  /\ match snd (stylomidi_enhance.run blocks) with
     | Returns vars =>
         sounding_after ∅ (fst (stylomidi_enhance.run blocks))
         = sounding_of (stylomidi_enhance.current_note vars)
     | Raises _ => True
     end.
Proof.
  exact (loop_keeps_one_note stylomidi_enhance.current_note stylomidi_enhance.body
           enhance_body_keeps_one_note blocks stylomidi_enhance.init).
Qed.

(** In [stylomidi_enhance.py] a block past the silence gate never cuts the
    note that is on: the pass sends nothing and keeps the note, or replaces
    it, note-off then note-on, by a different note; the one other outcome is
    the [ValueError] of a new note outside the MIDI range, after the
    note-off.  A note-off alone on an audible block, as the loop of
    [MidiModeWindow] sends, is not among them. *)
Theorem enhance_audible_block_keeps_note
  (blocks : list (Q * Q)) (msgs : list Message) (vars : stylomidi_enhance.t)
  (f a : Q) (c : Z) :
  stylomidi_enhance.run blocks = (msgs, Returns vars) ->
  AudioProcessor.valid_signal f a = true ->
  stylomidi_enhance.current_note vars = Some c ->
  (exists vars',
      stylomidi_enhance.body vars f a = ([], Returns vars')
      /\ stylomidi_enhance.current_note vars' = Some c)
  \/ (exists n vars',
         n <> c
         /\ stylomidi_enhance.body vars f a
            = ([note_off c 0; note_on n 64 0], Returns vars')
         /\ stylomidi_enhance.current_note vars' = Some n)
  \/ stylomidi_enhance.body vars f a = ([note_off c 0], Raises ValueError).
Proof.
  intros Hrun Hv Hc.
  destruct (enhance_loop_agrees blocks _ _ msgs vars enhance_init_agrees Hrun)
    as (_ & _ & _ & Hcs & Hb).
  destruct (enhance_body_audible vars f a Hv) as (m & _ & ->).
  rewrite Hc in *.
  destruct (_ <=? _); cbn [andb];
    [|left; eexists; split; reflexivity].
  case_bool_decide as Hne;
    [|left; eexists; split; reflexivity].
  right. script_step. rewrite (Hb c eq_refl). cbn [andb].
  change (MidiModeWindow.channel_ok 0) with true.
  change (MidiModeWindow.data_byte 64) with true.
  rewrite ?andb_true_r. cbn [andb].
  destruct (MidiModeWindow.data_byte m) eqn:Hm.
  - left. exists m. eexists. split; [congruence|].
    split; reflexivity.
  - right. reflexivity.
Qed.

Lemma enhance_audible_block_keeps_note_witness :
  (exists vars',
      stylomidi_enhance.body
        {| stylomidi_enhance.note_history := [60; 60; 60; 60; 60];
           stylomidi_enhance.current_note := Some 60;
           stylomidi_enhance.current_stable_note := Some 60 |}
        (285 # 1) (1 # 10) = ([], Returns vars')
      /\ stylomidi_enhance.current_note vars' = Some 60)
  \/ (exists n vars',
         n <> 60
         /\ stylomidi_enhance.body
              {| stylomidi_enhance.note_history := [60; 60; 60; 60; 60];
                 stylomidi_enhance.current_note := Some 60;
                 stylomidi_enhance.current_stable_note := Some 60 |}
              (285 # 1) (1 # 10)
            = ([note_off 60 0; note_on n 64 0], Returns vars')
         /\ stylomidi_enhance.current_note vars' = Some n)
  \/ stylomidi_enhance.body
       {| stylomidi_enhance.note_history := [60; 60; 60; 60; 60];
          stylomidi_enhance.current_note := Some 60;
          stylomidi_enhance.current_stable_note := Some 60 |}
       (285 # 1) (1 # 10) = ([note_off 60 0], Raises ValueError).
Proof.
  refine (enhance_audible_block_keeps_note (repeat (tone 270) 5)
            [note_on 60 64 0]
            {| stylomidi_enhance.note_history := [60; 60; 60; 60; 60];
               stylomidi_enhance.current_note := Some 60;
               stylomidi_enhance.current_stable_note := Some 60 |}
            (285 # 1) (1 # 10) 60 _ _ _);
    vm_compute; reflexivity.
Defined.

(** ** Pressing keys *)

(** [press_key] is idempotent: pressing the note that was just pressed makes
    no call into the [keyboard] module, changes nothing and gives the same
    answer, so a held note does not retrigger its key. *)
Theorem press_key_idempotent (self : KeyboardEmulator.t) (midi_note : Z) :
  let '(key_pressed, self', _) := KeyboardEmulator.press_key self midi_note in
  KeyboardEmulator.press_key self' midi_note = (key_pressed, self', []).
Proof.
  unfold KeyboardEmulator.press_key.
  destruct (negb (KeyboardEmulator.available self)) eqn:Hav.
  - rewrite Hav. reflexivity.
  - destruct (KeyboardEmulator.note_to_key_map self !! midi_note) as [key|] eqn:Hkey.
    + case_bool_decide as Hne.
      * cbn [KeyboardEmulator.available KeyboardEmulator.note_to_key_map
               KeyboardEmulator.current_key].
        rewrite Hav, Hkey.
        rewrite bool_decide_eq_false_2 by (intros H; apply H; reflexivity).
        rewrite bool_decide_eq_false_2 by (intros H; apply H; reflexivity).
        reflexivity.
      * rewrite Hav, Hkey.
        assert (Hcur : KeyboardEmulator.current_key self = Some key).
        { destruct (decide (Some key = KeyboardEmulator.current_key self));
            [congruence | exfalso; auto]. }
        rewrite Hcur.
        rewrite bool_decide_eq_false_2 by (intros H; apply H; reflexivity).
        rewrite bool_decide_eq_false_2 by (intros H; apply H; reflexivity).
        reflexivity.
    + rewrite Hav, Hkey. reflexivity.
Qed.

(** When [press_key] answers [True] the key on record afterwards is the key
    the mapping gives the note, which is what the status line of the
    keyboard loop then shows; when it answers [False] nothing was called and
    nothing changed, so a key pressed before stays down. *)
Theorem pressed_key_is_mapped_key (self : KeyboardEmulator.t) (midi_note : Z) :
  let '(key_pressed, self', calls) := KeyboardEmulator.press_key self midi_note in
  if key_pressed
  then KeyboardEmulator.available self = true
       /\ KeyboardEmulator.current_key self'
          = KeyboardEmulator.note_to_key_map self !! midi_note
       /\ is_Some (KeyboardEmulator.current_key self')
  else self' = self /\ calls = []
       /\ (KeyboardEmulator.available self = false
           \/ KeyboardEmulator.note_to_key_map self !! midi_note = None).
Proof.
  unfold KeyboardEmulator.press_key.
  destruct (KeyboardEmulator.available self) eqn:Hav; cbn [negb];
    [|repeat split; auto].
  destruct (KeyboardEmulator.note_to_key_map self !! midi_note) as [key|] eqn:Hkey;
    [|repeat split; auto].
  case_bool_decide as Hne.
  - cbn [KeyboardEmulator.current_key]. repeat split; eauto.
  - assert (Hcur : KeyboardEmulator.current_key self = Some key).
    { destruct (decide (Some key = KeyboardEmulator.current_key self));
        [congruence | exfalso; auto]. }
    rewrite Hcur. repeat split; eauto.
Qed.

(** ** The content of the window *)

Section Window.

Import AudioProcessor.

Lemma recent_short k l : (length l <= k)%nat -> recent k l = l.
Proof.
  intros H. unfold recent.
  replace (length l - k)%nat with 0%nat by lia. apply drop_0.
Qed.

Lemma length_recent k l : (length (recent k l) <= k)%nat.
Proof. unfold recent. rewrite length_drop. lia. Qed.

Lemma deque_append_recent d x :
  (length d <= maxlen)%nat ->
  collections.deque_append maxlen d x = recent maxlen (d ++ [x]).
Proof.
  intros Hlen. unfold collections.deque_append.
  destruct (maxlen <=? length d)%nat eqn:Hfull.
  - apply Nat.leb_le in Hfull.
    unfold recent. rewrite length_app. cbn [length].
    replace (length d + 1 - maxlen)%nat with 1%nat by lia.
    destruct d as [|y d]; [unfold maxlen in Hfull; cbn in Hfull; lia|].
    reflexivity.
  - apply Nat.leb_gt in Hfull.
    rewrite recent_short; [reflexivity|].
    rewrite length_app. cbn [length]. lia.
Qed.

Lemma recent_snoc k l x :
  (0 < k)%nat -> recent k (recent k l ++ [x]) = recent k (l ++ [x]).
Proof.
  intros Hk.
  destruct (le_lt_dec (length l) k) as [Hle | Hgt].
  - rewrite (recent_short k l Hle). reflexivity.
  - unfold recent at 1 3. rewrite !length_app. cbn [length].
    unfold recent. rewrite length_drop.
    replace (length l - (length l - k) + 1 - k)%nat with 1%nat by lia.
    rewrite !drop_app_le by (rewrite ?length_drop; lia).
    rewrite drop_drop. f_equal. f_equal. lia.
Qed.

Lemma recent_app k l ys :
  (0 < k)%nat -> recent k (recent k l ++ ys) = recent k (l ++ ys).
Proof.
  intros Hk. induction ys as [|y ys IHys] using rev_ind.
  - rewrite !app_nil_r. apply recent_short, length_recent.
  - rewrite !app_assoc.
    rewrite <- (recent_snoc k (recent k l ++ ys) y Hk).
    rewrite IHys. apply recent_snoc, Hk.
Qed.

Lemma feed_history_audible self f a :
  valid_signal f a = true ->
  note_history (feed self [(f, a)])
  = collections.deque_append maxlen (note_history self) (int_semitone f).
Proof.
  intros Hv. unfold feed. cbn [fold_left fst snd].
  destruct (process_audio_buffer_note self f a Hv) as (m & _ & _ & ->).
  destruct (_ <=? _); reflexivity.
Qed.

Lemma feed_current_note self f a :
  current_note (feed self [(f, a)]) = current_note self.
Proof.
  unfold feed. cbn [fold_left fst snd].
  destruct (valid_signal f a) eqn:Hv.
  - destruct (process_audio_buffer_note self f a Hv) as (m & _ & _ & ->).
    destruct (_ <=? _); reflexivity.
  - rewrite (process_audio_buffer_silence self f a Hv). reflexivity.
Qed.

End Window.

(** The window is the last ten notes heard: over blocks that all pass the
    silence gate, [note_history] is the last ten of the notes it held
    followed by the quantised pitches of the blocks, in order. *)
Theorem note_history_is_recent_notes
  (self : AudioProcessor.t) (blocks : list (Q * Q)) :
  (length (AudioProcessor.note_history self) <= AudioProcessor.maxlen)%nat ->
  Forall (fun block => AudioProcessor.valid_signal (fst block) (snd block) = true)
    blocks ->
  AudioProcessor.note_history (feed self blocks)
  = recent AudioProcessor.maxlen
      (AudioProcessor.note_history self ++ map block_note blocks).
Proof.
  revert self. induction blocks as [|[f a] blocks IH]; intros self Hlen Hall.
  - cbn [map feed fold_left]. rewrite app_nil_r.
    symmetry. apply recent_short. exact Hlen.
  - apply Forall_cons in Hall. destruct Hall as [Hv Hall]. cbn [fst snd] in Hv.
    rewrite feed_cons.
    assert (Hlen1 : (length (AudioProcessor.note_history (feed self [(f, a)]))
                     <= AudioProcessor.maxlen)%nat).
    { rewrite (feed_history_audible self f a Hv).
      apply length_deque_append. exact Hlen. }
    rewrite (IH _ Hlen1 Hall).
    rewrite (feed_history_audible self f a Hv).
    rewrite (deque_append_recent _ _ Hlen).
    cbn [map]. unfold block_note at 2. cbn [fst].
    change (AudioProcessor.note_history self
            ++ AudioProcessor.int_semitone f :: map block_note blocks)
      with (AudioProcessor.note_history self
            ++ [AudioProcessor.int_semitone f] ++ map block_note blocks).
    rewrite (app_assoc (AudioProcessor.note_history self)).
    apply recent_app. unfold AudioProcessor.maxlen. lia.
Qed.

Lemma note_history_is_recent_notes_witness :
  AudioProcessor.note_history
    (feed (AudioProcessor.init AudioProcessor.default_stability_threshold) drift)
  = recent AudioProcessor.maxlen
      (AudioProcessor.note_history
         (AudioProcessor.init AudioProcessor.default_stability_threshold)
       ++ map block_note drift).
Proof.
  apply (note_history_is_recent_notes
           (AudioProcessor.init AudioProcessor.default_stability_threshold) drift).
  - cbn. lia.
  - unfold drift. repeat constructor.
Defined.

(** The field [current_note] of [AudioProcessor] is never assigned a note:
    after [__init__] it is [None] and stays [None] through every sequence of
    calls to [process_audio_buffer], [set_stability] and [reset]; the note
    that is on is kept by the windows, not by the processor. *)
Theorem processor_current_note_unused
  (stability_threshold : Z) (calls : list processor_call) :
  AudioProcessor.current_note
    (fold_left processor_step calls (AudioProcessor.init stability_threshold))
  = None.
Proof.
  assert (G : forall self, AudioProcessor.current_note self = None ->
                AudioProcessor.current_note (fold_left processor_step calls self) = None).
  { induction calls as [|call calls IH]; intros self Hself; [exact Hself|].
    cbn [fold_left]. apply IH.
    destruct call as [f a | value | ]; cbn [processor_step].
    - rewrite feed_current_note. exact Hself.
    - exact Hself.
    - reflexivity. }
  apply G. reflexivity.
Qed.
